(** * lsst/sims_featureScheduler: reward composition and greedy selection

    A shallow embedding of the parts of the scheduler that its specification
    makes claims about:

    - [utils.set_default_nside]                         (utils.py)
    - [Target_map_modulo_basis_function]                (basis_functions/rolling_funcs.py)
    - [Simple_greedy_survey_fields], [Block_survey],
      [Vary_expt_survey], [Scripted_single_block_survey] (surveys/to_port.py)

    and, after the claims, of more of the same files: [Greedy_survey_comcam]
    (surveys/to_port.py), [inrange], [WFD_healpixels], [SCP_healpixels] and
    [generate_goal_map] (utils.py), with further properties of the classes
    above.

    numpy's float64 is IEEE binary64, which is the kernel's primitive [float];
    [np.inf] is [infinity], [hp.UNSEEN] is the literal [-1.6375e+30].  A Python
    exception is an outcome of the error monad [py].

    numpy chooses how it sorts and in which order it sums.  The theorems on
    the order of the emitted fields and on the block of a mask
    ([Simple_greedy_survey_fields], [BlockSurveyMasks]) hold for any
    [np.argsort] that sorts and any [np.sum]; [NPSort.argsort] and
    [NPSort.np_sum] are what numpy runs on the short arrays of the examples. *)

From Stdlib Require Import ZArith List Bool Lia Floats Sorted.
From Stdlib Require Uint63.
From stdpp Require Import base option list gmap strings sorting.

(* ================================================================== *)
(** * The order of binary64 values *)

(** [PrimFloat]'s comparisons are primitives; what is known about them in
    general comes from their specification over [spec_float]. *)
Module FloatOrder.

Local Open Scope Z_scope.
Local Open Scope float_scope.

Definition SFnan (f : spec_float) : bool :=
  match f with S754_nan => true | _ => false end.

Lemma SFcompare_nan f1 f2 :
  SFcompare f1 f2 = None <-> SFnan f1 = true \/ SFnan f2 = true.
Proof.
  destruct f1 as [s1|s1| |s1 m1 e1], f2 as [s2|s2| |s2 m2 e2]; simpl;
    split; intros H; try discriminate; auto;
    destruct H; discriminate.
Qed.

(** [SFcompare] is written with [Pos.compare_cont Eq]: show it as [Pos.compare]. *)
Ltac fold_cmp :=
  repeat match goal with
  | |- context [PosDef.Pos.compare_cont Eq ?a ?b] =>
      change (PosDef.Pos.compare_cont Eq a b) with (Pos.compare a b)
  end.

Lemma SFcompare_sym f1 f2 c :
  SFcompare f1 f2 = Some c -> SFcompare f2 f1 = Some (CompOpp c).
Proof.
  destruct f1 as [s1|s1| |s1 m1 e1], f2 as [s2|s2| |s2 m2 e2]; simpl;
    try discriminate;
    try (destruct s1; intros [= <-]; reflexivity);
    try (destruct s2; intros [= <-]; reflexivity);
    try (destruct s1, s2; intros [= <-]; reflexivity);
    try (intros [= <-]; reflexivity).
  fold_cmp. rewrite (Z.compare_antisym e1 e2), (Pos.compare_antisym m1 m2).
  destruct s1, s2; intros [= <-]; try reflexivity;
    destruct (e1 ?= e2)%Z; simpl; try reflexivity;
    destruct (m1 ?= m2)%positive; reflexivity.
Qed.

Lemma SFcompare_refl f : SFnan f = false -> SFcompare f f = Some Eq.
Proof.
  destruct f as [s|s| |s m e]; simpl; try discriminate; intros _;
    try (destruct s; reflexivity).
  fold_cmp. rewrite Z.compare_refl, Pos.compare_refl. destruct s; reflexivity.
Qed.

(** The order is the lexicographic one on (class, exponent, mantissa): an
    integer rank that [SFcompare] agrees with turns every order fact into
    linear arithmetic. *)
Definition SFle (f1 f2 : spec_float) : Prop :=
  match SFcompare f1 f2 with Some (Lt | Eq) => True | _ => False end.

Lemma SFle_trans f1 f2 f3 : SFle f1 f2 -> SFle f2 f3 -> SFle f1 f3.
Proof.
  unfold SFle.
  destruct f1 as [s1|s1| |s1 m1 e1], f2 as [s2|s2| |s2 m2 e2],
           f3 as [s3|s3| |s3 m3 e3]; simpl; try tauto;
    try (destruct s1; simpl; tauto);
    try (destruct s2; simpl; tauto);
    try (destruct s3; simpl; tauto);
    try (destruct s1, s2; simpl; tauto);
    try (destruct s1, s3; simpl; tauto);
    try (destruct s2, s3; simpl; tauto);
    try (destruct s1, s2, s3; simpl; tauto).
  fold_cmp.
  destruct s1, s2, s3; simpl; try tauto;
    destruct (Z.compare_spec e1 e2), (Z.compare_spec e2 e3),
             (Z.compare_spec e1 e3); simpl; try tauto; try lia;
    destruct (Pos.compare_spec m1 m2), (Pos.compare_spec m2 m3),
             (Pos.compare_spec m1 m3); simpl; try tauto; try lia.
Qed.

Lemma SFleb_le f1 f2 : SFleb f1 f2 = true <-> SFle f1 f2.
Proof.
  unfold SFleb, SFle. destruct (SFcompare f1 f2) as [[]|]; simpl;
    split; intros H; try discriminate; try tauto.
Qed.

(** ** Facts on the primitive comparisons *)

Definition fle (x y : float) : Prop := (x <=? y) = true.

Lemma is_nan_spec x : is_nan x = SFnan (Prim2SF x).
Proof.
  unfold is_nan. rewrite FloatAxioms.eqb_spec. unfold SFeqb.
  destruct (Prim2SF x) as [s|s| |s m e] eqn:E; simpl; try reflexivity;
    try (destruct s; reflexivity).
  fold_cmp. rewrite Z.compare_refl, Pos.compare_refl. destruct s; reflexivity.
Qed.

Lemma fle_refl x : is_nan x = false -> fle x x.
Proof.
  rewrite is_nan_spec. intros H. unfold fle. rewrite FloatAxioms.leb_spec. unfold SFleb.
  rewrite (SFcompare_refl _ H). reflexivity.
Qed.

Lemma fle_trans x y z : fle x y -> fle y z -> fle x z.
Proof.
  unfold fle. rewrite !FloatAxioms.leb_spec, !SFleb_le. apply SFle_trans.
Qed.

Lemma fle_not_nan x y : fle x y -> is_nan x = false /\ is_nan y = false.
Proof.
  unfold fle. rewrite FloatAxioms.leb_spec, !is_nan_spec. unfold SFleb.
  destruct (SFcompare (Prim2SF x) (Prim2SF y)) eqn:E; [|discriminate].
  intros _.
  destruct (SFnan (Prim2SF x)) eqn:Ex, (SFnan (Prim2SF y)) eqn:Ey; auto;
    exfalso; assert (SFcompare (Prim2SF x) (Prim2SF y) = None)
      by (apply SFcompare_nan; auto); congruence.
Qed.

Lemma fle_total x y :
  is_nan x = false -> is_nan y = false -> fle x y \/ fle y x.
Proof.
  rewrite !is_nan_spec. unfold fle. rewrite !FloatAxioms.leb_spec. unfold SFleb.
  intros Hx Hy.
  destruct (SFcompare (Prim2SF x) (Prim2SF y)) as [c|] eqn:E.
  - rewrite (SFcompare_sym _ _ _ E). destruct c; simpl; auto.
  - apply SFcompare_nan in E. destruct E; congruence.
Qed.

Lemma ltb_fle x y : (x <? y) = true -> fle x y.
Proof.
  unfold fle. rewrite FloatAxioms.ltb_spec, FloatAxioms.leb_spec. unfold SFltb, SFleb.
  destruct (SFcompare _ _) as [[]|]; auto.
Qed.

Lemma ltb_false_fle x y :
  is_nan x = false -> is_nan y = false -> (x <? y) = false -> fle y x.
Proof.
  rewrite !is_nan_spec. unfold fle. rewrite FloatAxioms.ltb_spec, FloatAxioms.leb_spec.
  unfold SFltb, SFleb. intros Hx Hy.
  destruct (SFcompare (Prim2SF x) (Prim2SF y)) as [c|] eqn:E.
  - rewrite (SFcompare_sym _ _ _ E). destruct c; simpl; auto; discriminate.
  - apply SFcompare_nan in E. destruct E; congruence.
Qed.

Lemma ltb_irrefl_fle x y : (x <? y) = true -> fle y x -> False.
Proof.
  unfold fle. rewrite FloatAxioms.ltb_spec, FloatAxioms.leb_spec. unfold SFltb, SFleb.
  destruct (SFcompare (Prim2SF x) (Prim2SF y)) as [c|] eqn:E; [|discriminate].
  rewrite (SFcompare_sym _ _ _ E). destruct c; simpl; discriminate.
Qed.

Lemma eqb_fle x y : (x =? y) = true <-> fle x y /\ fle y x.
Proof.
  unfold fle. rewrite FloatAxioms.eqb_spec, !leb_spec. unfold SFeqb, SFleb.
  destruct (SFcompare (Prim2SF x) (Prim2SF y)) as [c|] eqn:E.
  - rewrite (SFcompare_sym _ _ _ E). destruct c; simpl; intuition discriminate.
  - intuition discriminate.
Qed.

Lemma eqb_sym x y : (x =? y) = (y =? x).
Proof.
  rewrite !FloatAxioms.eqb_spec. unfold SFeqb.
  destruct (SFcompare (Prim2SF x) (Prim2SF y)) as [c|] eqn:E.
  - rewrite (SFcompare_sym _ _ _ E). destruct c; reflexivity.
  - destruct (SFcompare (Prim2SF y) (Prim2SF x)) as [c|] eqn:E'; [|reflexivity].
    apply SFcompare_sym in E'. congruence.
Qed.

(** [-inf] is below every number. *)
Lemma neg_infinity_fle x : is_nan x = false -> fle neg_infinity x.
Proof.
  rewrite is_nan_spec. unfold fle. rewrite FloatAxioms.leb_spec.
  change (Prim2SF neg_infinity) with (S754_infinity true).
  destruct (Prim2SF x) as [s|s| |s m e]; simpl; try discriminate; auto.
  destruct s; reflexivity.
Qed.

(** ... and only [-inf] is not above it. *)
Lemma neg_infinity_ltb_false x :
  is_nan x = false -> (neg_infinity <? x) = false -> fle x neg_infinity.
Proof.
  intros Hx H. apply ltb_false_fle; auto.
Qed.

End FloatOrder.

(* ================================================================== *)
(** * Python outcomes *)

(** The exceptions the modelled code can raise. *)
Inductive pyerr : Set :=
  | IndexError | KeyError | TypeError | AttributeError | ValueError.

(** The outcome of a Python expression: a value, or a raised exception. *)
Inductive py (A : Type) : Type :=
  | Ok (a : A)
  | Raise (e : pyerr).
Arguments Ok {A} a.
Arguments Raise {A} e.

Definition py_bind {A B} (c : py A) (k : A -> py B) : py B :=
  match c with
  | Ok a => k a
  | Raise e => Raise e
  end.

Notation "x <- c ;; k" := (py_bind c (fun x => k))
  (at level 100, c at next level, right associativity).

Lemma py_bind_ok {A B} (c : py A) (k : A -> py B) r :
  py_bind c k = Ok r -> exists a, c = Ok a /\ k a = Ok r.
Proof. destruct c as [a|e]; simpl; [eauto | discriminate]. Qed.

(** [bind_ok H as a E]: from [H : (x <- c ;; k) = Ok r] to [E : c = Ok a] and
    [H : k a = Ok r]. *)
Tactic Notation "bind_ok" hyp(H) "as" ident(a) ident(E) :=
  apply py_bind_ok in H as (a & E & H); cbv beta zeta in H.

Definition is_ok {A} (c : py A) : bool :=
  match c with Ok _ => true | Raise _ => false end.

(** [traverse f l]: the outcomes of [f] on the elements of [l], left to right,
    stopping at the first exception. *)
Fixpoint traverse {A B} (f : A -> py B) (l : list A) : py (list B) :=
  match l with
  | [] => Ok []
  | a :: l' => b <- f a ;; bs <- traverse f l' ;; Ok (b :: bs)
  end.

Lemma traverse_ok_length {A B} (f : A -> py B) l bs :
  traverse f l = Ok bs -> length bs = length l.
Proof.
  revert bs. induction l as [|a l IH]; simpl; intros bs H.
  - injection H as <-. reflexivity.
  - destruct (f a) as [b|e]; simpl in H; [|discriminate].
    destruct (traverse f l) as [bs'|e]; simpl in H; [|discriminate].
    injection H as <-. simpl. f_equal. apply IH. reflexivity.
Qed.

Lemma traverse_ok_lookup {A B} (f : A -> py B) l bs i a :
  traverse f l = Ok bs -> l !! i = Some a ->
  exists b, bs !! i = Some b /\ f a = Ok b.
Proof.
  revert bs i. induction l as [|a' l IH]; simpl; intros bs i H Hi.
  - discriminate.
  - destruct (f a') as [b|e] eqn:Ef; simpl in H; [|discriminate].
    destruct (traverse f l) as [bs'|e]; simpl in H; [|discriminate].
    injection H as <-. destruct i as [|i]; simpl in *.
    + injection Hi as <-. eauto.
    + eapply IH; eauto.
Qed.

Lemma traverse_ok_lookup_inv {A B} (f : A -> py B) l bs i b :
  traverse f l = Ok bs -> bs !! i = Some b ->
  exists a, l !! i = Some a /\ f a = Ok b.
Proof.
  intros H Hb.
  destruct (lookup_lt_is_Some_2 l i) as [a Ha].
  { rewrite <- (traverse_ok_length _ _ _ H). eapply lookup_lt_Some; eauto. }
  destruct (traverse_ok_lookup _ _ _ _ _ H Ha) as (b' & Hb' & E).
  exists a. split; [exact Ha | congruence].
Qed.

Lemma traverse_all_ok {A B} (f : A -> py B) (g : A -> B) l :
  (forall a, In a l -> f a = Ok (g a)) -> traverse f l = Ok (map g l).
Proof.
  induction l as [|a l IH]; simpl; intros H; [reflexivity|].
  rewrite (H a) by auto. simpl. rewrite IH by auto. reflexivity.
Qed.

(* ================================================================== *)
(** * utils.py *)

Module Utils.

Local Open Scope Z_scope.

(** The attributes set on the function object [set_default_nside]: Python
    keeps them in the function's [__dict__], a map from attribute name to value. *)
Abbreviation fn_attrs := (gmap string Z).

Definition getattr (name : string) (attrs : fn_attrs) : py Z :=
  match attrs !! name with
  | Some v => Ok v
  | None => Raise AttributeError
  end.

(** [set_default_nside(nside=None)]: the guard asks for the attribute [nside],
    the assignment and the return use the attribute [side]. *)
Definition set_default_nside (nside : option Z) (attrs : fn_attrs)
  : py Z * fn_attrs :=
  match attrs !! "nside"%string with
  | None =>
      let nside := match nside with None => 64 | Some n => n end in
      let attrs := <["side"%string := nside]> attrs in
      (getattr "side" attrs, attrs)
  | Some _ => (getattr "side" attrs, attrs)
  end.

(** A sequence of calls, each on the function object the previous one left. *)
Fixpoint calls (args : list (option Z)) (attrs : fn_attrs)
  : list (py Z) * fn_attrs :=
  match args with
  | [] => ([], attrs)
  | a :: args' =>
      let '(r, attrs') := set_default_nside a attrs in
      let '(rs, attrs'') := calls args' attrs' in
      (r :: rs, attrs'')
  end.

(** What a call returns when nothing is remembered: its argument, or 64. *)
Definition fresh_default (nside : option Z) : Z :=
  match nside with None => 64 | Some n => n end.

Lemma set_default_nside_unguarded nside attrs :
  attrs !! "nside"%string = None ->
  set_default_nside nside attrs
  = (Ok (fresh_default nside), <["side"%string := fresh_default nside]> attrs).
Proof.
  intros H. unfold set_default_nside, getattr. rewrite H. cbv zeta.
  rewrite lookup_insert_eq. reflexivity.
Qed.

Lemma calls_unguarded args : forall attrs,
  attrs !! "nside"%string = None ->
  (calls args attrs).1 = map (fun a => Ok (fresh_default a)) args.
Proof.
  induction args as [|a args IH]; intros attrs H; simpl; [reflexivity|].
  rewrite set_default_nside_unguarded by exact H.
  specialize (IH (<["side"%string := fresh_default a]> attrs)).
  destruct (calls args _) as [rs attrs'']. simpl in *.
  f_equal. apply IH. rewrite lookup_insert_ne by discriminate. exact H.
Qed.

Lemma calls_keep_unguarded args : forall attrs,
  attrs !! "nside"%string = None ->
  (calls args attrs).2 !! "nside"%string = None.
Proof.
  induction args as [|a args IH]; intros attrs H; simpl; [exact H|].
  rewrite set_default_nside_unguarded by exact H.
  specialize (IH (<["side"%string := fresh_default a]> attrs)).
  destruct (calls args _) as [rs attrs'']. simpl in *.
  apply IH. rewrite lookup_insert_ne by discriminate. exact H.
Qed.

(** ** The claim on [set_default_nside] *)

(** C10: [set_default_nside] never returns a previously stored default.  For
    every sequence of calls on the function object as the module defines it
    (no attribute set), each call returns the argument of that same call, or 64
    when the argument is [None]; the guarded attribute [nside] is never set, as
    the assignment goes to [side]; so after [set_default_nside(32)] a call
    without argument returns 64. *)
Theorem C10_set_default_nside_forgets :
  (forall args : list (option Z),
     (calls args ∅).1 = map (fun a => Ok (fresh_default a)) args /\
     (calls args ∅).2 !! "nside"%string = None) /\
  (calls [Some 32; None] ∅).1 = [Ok 32; Ok 64].
Proof.
  split.
  - intros args. split.
    + apply calls_unguarded. apply lookup_empty.
    + apply calls_keep_unguarded. apply lookup_empty.
  - reflexivity.
Qed.

End Utils.

(* ================================================================== *)
(** * numpy and healpy, as far as the scheduler uses them *)

Module NP.

Local Open Scope float_scope.

(** [hp.UNSEEN], the float64 nearest to -1.6375e+30. *)
Definition UNSEEN : float := -0x1.4ab0c40c8402cp+100.

(** [np.isinf]: true on both infinities. *)
Definition isinf (x : float) : bool := is_infinity x.

(** [hp.nside2npix]. *)
Definition nside2npix (nside : nat) : nat := 12 * nside * nside.

(** [np.zeros(n)]. *)
Definition zeros (n : nat) : list float := replicate n 0.

(** ** Indexing *)

(** [a[i]] for one index. *)
Definition getitem {A} (a : list A) (i : nat) : py A :=
  match a !! i with
  | Some x => Ok x
  | None => Raise IndexError
  end.

(** [a[idx]] for an index array: a new array, one element per index. *)
Definition take {A} (a : list A) (idx : list nat) : py (list A) :=
  traverse (getitem a) idx.

(** [a[i] = x]. *)
Definition setitem {A} (a : list A) (i : nat) (x : A) : py (list A) :=
  if decide (i < length a)%nat then Ok (<[i := x]> a) else Raise IndexError.

(** [a[idx] = vals] for an index array and as many values. *)
Fixpoint put {A} (a : list A) (idx : list nat) (vals : list A) : py (list A) :=
  match idx, vals with
  | [], [] => Ok a
  | i :: idx', v :: vals' => a' <- setitem a i v ;; put a' idx' vals'
  | _, _ => Raise ValueError
  end.

(** [a[idx] = x] for an index array and one value. *)
Definition put_scalar {A} (a : list A) (idx : list nat) (x : A) : py (list A) :=
  put a idx (replicate (length idx) x).

(** [np.where(b)[0]]: the positions at which [b] holds, ascending. *)
Fixpoint where_from (n : nat) (b : list bool) : list nat :=
  match b with
  | [] => []
  | x :: b' => if x then n :: where_from (S n) b' else where_from (S n) b'
  end.
Definition where_ (b : list bool) : list nat := where_from 0 b.

(** [a - b] on arrays of one shape. *)
Fixpoint sub_arrays (a b : list float) : py (list float) :=
  match a, b with
  | [], [] => Ok []
  | x :: a', y :: b' => r <- sub_arrays a' b' ;; Ok ((x - y) :: r)
  | _, _ => Raise ValueError
  end.

(** [np.unique] on integers: the distinct values, ascending. *)
Fixpoint insert_unique (x : Z) (l : list Z) : list Z :=
  match l with
  | [] => [x]
  | y :: l' =>
      if (x <? y)%Z then x :: y :: l'
      else if (x =? y)%Z then y :: l'
      else y :: insert_unique x l'
  end.
Definition unique (l : list Z) : list Z := foldr insert_unique [] l.

(** A Python list subscripted by an integer: a negative one counts from the end. *)
Definition list_getitem {A} (l : list A) (i : Z) : py A :=
  if (0 <=? i)%Z then getitem l (Z.to_nat i)
  else if (- Z.of_nat (length l) <=? i)%Z
       then getitem l (Z.to_nat (Z.of_nat (length l) + i))
       else Raise IndexError.

(** A dict subscripted by a key. *)
Definition dict_getitem {V} (d : gmap Z V) (k : Z) : py V :=
  match d !! k with
  | Some v => Ok v
  | None => Raise KeyError
  end.

(** ** Facts on indexing *)

Lemma elem_of_where_from b : forall n i,
  i ∈ where_from n b <-> exists k, i = (n + k)%nat /\ b !! k = Some true.
Proof.
  induction b as [|x b IH]; intros n i; simpl.
  - split; [intros H; inversion H | intros (k & _ & H); discriminate].
  - destruct x.
    + rewrite elem_of_cons, IH. split.
      * intros [->|(k & -> & H)]; [exists 0%nat | exists (S k)]; split; auto; lia.
      * intros ([|k] & -> & H); [left; lia | right; exists k; split; auto; lia].
    + rewrite IH. split.
      * intros (k & -> & H). exists (S k). split; auto; lia.
      * intros ([|k] & -> & H); [discriminate|]. exists k. split; auto; lia.
Qed.

Lemma elem_of_where b i : i ∈ where_ b <-> b !! i = Some true.
Proof.
  unfold where_. rewrite elem_of_where_from. split.
  - intros (k & -> & H). exact H.
  - intros H. exists i. auto.
Qed.

Lemma where_from_NoDup b : forall n, NoDup (where_from n b).
Proof.
  induction b as [|x b IH]; intros n; simpl; [constructor|].
  destruct x; [|apply IH]. constructor; [|apply IH].
  rewrite elem_of_where_from. intros (k & H & _). lia.
Qed.

Lemma where_NoDup b : NoDup (where_ b).
Proof. apply where_from_NoDup. Qed.

Lemma where_lt b i : i ∈ where_ b -> (i < length b)%nat.
Proof. rewrite elem_of_where. apply lookup_lt_Some. Qed.

Lemma take_ok {A} (a : list A) idx :
  (forall i, i ∈ idx -> (i < length a)%nat) ->
  exists vals, take a idx = Ok vals /\ length vals = length idx /\
    forall k i, idx !! k = Some i -> vals !! k = a !! i.
Proof.
  induction idx as [|i idx IH]; intros H.
  - exists []. repeat split; auto. intros k i Hk. discriminate.
  - destruct IH as (vals & E & L & P).
    { intros j Hj. apply H. now right. }
    destruct (lookup_lt_is_Some_2 a i) as [x Hx]; [apply H; now left|].
    exists (x :: vals). unfold take in *. simpl. unfold getitem at 1.
    rewrite Hx. simpl. rewrite E. simpl. repeat split; [simpl; lia|].
    intros [|k] j Hk; simpl in *; [injection Hk as <-; auto | eauto].
Qed.

Lemma take_ok_inv {A} (a : list A) idx vals :
  take a idx = Ok vals ->
  length vals = length idx /\
  forall k i, idx !! k = Some i -> vals !! k = a !! i /\ (i < length a)%nat.
Proof.
  intros H. split; [eapply traverse_ok_length; eauto|].
  intros k i Hk. destruct (traverse_ok_lookup _ _ _ _ _ H Hk) as (b & Hb & G).
  unfold getitem in G. destruct (a !! i) eqn:E; [|discriminate].
  injection G as ->. split; [congruence|]. eapply lookup_lt_Some; eauto.
Qed.

Lemma put_ok_inv {A} idx : forall (a : list A) vals a',
  put a idx vals = Ok a' ->
  length a' = length a /\ length vals = length idx /\
  (forall i, i ∈ idx -> (i < length a)%nat) /\
  (forall j, j ∉ idx -> a' !! j = a !! j) /\
  (NoDup idx -> forall k i, idx !! k = Some i -> a' !! i = vals !! k).
Proof.
  induction idx as [|i idx IH]; intros a vals a' H; destruct vals as [|v vals];
    simpl in H; try discriminate.
  - injection H as <-. repeat split; auto.
    + intros i Hi. inversion Hi.
    + intros _ k i Hk. discriminate.
  - unfold setitem in H. destruct (decide (i < length a)%nat) as [Hi|]; [|discriminate].
    simpl in H. apply IH in H as (L & Lv & B & Out & In_).
    rewrite length_insert in L, B.
    repeat split; auto.
    + simpl. lia.
    + intros j [->|Hj]%elem_of_cons; auto.
    + intros j Hj. rewrite Out by (intros ?; apply Hj; now right).
      apply list_lookup_insert_ne. intros ->. apply Hj. now left.
    + intros ND k j Hk. apply NoDup_cons in ND as [Hni ND].
      destruct k as [|k]; simpl in *.
      * injection Hk as <-. rewrite Out by exact Hni.
        apply list_lookup_insert_eq. exact Hi.
      * apply In_; auto.
Qed.

Lemma put_ok {A} idx : forall (a : list A) vals,
  length vals = length idx ->
  (forall i, i ∈ idx -> (i < length a)%nat) ->
  exists a', put a idx vals = Ok a'.
Proof.
  induction idx as [|i idx IH]; intros a vals L H; destruct vals as [|v vals];
    simpl in L; try discriminate.
  - eexists. reflexivity.
  - simpl. unfold setitem. destruct (decide (i < length a)%nat) as [Hi|Hn].
    + simpl. apply IH; [lia|]. intros j Hj. rewrite length_insert. apply H. now right.
    + exfalso. apply Hn, H. now left.
Qed.

Lemma put_scalar_ok_inv {A} (a : list A) idx x a' :
  put_scalar a idx x = Ok a' ->
  length a' = length a /\
  (forall j, j ∉ idx -> a' !! j = a !! j) /\
  (forall i, i ∈ idx -> a' !! i = Some x).
Proof.
  unfold put_scalar. revert a. induction idx as [|i idx IH]; intros a H; simpl in H.
  - injection H as <-. repeat split; auto. intros i Hi. inversion Hi.
  - unfold setitem in H. destruct (decide (i < length a)%nat) as [Hi|]; [|discriminate].
    simpl in H. apply IH in H as (L & Out & In_). rewrite length_insert in L.
    repeat split; auto.
    + intros j Hj. rewrite Out by (intros ?; apply Hj; now right).
      apply list_lookup_insert_ne. intros ->. apply Hj. now left.
    + intros j Hj. destruct (decide (j ∈ idx)) as [Hin|Hnin]; [auto|].
      apply elem_of_cons in Hj as [->|Hj]; [|contradiction].
      rewrite Out by exact Hnin. apply list_lookup_insert_eq. exact Hi.
Qed.

Lemma put_scalar_ok {A} (a : list A) idx x :
  (forall i, i ∈ idx -> (i < length a)%nat) ->
  exists a', put_scalar a idx x = Ok a'.
Proof. intros H. apply put_ok; [apply length_replicate | exact H]. Qed.

Lemma sub_arrays_ok a : forall b,
  length a = length b ->
  exists r, sub_arrays a b = Ok r /\ length r = length a /\
    forall k x y, a !! k = Some x -> b !! k = Some y -> r !! k = Some (x - y).
Proof.
  induction a as [|x a IH]; intros [|y b] L; simpl in L; try discriminate.
  - exists []. repeat split; auto. intros k x y H. discriminate.
  - destruct (IH b) as (r & E & Lr & P); [lia|].
    exists ((x - y) :: r). simpl. rewrite E. simpl. repeat split; [lia|].
    intros [|k] x' y' Hx Hy; simpl in *; [congruence | eauto].
Qed.

Lemma elem_of_insert_unique x l y :
  y ∈ insert_unique x l <-> y = x \/ y ∈ l.
Proof.
  induction l as [|z l IH]; simpl.
  - rewrite list_elem_of_singleton. split; [auto|]. intros [H|H]; [auto|inversion H].
  - destruct (Z.ltb_spec x z); [rewrite !elem_of_cons; tauto|].
    destruct (Z.eqb_spec x z) as [->|Hne].
    + rewrite !elem_of_cons. tauto.
    + rewrite !elem_of_cons, IH. tauto.
Qed.

Lemma elem_of_unique l y : y ∈ unique l <-> y ∈ l.
Proof.
  induction l as [|x l IH]; simpl; [reflexivity|].
  rewrite elem_of_insert_unique, elem_of_cons, IH. reflexivity.
Qed.

Lemma lookup_map {A B} (f : A -> B) (l : list A) i :
  map f l !! i = f <$> (l !! i).
Proof.
  revert i. induction l as [|x l IH]; intros [|i]; simpl; auto.
Qed.

Lemma take_seq_all {A} (a : list A) : take a (seq 0 (length a)) = Ok a.
Proof.
  destruct (take_ok a (seq 0 (length a))) as (vals & E & L & P).
  { intros i Hi. apply elem_of_seq in Hi. lia. }
  rewrite E. f_equal. rewrite length_seq in L.
  apply list_eq. intros k. destruct (decide (k < length a)%nat) as [Hk|Hk].
  - apply P. rewrite lookup_seq_lt by exact Hk. reflexivity.
  - rewrite !lookup_ge_None_2 by lia. reflexivity.
Qed.

Lemma take_where {A} (src : list A) b :
  (length b <= length src)%nat ->
  exists t, take src (where_ b) = Ok t /\ length t = length (where_ b) /\
    forall k i, where_ b !! k = Some i -> t !! k = src !! i.
Proof.
  intros L. apply take_ok. intros i Hi. apply where_lt in Hi. lia.
Qed.

Lemma put_where {A} (a : list A) b vals (h : nat -> option A) :
  (length b <= length a)%nat ->
  length vals = length (where_ b) ->
  (forall k i, where_ b !! k = Some i -> vals !! k = h i) ->
  exists a', put a (where_ b) vals = Ok a' /\ length a' = length a /\
    (forall i, b !! i = Some true -> a' !! i = h i) /\
    (forall i, b !! i <> Some true -> a' !! i = a !! i).
Proof.
  intros L Lv Hv.
  destruct (put_ok (where_ b) a vals Lv) as [a' E].
  { intros i Hi. apply where_lt in Hi. lia. }
  exists a'. split; [exact E|].
  apply put_ok_inv in E as (La & _ & _ & Out & In_).
  repeat split; auto.
  - intros i Hi. apply elem_of_where in Hi.
    apply list_elem_of_lookup in Hi as [k Hk].
    rewrite (In_ (where_NoDup b) k i Hk). apply Hv. exact Hk.
  - intros i Hi. apply Out. rewrite elem_of_where. exact Hi.
Qed.

Lemma put_seq_all {A} (a vals : list A) :
  length vals = length a -> put a (seq 0 (length a)) vals = Ok vals.
Proof.
  intros L. destruct (put_ok (seq 0 (length a)) a vals) as [a' E].
  { rewrite length_seq. exact L. }
  { intros i Hi. apply elem_of_seq in Hi. lia. }
  rewrite E. f_equal.
  apply put_ok_inv in E as (La & _ & _ & _ & In_).
  apply list_eq. intros k. destruct (decide (k < length a)%nat) as [Hk|Hk].
  - apply (In_ (NoDup_seq 0 (length a)) k k). rewrite lookup_seq_lt by exact Hk.
    reflexivity.
  - rewrite !lookup_ge_None_2 by lia. reflexivity.
Qed.

(** [np.unique] on field numbers. *)
Fixpoint insert_unique_nat (x : nat) (l : list nat) : list nat :=
  match l with
  | [] => [x]
  | y :: l' =>
      if (x <? y)%nat then x :: y :: l'
      else if (x =? y)%nat then y :: l'
      else y :: insert_unique_nat x l'
  end.
Definition unique_nat (l : list nat) : list nat := foldr insert_unique_nat [] l.

(** [a[b]] for a boolean array [b]: the values of [a] where [b] holds. *)
Fixpoint compress {A} (b : list bool) (a : list A) : list A :=
  match b, a with
  | x :: b', y :: a' => if x then y :: compress b' a' else compress b' a'
  | _, _ => []
  end.

(** [np.isin(a, test)]. *)
Definition isin (a test : list nat) : list bool :=
  map (fun x => bool_decide (x ∈ test)) a.

Lemma elem_of_insert_unique_nat x l y :
  y ∈ insert_unique_nat x l <-> y = x \/ y ∈ l.
Proof.
  induction l as [|z l IH]; simpl.
  - rewrite list_elem_of_singleton. split; [auto|]. intros [H|H]; [auto|inversion H].
  - destruct (Nat.ltb_spec x z); [rewrite !elem_of_cons; tauto|].
    destruct (Nat.eqb_spec x z) as [->|Hne].
    + rewrite !elem_of_cons. tauto.
    + rewrite !elem_of_cons, IH. tauto.
Qed.

Lemma elem_of_unique_nat l y : y ∈ unique_nat l <-> y ∈ l.
Proof.
  induction l as [|x l IH]; simpl; [reflexivity|].
  rewrite elem_of_insert_unique_nat, elem_of_cons, IH. reflexivity.
Qed.

Lemma elem_of_compress {A} (b : list bool) : forall (a : list A) x,
  x ∈ compress b a <-> exists i, b !! i = Some true /\ a !! i = Some x.
Proof.
  induction b as [|y b IH]; intros [|z a] x; simpl.
  - split; [intros H; inversion H | intros (i & H & _); discriminate].
  - split; [intros H; inversion H | intros (i & H & _); discriminate].
  - split; [intros H; inversion H | intros (i & _ & H); destruct i; discriminate].
  - destruct y.
    + rewrite elem_of_cons, IH. split.
      * intros [->|(i & H1 & H2)]; [exists 0%nat | exists (S i)]; auto.
      * intros ([|i] & H1 & H2); simpl in *; [left; congruence | right; eauto].
    + rewrite IH. split.
      * intros (i & H1 & H2). exists (S i). auto.
      * intros ([|i] & H1 & H2); simpl in *; [discriminate | eauto].
Qed.

Lemma compress_lookup_pair {A B} (b : list bool) :
  forall (a : list A) (a' : list B) i x y,
  compress b a !! i = Some x -> compress b a' !! i = Some y ->
  exists c, b !! c = Some true /\ a !! c = Some x /\ a' !! c = Some y.
Proof.
  induction b as [|z b IH]; intros [|u a] [|u' a'] i x y Hx Hy; simpl in *;
    try discriminate; try (destruct z; discriminate).
  destruct z.
  - destruct i as [|i]; simpl in *.
    + exists 0%nat. simpl. repeat split; congruence.
    + destruct (IH a a' i x y Hx Hy) as (c & ? & ? & ?). exists (S c). auto.
  - destruct (IH a a' i x y Hx Hy) as (c & ? & ? & ?). exists (S c). auto.
Qed.

End NP.


(* ================================================================== *)
(** * numpy: sorting and reductions *)

Module NPSort.

Import FloatOrder NP.
Local Open Scope float_scope.

(** The order numpy sorts float64 by: the numeric one, with NaN after every
    number. *)
Definition np_lt (x y : float) : bool :=
  (x <? y) || (negb (is_nan x) && is_nan y).

(** The key of position [i] in the array [a]. *)
Definition key (a : list float) (i : nat) : float :=
  match a !! i with Some x => x | None => nan end.

(** [np.argsort(a)] as numpy's default sort runs on a short array (one of at
    most 16 values): an insertion sort, which keeps equal values in the order
    of their positions.  On a longer array the default sort is not stable;
    what every kind of sort gives is [ascending], below, and the theorems
    that bear on the order of the result take the sort as a parameter. *)
Fixpoint insert_sorted (a : list float) (i : nat) (l : list nat) : list nat :=
  match l with
  | [] => [i]
  | j :: l' =>
      if np_lt (key a j) (key a i) then j :: insert_sorted a i l'
      else i :: j :: l'
  end.

Definition argsort (a : list float) : list nat :=
  foldr (insert_sorted a) [] (seq 0 (length a)).

(** [np.max(a)]: the largest value, NaN if there is one; an empty array has none. *)
Definition maximum (x y : float) : float :=
  if is_nan x then x else if is_nan y then y else if x <? y then y else x.

Definition np_max (a : list float) : py float :=
  match a with
  | [] => Raise ValueError
  | x :: a' => Ok (fold_left maximum a' x)
  end.

(** [np.sum(a)], summed from the left.  numpy adds the values in another
    order (in pairs of blocks), which can round differently; the two agree
    where every partial sum is exact, as on the small integers of the
    examples.  The theorems that bear on the sum take it as a parameter. *)
Definition np_sum (a : list float) : float := fold_left add a 0.

(** ** The sort order *)

Lemma ltb_nan_l x y : is_nan x = true -> (x <? y) = false.
Proof.
  intros H. destruct (x <? y) eqn:E; [|reflexivity].
  apply ltb_fle, fle_not_nan in E. destruct E. congruence.
Qed.

Lemma ltb_nan_r x y : is_nan y = true -> (x <? y) = false.
Proof.
  intros H. destruct (x <? y) eqn:E; [|reflexivity].
  apply ltb_fle, fle_not_nan in E. destruct E. congruence.
Qed.

(** [x] is not before [y] in the order: [x] is NaN, or both are numbers and
    [y <= x]. *)
Lemma np_lt_false x y :
  np_lt x y = false <->
  is_nan x = true \/ (is_nan x = false /\ is_nan y = false /\ fle y x).
Proof.
  unfold np_lt. destruct (is_nan x) eqn:Ex; simpl.
  - rewrite (ltb_nan_l x y Ex). simpl. tauto.
  - destruct (is_nan y) eqn:Ey; simpl.
    + rewrite orb_true_r. split; [discriminate|]. intros [?|(_ & ? & _)]; discriminate.
    + rewrite orb_false_r. split.
      * intros H. right. repeat split. apply ltb_false_fle; assumption.
      * intros [?|(_ & _ & H)]; [discriminate|].
        destruct (x <? y) eqn:E; [|reflexivity].
        exfalso. eapply ltb_irrefl_fle; eauto.
Qed.

Lemma np_lt_asym x y : np_lt x y = true -> np_lt y x = false.
Proof.
  intros H. apply np_lt_false.
  destruct (is_nan y) eqn:Ey; [now left|right].
  unfold np_lt in H. rewrite Ey, andb_false_r, orb_false_r in H.
  pose proof (ltb_fle _ _ H) as L. destruct (fle_not_nan _ _ L). auto.
Qed.

Lemma np_lt_false_trans x y z :
  np_lt x y = false -> np_lt y z = false -> np_lt x z = false.
Proof.
  rewrite !np_lt_false.
  intros [Hx|(Hx & Hy & Hxy)] [Hy'|(_ & Hz & Hyz)]; auto; try congruence.
  right. repeat split; auto. eapply fle_trans; eauto.
Qed.

Lemma np_lt_irrefl x : np_lt x x = false.
Proof.
  apply np_lt_false. destruct (is_nan x) eqn:E; [now left|right].
  repeat split. apply fle_refl. exact E.
Qed.


(** ** [argsort] *)

(** [before a i j]: position [i] comes before position [j] in ascending order
    of the values, positions of equal values in their own order. *)
Definition before (a : list float) (i j : nat) : Prop :=
  np_lt (key a j) (key a i) = false /\
  (np_lt (key a i) (key a j) = true \/ (i < j)%nat).

Lemma insert_sorted_perm a i l : insert_sorted a i l ≡ₚ i :: l.
Proof.
  induction l as [|j l IH]; simpl; [reflexivity|].
  destruct (np_lt (key a j) (key a i)); [|reflexivity].
  rewrite IH. apply Permutation_swap.
Qed.

Lemma argsort_perm a : argsort a ≡ₚ seq 0 (length a).
Proof.
  unfold argsort. induction (seq 0 (length a)) as [|i l IH]; simpl; [reflexivity|].
  rewrite insert_sorted_perm, IH. reflexivity.
Qed.

Lemma insert_sorted_sorted a i l :
  Forall (fun j => (i < j)%nat) l ->
  StronglySorted (before a) l ->
  StronglySorted (before a) (insert_sorted a i l).
Proof.
  induction l as [|j l IH]; intros Hgt Hs; simpl.
  - repeat constructor.
  - apply Forall_cons in Hgt as [Hij Hgt].
    apply StronglySorted_inv in Hs as [Hs Hj].
    destruct (np_lt (key a j) (key a i)) eqn:E.
    + constructor; [apply IH; assumption|].
      rewrite insert_sorted_perm. constructor; [|exact Hj].
      split; [apply np_lt_asym; exact E | now left].
    + constructor; [constructor; assumption|].
      constructor; [split; [exact E | now right]|].
      rewrite Forall_forall in Hj, Hgt |- *. intros k Hk.
      destruct (Hj k Hk) as [Hkj _]. split.
      * eapply np_lt_false_trans; eauto.
      * right. apply Hgt. exact Hk.
Qed.

Lemma argsort_sorted a : StronglySorted (before a) (argsort a).
Proof.
  unfold argsort. generalize 0%nat as n.
  induction (length a) as [|m IH]; intros n; simpl; [constructor|].
  apply insert_sorted_sorted; [|apply IH].
  rewrite (Forall_forall (fun j => (n < j)%nat)). intros j Hj.
  assert (Hj' : j ∈ seq (S n) m).
  { revert Hj. generalize (seq (S n) m). intros l.
    induction l as [|x l IHl]; simpl; [auto|].
    rewrite insert_sorted_perm. rewrite !elem_of_cons. tauto. }
  apply elem_of_seq in Hj'. lia.
Qed.

(** ** Sorted lists, reversed and cut *)

Lemma StronglySorted_lookup {A} (R : A -> A -> Prop) l :
  StronglySorted R l ->
  forall p q x y, (p < q)%nat -> l !! p = Some x -> l !! q = Some y -> R x y.
Proof.
  induction 1 as [|a l Hs IH Ha]; intros p q x y Hpq Hp Hq; [discriminate|].
  destruct q as [|q]; [lia|]. simpl in Hq. destruct p as [|p]; simpl in Hp.
  - injection Hp as <-. rewrite Forall_forall in Ha. apply Ha.
    apply list_elem_of_lookup. eauto.
  - apply (IH p q); auto. lia.
Qed.

Lemma StronglySorted_reverse {A} (R : A -> A -> Prop) l :
  StronglySorted R l -> StronglySorted (flip R) (reverse l).
Proof.
  induction 1 as [|a l Hs IH Ha]; [constructor|].
  rewrite reverse_cons. apply StronglySorted_app_2; [|exact IH|repeat constructor].
  intros x y Hx Hy. apply list_elem_of_singleton in Hy as ->.
  rewrite elem_of_reverse in Hx. rewrite Forall_forall in Ha. apply Ha. exact Hx.
Qed.

Lemma StronglySorted_firstn {A} (R : A -> A -> Prop) n l :
  StronglySorted R l -> StronglySorted R (firstn n l).
Proof.
  intros H. rewrite <- (firstn_skipn n l) in H.
  eapply StronglySorted_app_1_l. exact H.
Qed.

(** [np.argsort(a)[::-1][0:n]]: the positions of the [n] largest values, the
    largest first. *)
Definition top (n : nat) (a : list float) : list nat :=
  firstn n (reverse (argsort a)).

Lemma top_length n a : length (top n a) = Nat.min n (length a).
Proof.
  unfold top. rewrite length_firstn, length_reverse.
  rewrite (Permutation_length (argsort_perm a)), length_seq. reflexivity.
Qed.

Lemma top_NoDup n a : NoDup (top n a).
Proof.
  unfold top. eapply sublist_NoDup; [|apply sublist_take].
  rewrite reverse_Permutation, argsort_perm. apply NoDup_seq.
Qed.

Lemma elem_of_top n a i : i ∈ top n a -> (i < length a)%nat.
Proof.
  unfold top. intros H. apply elem_of_take in H as (k & H & _).
  assert (Hi : i ∈ reverse (argsort a)) by (apply list_elem_of_lookup; eauto).
  rewrite elem_of_reverse in Hi. rewrite argsort_perm in Hi.
  apply elem_of_seq in Hi. lia.
Qed.

(** Later positions of [top] hold no larger value, and of two equal values the
    one at the higher position of [a] comes first. *)
Lemma top_descending n a p q i j :
  (p < q)%nat -> top n a !! p = Some i -> top n a !! q = Some j ->
  np_lt (key a i) (key a j) = false /\
  (np_lt (key a j) (key a i) = false -> (j < i)%nat).
Proof.
  intros Hpq Hp Hq.
  assert (S : StronglySorted (flip (before a)) (top n a)).
  { apply StronglySorted_firstn, StronglySorted_reverse, argsort_sorted. }
  destruct (StronglySorted_lookup _ _ S p q i j Hpq Hp Hq) as [H1 H2].
  split; [exact H1|]. intros E. destruct H2 as [H2|H2]; [congruence | exact H2].
Qed.

(** The first position of [top] holds a largest value of [a]. *)
Lemma top_first_max n a i f :
  top n a !! 0%nat = Some i -> (f < length a)%nat ->
  np_lt (key a i) (key a f) = false.
Proof.
  unfold top. intros Hi Hf.
  apply lookup_take_Some in Hi as [Hi _].
  assert (Hin : f ∈ reverse (argsort a)).
  { rewrite elem_of_reverse, argsort_perm. apply elem_of_seq. lia. }
  apply list_elem_of_lookup in Hin as [q Hq].
  destruct q as [|q].
  - assert (f = i) by congruence. subst. apply np_lt_irrefl.
  - assert (S : StronglySorted (flip (before a)) (reverse (argsort a)))
      by (apply StronglySorted_reverse, argsort_sorted).
    destruct (StronglySorted_lookup _ _ S 0%nat (Datatypes.S q) i f) as [H _];
      auto; lia.
Qed.

(** ** The largest value and its first position *)






(** ** Any sort *)

(** What [np.argsort] returns whatever the kind of sort: every position of
    [a] once, the values ascending, NaN last.  The order of positions that
    hold equal values is left open. *)
Definition ascending (a : list float) (order : list nat) : Prop :=
  order ≡ₚ seq 0 (length a) /\
  StronglySorted (fun i j => np_lt (key a j) (key a i) = false) order.

Definition sorts (sort : list float -> list nat) : Prop :=
  forall a, ascending a (sort a).

(** A sort is stable on [a] when positions of equal value keep their order. *)
Definition stable_on (a : list float) (order : list nat) : Prop :=
  StronglySorted (before a) order.

Lemma StronglySorted_weaken {A} (R R' : A -> A -> Prop) l :
  (forall x y, R x y -> R' x y) -> StronglySorted R l -> StronglySorted R' l.
Proof.
  intros H. induction 1 as [|x l Hl IH Hx]; constructor; [exact IH|].
  eapply Forall_impl; [exact Hx|]. intros y Hy. apply H. exact Hy.
Qed.

Lemma argsort_sorts : sorts argsort.
Proof.
  intros a. split; [apply argsort_perm|].
  eapply StronglySorted_weaken; [|apply argsort_sorted].
  intros i j [H _]. exact H.
Qed.

Lemma argsort_stable a : stable_on a (argsort a).
Proof. apply argsort_sorted. Qed.

(** [order[::-1][0:n]] for an ascending [order]: the positions of the [n]
    largest values, the largest first. *)
Section Largest.

Variables (a : list float) (order : list nat) (n : nat).
Hypothesis Hasc : ascending a order.

Lemma largest_length : length (firstn n (reverse order)) = Nat.min n (length a).
Proof.
  rewrite length_firstn, length_reverse.
  rewrite (Permutation_length (proj1 Hasc)), length_seq. reflexivity.
Qed.

Lemma largest_NoDup : NoDup (firstn n (reverse order)).
Proof.
  eapply sublist_NoDup; [|apply sublist_take].
  rewrite reverse_Permutation, (proj1 Hasc). apply NoDup_seq.
Qed.

Lemma elem_of_largest i : i ∈ firstn n (reverse order) -> (i < length a)%nat.
Proof.
  intros H. apply elem_of_take in H as (k & H & _).
  assert (Hi : i ∈ reverse order) by (apply list_elem_of_lookup; eauto).
  rewrite elem_of_reverse, (proj1 Hasc) in Hi.
  apply elem_of_seq in Hi. lia.
Qed.

Lemma largest_descending p q i j :
  (p < q)%nat ->
  firstn n (reverse order) !! p = Some i ->
  firstn n (reverse order) !! q = Some j ->
  np_lt (key a i) (key a j) = false.
Proof.
  intros Hpq Hp Hq.
  assert (S : StronglySorted (flip (fun i j => np_lt (key a j) (key a i) = false))
                (firstn n (reverse order))).
  { apply StronglySorted_firstn, StronglySorted_reverse, (proj2 Hasc). }
  exact (StronglySorted_lookup _ _ S p q i j Hpq Hp Hq).
Qed.

(** No position left out holds a larger value than one that is taken. *)
Lemma largest_best i f :
  i ∈ firstn n (reverse order) -> (f < length a)%nat ->
  f ∉ firstn n (reverse order) ->
  np_lt (key a i) (key a f) = false.
Proof.
  intros Hi Hf Hout.
  assert (Hin : f ∈ reverse order).
  { rewrite elem_of_reverse, (proj1 Hasc). apply elem_of_seq. lia. }
  rewrite <- (firstn_skipn n (reverse order)) in Hin.
  apply elem_of_app in Hin as [Hin|Hin]; [contradiction|].
  assert (S : StronglySorted (flip (fun i j => np_lt (key a j) (key a i) = false))
                (firstn n (reverse order) ++ skipn n (reverse order))).
  { rewrite firstn_skipn. apply StronglySorted_reverse, (proj2 Hasc). }
  exact (StronglySorted_app_1_elem_of _ _ _ i f S Hi Hin).
Qed.

Lemma largest_first_max i f :
  firstn n (reverse order) !! 0%nat = Some i -> (f < length a)%nat ->
  np_lt (key a i) (key a f) = false.
Proof.
  intros Hi Hf. destruct (decide (f ∈ (firstn n (reverse order)))) as [Hin|Hout].
  - apply list_elem_of_lookup in Hin as [q Hq]. destruct q as [|q].
    + assert (f = i) by congruence. subst. apply np_lt_irrefl.
    + apply (largest_descending 0 (S q)); auto. lia.
  - apply largest_best; auto. apply list_elem_of_lookup. eauto.
Qed.

(** With a stable sort, of two equal values the one at the higher position
    of [a] comes first. *)
Lemma largest_ties p q i j :
  stable_on a order ->
  (p < q)%nat ->
  firstn n (reverse order) !! p = Some i ->
  firstn n (reverse order) !! q = Some j ->
  np_lt (key a j) (key a i) = false -> (j < i)%nat.
Proof.
  intros Hst Hpq Hp Hq E.
  assert (S : StronglySorted (flip (before a)) (firstn n (reverse order))).
  { apply StronglySorted_firstn, StronglySorted_reverse, Hst. }
  destruct (StronglySorted_lookup _ _ S p q i j Hpq Hp Hq) as [_ [H|H]];
    [congruence | exact H].
Qed.

End Largest.

End NPSort.

(* ================================================================== *)
(** * basis_functions/rolling_funcs.py *)

Module RollingFuncs.

Import NP.
Local Open Scope float_scope.

(** The part of the conditions object that [_calc_value] reads. *)
Record Conditions : Type := { night : Z }.

(** [Target_map_modulo_basis_function].  The dict [survey_features] has the
    keys ['N_obs_%i' % season] (a per-cell count, [.feature] an array) and
    ['N_obs_count_all_%i' % season] (a count over the whole sky, [.feature] a
    number): each family is a map from the season number in the key. *)
Record Target_map_modulo_basis_function : Type := {
  nside : nat;
  norm_factor : float;
  N_obs : gmap Z (list float);
  N_obs_count_all : gmap Z float;
  target_maps : list (list float);
  out_of_bounds_area : list nat;
  out_of_bounds_val : float;
  result : list float;
  all_indx : list nat;
  day_offset : list float;
  season_modulo : Z;
  max_season : option Z
}.

(** The features [__init__] registers: one pair per target map but the last,
    under its position, and one pair under -1.  A new feature has counted nothing. *)
Definition init_features {V} (v : V) (n_maps : nat) : gmap Z V :=
  <[(-1)%Z := v]>
    (foldr (fun i m => <[Z.of_nat i := v]> m) ∅ (seq 0 (n_maps - 1))).

(** [__init__].  [nside] is the resolution the base class settled on; an
    omitted keyword argument is [None]. *)
Definition init (day_offset : option (list float)) (nside : nat)
    (target_maps : list (list float)) (norm_factor : option float)
    (out_of_bounds_val : option float) (season_modulo : option Z)
    (max_season : option Z) : py Target_map_modulo_basis_function :=
  let npix := nside2npix nside in
  first_map <- getitem target_maps 0 ;;
  Ok {| nside := nside;
        norm_factor := match norm_factor with
                       | None => 0x1.b932e7080c68fp-14 (* 0.00010519 *)
                       | Some f => f
                       end;
        N_obs := init_features (zeros npix) (length target_maps);
        N_obs_count_all := init_features 0 (length target_maps);
        target_maps := target_maps;
        out_of_bounds_area := where_ (map (fun t => t =? 0) first_map);
        out_of_bounds_val := match out_of_bounds_val with
                             | None => -10
                             | Some v => v
                             end;
        result := zeros npix;
        all_indx := seq 0 npix;
        day_offset := match day_offset with
                      | None => zeros npix
                      | Some d => d
                      end;
        season_modulo := match season_modulo with
                         | None => 2%Z
                         | Some m => m
                         end;
        max_season := max_season |}.

Section Calc_value.

(** [utils.season_calc(night, offset=, modulo=, max_season=)]: the season of
    every cell.  Its code is not part of the sources at hand. *)
Variable season_calc : Z -> list float -> Z -> option Z -> list Z.

(** The three composite arrays the loop of [_calc_value] fills. *)
Record composites : Type := {
  composite_target : list float;
  composite_nobs : list float;
  composite_goal_N : list float
}.

(** One turn of [for season in np.unique(seasons)]. *)
Definition season_step (bf : Target_map_modulo_basis_function)
    (seasons : list Z) (season : Z) (c : composites) : py composites :=
  let season_indx := where_ (map (Z.eqb season) seasons) in
  tm <- list_getitem (target_maps bf) season ;;
  v <- take tm season_indx ;;
  ct <- put (composite_target c) season_indx v ;;
  f <- dict_getitem (N_obs bf) season ;;
  v <- take f season_indx ;;
  cn <- put (composite_nobs c) season_indx v ;;
  t <- take ct season_indx ;;
  cnt <- dict_getitem (N_obs_count_all bf) season ;;
  cg <- put (composite_goal_N c) season_indx
          (map (fun x => x * cnt * norm_factor bf) t) ;;
  Ok {| composite_target := ct; composite_nobs := cn; composite_goal_N := cg |}.

Fixpoint season_loop (bf : Target_map_modulo_basis_function)
    (seasons : list Z) (todo : list Z) (c : composites) : py composites :=
  match todo with
  | [] => Ok c
  | season :: todo' =>
      c' <- season_step bf seasons season c ;;
      season_loop bf seasons todo' c'
  end.

(** [_calc_value(conditions, indx=None)]. *)
Definition _calc_value (bf : Target_map_modulo_basis_function)
    (conditions : Conditions) (indx : option (list nat)) : py (list float) :=
  let result0 := result bf in
  let indx := match indx with None => all_indx bf | Some l => l end in
  let seasons := season_calc (night conditions) (day_offset bf)
                             (season_modulo bf) (max_season bf) in
  ct <- take (result bf) indx ;;
  cn <- take (result bf) indx ;;
  _ <- take (result bf) indx ;;
  cg <- take (result bf) indx ;;
  c <- season_loop bf seasons (unique seasons)
         {| composite_target := ct; composite_nobs := cn; composite_goal_N := cg |} ;;
  cn' <- take (composite_nobs c) indx ;;
  d <- sub_arrays (composite_goal_N c) cn' ;;
  r <- put result0 indx d ;;
  put_scalar r (out_of_bounds_area bf) (out_of_bounds_val bf).

End Calc_value.

(** A [season_calc] for the examples: a cap that leaves every cell in the
    last season, -1. *)
Definition season_calc_capped (night : Z) (offset : list float)
    (modulo : Z) (max_season : option Z) : list Z :=
  map (fun _ => (-1)%Z) offset.

(** The state of the features after the observation callbacks have counted:
    [count_all] observations over the whole sky and [n_obs] per cell in [season]. *)
Definition with_counts (bf : Target_map_modulo_basis_function) (season : Z)
    (count_all : float) (n_obs : list float) : Target_map_modulo_basis_function :=
  {| nside := nside bf;
     norm_factor := norm_factor bf;
     N_obs := <[season := n_obs]> (N_obs bf);
     N_obs_count_all := <[season := count_all]> (N_obs_count_all bf);
     target_maps := target_maps bf;
     out_of_bounds_area := out_of_bounds_area bf;
     out_of_bounds_val := out_of_bounds_val bf;
     result := result bf;
     all_indx := all_indx bf;
     day_offset := day_offset bf;
     season_modulo := season_modulo bf;
     max_season := max_season bf |}.

(** ** The full map *)

(** What the target-deficit formula gives at cell [i]: the target fraction of
    the cell's season, times the count over the whole sky in that season, times
    [norm_factor], minus the count at the cell in that season. *)
Definition deficit (bf : Target_map_modulo_basis_function) (seasons : list Z)
    (i : nat) : option float :=
  match seasons !! i with
  | None => None
  | Some s =>
      match list_getitem (target_maps bf) s, N_obs bf !! s, N_obs_count_all bf !! s with
      | Ok tm, Some f, Some cnt =>
          match tm !! i, f !! i with
          | Some t, Some n => Some (t * cnt * norm_factor bf - n)
          | _, _ => None
          end
      | _, _, _ => None
      end
  end.

(** Every season in [todo] has a target map and both features, of size [n]. *)
Definition seasons_known (bf : Target_map_modulo_basis_function) (n : nat)
    (todo : list Z) : Prop :=
  forall s, s ∈ todo ->
    exists tm f cnt,
      list_getitem (target_maps bf) s = Ok tm /\ length tm = n /\
      N_obs bf !! s = Some f /\ length f = n /\
      N_obs_count_all bf !! s = Some cnt.

(** A basis function whose arrays have the size of the map and that has a
    target map and both features for every season that occurs. *)
Record well_formed (bf : Target_map_modulo_basis_function) (seasons : list Z)
  : Prop := {
  wf_all_indx : all_indx bf = seq 0 (length (result bf));
  wf_seasons : length seasons = length (result bf);
  wf_season : seasons_known bf (length (result bf)) seasons;
  wf_out_of_bounds : forall i, i ∈ out_of_bounds_area bf ->
    (i < length (result bf))%nat
}.

Lemma season_positions (seasons : list Z) s i :
  map (Z.eqb s) seasons !! i = Some true <-> seasons !! i = Some s.
Proof.
  rewrite lookup_map. destruct (seasons !! i) as [s'|]; simpl.
  - split; intros [= H].
    + apply Z.eqb_eq in H. congruence.
    + subst. rewrite Z.eqb_refl. reflexivity.
  - split; discriminate.
Qed.

(** The composites have the size [n]. *)
Definition sized (n : nat) (c : composites) : Prop :=
  length (composite_target c) = n /\ length (composite_nobs c) = n /\
  length (composite_goal_N c) = n.

(** The composites hold the values of season [s] at cell [i]. *)
Definition filled_at (bf : Target_map_modulo_basis_function) (s : Z)
    (c : composites) (i : nat) : Prop :=
  forall tm f cnt,
    list_getitem (target_maps bf) s = Ok tm ->
    N_obs bf !! s = Some f -> N_obs_count_all bf !! s = Some cnt ->
    composite_nobs c !! i = f !! i /\
    composite_goal_N c !! i = (fun x => x * cnt * norm_factor bf) <$> tm !! i.

Definition same_at (c c' : composites) (i : nat) : Prop :=
  composite_target c' !! i = composite_target c !! i /\
  composite_nobs c' !! i = composite_nobs c !! i /\
  composite_goal_N c' !! i = composite_goal_N c !! i.

(** One turn of the loop writes the cells of its season and no other. *)
Lemma season_step_ok bf seasons s c n :
  length seasons = n -> sized n c -> seasons_known bf n [s] ->
  exists c', season_step bf seasons s c = Ok c' /\ sized n c' /\
    (forall i, seasons !! i = Some s -> filled_at bf s c' i) /\
    (forall i, seasons !! i <> Some s -> same_at c c' i).
Proof.
  intros Ls (Lt & Ln & Lg) Hk.
  destruct (Hk s) as (tm & f & cnt & Htm & Ltm & Hf & Lf & Hcnt); [now left|].
  set (b := map (Z.eqb s) seasons).
  assert (Lb : length b = n) by (unfold b; rewrite length_map; exact Ls).
  unfold season_step. fold b. rewrite Htm. simpl.
  destruct (take_where tm b) as (v1 & E1 & L1 & P1); [lia|]. rewrite E1. simpl.
  destruct (put_where (composite_target c) b v1 (fun i => tm !! i))
    as (ct & E2 & L2 & In2 & Out2); [lia | exact L1 | exact P1 |].
  rewrite E2. simpl. unfold dict_getitem. rewrite Hf. simpl.
  destruct (take_where f b) as (v2 & E3 & L3 & P3); [lia|]. rewrite E3. simpl.
  destruct (put_where (composite_nobs c) b v2 (fun i => f !! i))
    as (cn & E4 & L4 & In4 & Out4); [lia | exact L3 | exact P3 |].
  rewrite E4. simpl.
  destruct (take_where ct b) as (t & E5 & L5 & P5); [lia|]. rewrite E5. simpl.
  rewrite Hcnt. simpl.
  set (g := fun x => x * cnt * norm_factor bf).
  destruct (put_where (composite_goal_N c) b (map g t) (fun i => g <$> tm !! i))
    as (cg & E6 & L6 & In6 & Out6).
  { lia. }
  { rewrite length_map. exact L5. }
  { intros k i Hki. rewrite lookup_map, (P5 k i Hki). f_equal.
    apply In2. apply elem_of_where. apply list_elem_of_lookup. eauto. }
  rewrite E6. simpl. eexists. split; [reflexivity|].
  split; [unfold sized; simpl; lia|]. split.
  - intros i Hi tm' f' cnt' Htm' Hf' Hcnt'. simpl.
    assert (tm' = tm) by congruence. assert (f' = f) by congruence.
    assert (cnt' = cnt) by congruence. subst.
    apply season_positions in Hi. split; [apply In4 | apply In6]; exact Hi.
  - intros i Hi. rewrite <- season_positions in Hi. unfold same_at. simpl.
    repeat split; [apply Out2 | apply Out4 | apply Out6]; exact Hi.
Qed.

Lemma filled_at_same bf s c c' i :
  filled_at bf s c i -> same_at c c' i -> filled_at bf s c' i.
Proof.
  intros F (_ & Hn & Hg) tm f cnt Htm Hf Hcnt.
  rewrite Hn, Hg. apply F; assumption.
Qed.

(** The loop leaves, at every cell whose season it went through, the values
    of that season, and the other cells as they were. *)
Lemma season_loop_ok bf seasons n : forall todo c,
  length seasons = n -> sized n c -> seasons_known bf n todo ->
  exists c', season_loop bf seasons todo c = Ok c' /\ sized n c' /\
    (forall i s, seasons !! i = Some s -> s ∈ todo -> filled_at bf s c' i) /\
    (forall i, (forall s, seasons !! i = Some s -> s ∉ todo) -> same_at c c' i).
Proof.
  induction todo as [|s todo IH]; intros c Ls Hc Hk; simpl.
  - exists c. split; [reflexivity|]. split; [exact Hc|]. split.
    + intros i s _ Hs. inversion Hs.
    + intros i _. repeat split.
  - destruct (season_step_ok bf seasons s c n) as (c1 & E1 & Hc1 & In1 & Out1); auto.
    { intros s' Hs'. apply list_elem_of_singleton in Hs' as ->. apply Hk. now left. }
    rewrite E1. simpl.
    destruct (IH c1) as (c' & E' & Hc' & In' & Out'); auto.
    { intros s' Hs'. apply Hk. now right. }
    exists c'. split; [exact E'|]. split; [exact Hc'|]. split.
    + intros i s' Hi Hs'. destruct (decide (s' ∈ todo)) as [Hin|Hnin].
      * apply In'; assumption.
      * apply elem_of_cons in Hs' as [->|?]; [|contradiction].
        apply filled_at_same with c1; [apply In1; exact Hi|].
        apply Out'. intros s' Hs'. congruence.
    + intros i Hi. destruct (Out1 i) as (A1 & A2 & A3).
      { intros Hs. apply (Hi s Hs). now left. }
      destruct (Out' i) as (B1 & B2 & B3).
      { intros s' Hs' Hin. apply (Hi s' Hs'). now right. }
      unfold same_at. rewrite B1, B2, B3. auto.
Qed.

(** On the full map (no [indx], or every cell in order) [_calc_value] returns,
    with the out-of-bounds value at the cells of [out_of_bounds_area] and the
    target deficit at every other cell. *)
Lemma calc_value_full_map season_calc bf conditions :
  let seasons := season_calc (night conditions) (day_offset bf)
                             (season_modulo bf) (max_season bf) in
  well_formed bf seasons ->
  exists r, _calc_value season_calc bf conditions None = Ok r /\
    length r = length (result bf) /\
    forall i, (i < length (result bf))%nat ->
      r !! i = if decide (i ∈ out_of_bounds_area bf)
               then Some (out_of_bounds_val bf)
               else deficit bf seasons i.
Proof.
  intros seasons [Hall Ls Hk Hoob].
  unfold _calc_value. fold seasons. rewrite Hall, take_seq_all. simpl.
  destruct (season_loop_ok bf seasons (length (result bf)) (unique seasons)
              {| composite_target := result bf; composite_nobs := result bf;
                 composite_goal_N := result bf |})
    as (c & E & (Lt & Ln & Lg) & In_ & _); auto.
  { repeat split; reflexivity. }
  { intros s Hs. apply Hk. apply elem_of_unique. exact Hs. }
  rewrite E. simpl.
  assert (T : take (composite_nobs c) (seq 0 (length (result bf)))
              = Ok (composite_nobs c))
    by (rewrite <- Ln; apply take_seq_all).
  rewrite T. simpl.
  destruct (sub_arrays_ok (composite_goal_N c) (composite_nobs c))
    as (d & Ed & Ld & Pd); [lia|].
  rewrite Ed. simpl. rewrite put_seq_all by lia. simpl.
  destruct (put_scalar_ok d (out_of_bounds_area bf) (out_of_bounds_val bf))
    as [r Er].
  { intros i Hi. apply Hoob in Hi. lia. }
  exists r. split; [exact Er|].
  apply put_scalar_ok_inv in Er as (Lr & Out & Inb).
  split; [lia|]. intros i Hi.
  destruct (decide (i ∈ out_of_bounds_area bf)) as [Hin|Hnin]; [auto|].
  rewrite (Out i Hnin). unfold deficit.
  destruct (lookup_lt_is_Some_2 seasons i) as [s Hs]; [lia|]. rewrite Hs.
  destruct (Hk s) as (tm & f & cnt & Htm & Ltm & Hf & Lf & Hcnt).
  { apply list_elem_of_lookup. eauto. }
  rewrite Htm, Hf, Hcnt.
  destruct (In_ i s Hs) with tm f cnt as (Hn & Hg); auto.
  { apply elem_of_unique. apply list_elem_of_lookup. eauto. }
  destruct (lookup_lt_is_Some_2 tm i) as [t Ht]; [lia|].
  destruct (lookup_lt_is_Some_2 f i) as [nobs Hnobs]; [lia|].
  rewrite Ht, Hnobs. rewrite Ht in Hg. rewrite Hnobs in Hn. simpl in Hg.
  apply Pd; assumption.
Qed.

(** Whatever [indx] is, a call that returns has written the out-of-bounds
    value over every cell of [out_of_bounds_area]. *)
Lemma calc_value_out_of_bounds season_calc bf conditions indx r i :
  _calc_value season_calc bf conditions indx = Ok r ->
  i ∈ out_of_bounds_area bf -> r !! i = Some (out_of_bounds_val bf).
Proof.
  unfold _calc_value. intros H Hi.
  repeat match type of H with
  | py_bind ?c _ = Ok _ => destruct c; simpl in H; [|discriminate]
  end.
  apply put_scalar_ok_inv in H as (_ & _ & Inb). apply Inb. exact Hi.
Qed.

(** ** A basis function of twelve cells *)

(** One target map over the twelve cells of [nside = 1]: fraction 1 at cells 0
    and 11, one half at cell 1, nothing wanted elsewhere. *)
Definition target_example : list float := [1; 0.5; 0; 0; 0; 0; 0; 0; 0; 0; 0; 1].

(** The basis function built on it with [norm_factor = 1] and the default
    [out_of_bounds_val], once five observations have been counted in the last
    season, all of them at cell 11. *)
Definition counted (bf : py Target_map_modulo_basis_function)
  : py Target_map_modulo_basis_function :=
  b <- bf ;;
  Ok (with_counts b (-1) 5 [0; 0; 0; 0; 0; 0; 0; 0; 0; 0; 0; 5]).

Definition bf_example : py Target_map_modulo_basis_function :=
  counted (init None 1 [target_example] (Some 1) None None None).

Definition calc_example (indx : option (list nat)) : py (list float) :=
  b <- bf_example ;; _calc_value season_calc_capped b {| night := 3 |} indx.

(** ** The claims on [_calc_value] *)

(** C1: the value at a cell is the target deficit of the cell's season.  On
    the full map it is (5 at cell 0, where the target is 1, five observations
    were counted elsewhere and none at the cell); on a working set that is not
    the full map in order the function raises [IndexError] (cell 0 alone) or
    returns the deficit of another cell (cells 0 and 1 exchanged: 2.5 at cell 0
    and 5 at cell 1). *)
Theorem C1_deficit_only_on_full_map :
  calc_example None = Ok [5; 2.5; -10; -10; -10; -10; -10; -10; -10; -10; -10; 0] /\
  calc_example (Some [0%nat]) = Raise IndexError /\
  calc_example (Some [1; 0; 2; 3; 4; 5; 6; 7; 8; 9; 10; 11]%nat)
  = Ok [2.5; 5; -10; -10; -10; -10; -10; -10; -10; -10; -10; 0].
Proof. repeat split; vm_compute; reflexivity. Qed.

(** The value at a cell of the first target map whose weight is zero, with the
    default [out_of_bounds_val]: the finite reward -10, not [hp.UNSEEN]. *)
Lemma C8_default_is_not_the_sentinel :
  exists r,
    calc_example None = Ok r /\
    target_example !! 2%nat = Some 0 /\
    r !! 2%nat = Some (-10) /\
    (-10 =? UNSEEN) = false /\ is_finite (-10) = true.
Proof. eexists. repeat split; vm_compute; reflexivity. Qed.

(** C8, as the code has it: a cell whose weight in the first target map is
    zero gets the configured [out_of_bounds_val] (-10 when the argument is
    omitted) from every call of [_calc_value] that returns, whatever the
    season and the working set. *)
Theorem C8_zero_weight_gets_out_of_bounds_val
    season_calc day_offset nside target_maps norm_factor out_of_bounds_val
    season_modulo max_season bf first_map conditions indx r i t :
  init day_offset nside target_maps norm_factor out_of_bounds_val
       season_modulo max_season = Ok bf ->
  target_maps !! 0%nat = Some first_map ->
  first_map !! i = Some t -> (t =? 0) = true ->
  _calc_value season_calc bf conditions indx = Ok r ->
  r !! i = Some (match out_of_bounds_val with None => -10 | Some v => v end).
Proof.
  intros Hinit Hfirst Ht Hzero Hcalc.
  unfold init, getitem in Hinit. rewrite Hfirst in Hinit. simpl in Hinit.
  injection Hinit as <-.
  rewrite (calc_value_out_of_bounds _ _ _ _ _ i Hcalc); [reflexivity|].
  simpl. apply elem_of_where. rewrite lookup_map, Ht. simpl. rewrite Hzero.
  reflexivity.
Qed.

Lemma C8_zero_weight_witness :
  exists bf r,
    init None 1 [target_example] (Some 1) (Some UNSEEN) None None = Ok bf /\
    _calc_value season_calc_capped bf {| night := 3 |} None = Ok r /\
    r !! 2%nat = Some UNSEEN.
Proof.
  eexists. eexists. split; [reflexivity|]. split; [vm_compute; reflexivity|].
  eapply (C8_zero_weight_gets_out_of_bounds_val season_calc_capped
            None 1 [target_example] (Some 1) (Some UNSEEN) None None
            _ target_example {| night := 3 |} None _ 2 0).
  - reflexivity.
  - reflexivity.
  - reflexivity.
  - reflexivity.
  - vm_compute. reflexivity.
Defined.

End RollingFuncs.

(* ================================================================== *)
(** * surveys/to_port.py *)

Module ToPort.

Import FloatOrder NP NPSort.
Local Open Scope float_scope.

(** ** Data shared by the surveys *)

(** The observation record: the columns the surveys of this file write; the
    columns they leave at zero (mjd, airmass, seeing, ...) are left out. *)
Module Observation.
Record t : Type := {
  RA : float;
  dec : float;
  exptime : float;
  filter : string;
  rotSkyPos : float;
  nexp : Z;
  note : string;
  field_id : Z;
  survey_id : Z;
  block_id : Z
}.
End Observation.
Abbreviation observation := Observation.t.

(** [obs['filter'] = f] and [obs['note'] = n]. *)
Definition with_filter (f : string) (o : observation) : observation :=
  {| Observation.RA := Observation.RA o; Observation.dec := Observation.dec o;
     Observation.exptime := Observation.exptime o; Observation.filter := f;
     Observation.rotSkyPos := Observation.rotSkyPos o;
     Observation.nexp := Observation.nexp o;
     Observation.note := Observation.note o;
     Observation.field_id := Observation.field_id o;
     Observation.survey_id := Observation.survey_id o;
     Observation.block_id := Observation.block_id o |}.

Definition with_note (n : string) (o : observation) : observation :=
  {| Observation.RA := Observation.RA o; Observation.dec := Observation.dec o;
     Observation.exptime := Observation.exptime o;
     Observation.filter := Observation.filter o;
     Observation.rotSkyPos := Observation.rotSkyPos o;
     Observation.nexp := Observation.nexp o; Observation.note := n;
     Observation.field_id := Observation.field_id o;
     Observation.survey_id := Observation.survey_id o;
     Observation.block_id := Observation.block_id o |}.

(** The catalog of fields, [self.fields]: one row per field. *)
Record field_table : Type := {
  fields_RA : list float;
  fields_dec : list float;
  fields_field_id : list Z
}.

(** A numpy masked array: the values and, per position, whether it is masked. *)
Record masked_array : Type := {
  data : list float;
  mask : list bool
}.

(** What [self.reward] can hold: a Python float, a plain array or a masked
    array (only the last has the attribute [mask]). *)
Inductive reward_t : Type :=
  | Scalar (x : float)
  | Plain (d : list float)
  | Masked (m : masked_array).

(** ** Scripted_single_block_survey *)

Module Scripted_single_block_survey.

Import Observation.

Record t : Type := {
  mjd_target : float;
  mjd_tol : float;                        (* days *)
  reward_val : float;
  reward : float;
  mjd : float;                            (* extra_features['mjd'].feature *)
  obs_wanted : option (list observation)  (* absent until set_script *)
}.

(** [__init__(mjd_target, mjd_tol, reward=1e6)], the tolerance in minutes: the
    attributes the method assigns itself, before it calls the base class. *)
Definition init (mjd_target mjd_tol : float) (reward : option float)
    (mjd : float) : t :=
  let reward := match reward with None => 1e6 | Some r => r end in
  {| mjd_target := mjd_target;
     mjd_tol := mjd_tol / 60 / 24;
     reward_val := reward;
     reward := - reward;
     mjd := mjd;
     obs_wanted := None |}.

(** [set_script(obs_wanted)]. *)
Definition set_script (s : t) (script : list observation) : t :=
  {| mjd_target := mjd_target s; mjd_tol := mjd_tol s;
     reward_val := reward_val s; reward := reward s; mjd := mjd s;
     obs_wanted := Some script |}.

Definition set_reward (s : t) (r : float) : t :=
  {| mjd_target := mjd_target s; mjd_tol := mjd_tol s;
     reward_val := reward_val s; reward := r; mjd := mjd s;
     obs_wanted := obs_wanted s |}.

(** [calc_reward_function()]; both sides of [|] are evaluated. *)
Definition calc_reward_function (s : t) : py (float * t) :=
  let dt := mjd_target s - mjd s in
  script <- match obs_wanted s with
            | Some l => Ok l
            | None => Raise AttributeError
            end ;;
  let r := if (mjd_tol s <? abs dt) || (length script =? 0)%nat
           then neg_infinity else reward_val s in
  Ok (r, set_reward s r).

(** [__call__()]: the value [calc_reward_function] returned is compared with
    [self.reward], which that call has just set. *)
Definition __call__ (s : t) : py (list (option observation) * t) :=
  p <- calc_reward_function s ;;
  let (r, s') := p in
  if r =? reward s' then
    script <- match obs_wanted s' with
              | Some l => Ok l
              | None => Raise AttributeError
              end ;;
    Ok (map Some script, s')
  else Ok ([None], s').

(** Inside the window and with a script, the reward is the configured one and
    the script comes out as it was registered. *)
Lemma in_window s script :
  obs_wanted s = Some script -> script <> [] ->
  (mjd_tol s <? abs (mjd_target s - mjd s)) = false ->
  is_nan (reward_val s) = false ->
  calc_reward_function s = Ok (reward_val s, set_reward s (reward_val s)) /\
  __call__ s = Ok (map Some script, set_reward s (reward_val s)).
Proof.
  intros Hs Hne Hw Hn. unfold __call__, calc_reward_function.
  rewrite Hs, Hw. simpl. destruct script as [|o script]; [congruence|]. simpl.
  split; [reflexivity|]. rewrite Hs.
  unfold is_nan in Hn. apply negb_false_iff in Hn. rewrite Hn. reflexivity.
Qed.

(** Whatever the time, [__call__] returns the script: the comparison that
    should tell the two cases apart compares the reward with itself. *)
Lemma call_returns_script s script :
  obs_wanted s = Some script -> is_nan (reward_val s) = false ->
  exists s', __call__ s = Ok (map Some script, s').
Proof.
  intros Hs Hn. unfold __call__, calc_reward_function. rewrite Hs. simpl.
  rewrite Hs.
  destruct ((mjd_tol s <? abs (mjd_target s - mjd s)) || (length script =? 0)%nat).
  - change (neg_infinity =? neg_infinity) with true. simpl. eauto.
  - unfold is_nan in Hn. apply negb_false_iff in Hn. rewrite Hn. simpl. eauto.
Qed.

(** A script of one observation, registered for MJD 59000 with a tolerance of
    ten minutes, looked at a day late. *)
Definition obs_example : observation :=
  {| RA := 1; dec := -0.5; exptime := 30; filter := "r"; rotSkyPos := 0;
     nexp := 2; note := "scripted"; field_id := 7; survey_id := 0; block_id := 0 |}.

Definition late_example : t :=
  set_script (init 59000 10 None 59001) [obs_example].


End Scripted_single_block_survey.

(** ** Simple_greedy_survey_fields *)

Module Simple_greedy_survey_fields.

Import Observation.

Record t : Type := {
  reward : reward_t;
  reward_checked : bool;
  field_hp : list nat;      (* the cell of every catalog field *)
  fields : field_table;
  block_size : nat;
  filtername : string
}.

Definition set_reward (s : t) (r : reward_t) : t :=
  {| reward := r; reward_checked := reward_checked s; field_hp := field_hp s;
     fields := fields s; block_size := block_size s; filtername := filtername s |}.

(** [reward_fields = self.reward[self.field_hp]] followed by
    [reward_fields[np.where(reward_fields.mask == True)] = -np.inf]: the reward
    of every field, negative infinity where the cell is masked. *)
Definition reward_fields (s : t) : py (list float) :=
  match reward s with
  | Masked m =>
      d <- take (data m) (field_hp s) ;;
      k <- take (mask m) (field_hp s) ;;
      Ok (zip_with (fun x (b : bool) => if b then neg_infinity else x) d k)
  | Plain d => _ <- take d (field_hp s) ;; Raise AttributeError
  | Scalar _ => Raise TypeError
  end.

(** The body of [for field in best_fields]. *)
Definition make_obs (s : t) (field : nat) : py observation :=
  ra <- getitem (fields_RA (fields s)) field ;;
  de <- getitem (fields_dec (fields s)) field ;;
  id <- getitem (fields_field_id (fields s)) field ;;
  Ok {| RA := ra; dec := de; exptime := 30; filter := filtername s;
        rotSkyPos := 0; nexp := 2; note := ""; field_id := id;
        survey_id := 0; block_id := 0 |}.

Section Call.

(** [BaseSurvey.calc_reward_function], which this class inherits; the base
    class is not part of the sources at hand. *)
Variable calc_reward_function : t -> py (reward_t * t).

(** [np.argsort], numpy's sort of the positions of an array by their values;
    the kind of sort is numpy's choice. *)
Variable np_argsort : list float -> list nat.

(** [if not self.reward_checked: self.reward = self.calc_reward_function()]. *)
Definition settle (s : t) : py t :=
  if reward_checked s then Ok s
  else p <- calc_reward_function s ;; Ok (set_reward (snd p) (fst p)).

(** [__call__()]. *)
Definition __call__ (s : t) : py (list observation * t) :=
  s <- settle s ;;
  rf <- reward_fields s ;;
  let order := reverse (np_argsort rf) in
  let best_fields := firstn (block_size s) order in
  observations <- traverse (make_obs s) best_fields ;;
  Ok (observations, s).

End Call.

(** A survey whose catalog and reward map fit together: every field has its
    cell on the map, and the three columns of the catalog have one row per field. *)
Record fits (s : t) (m : masked_array) : Prop := {
  fits_reward : reward s = Masked m;
  fits_data : forall c, c ∈ field_hp s -> (c < length (data m))%nat;
  fits_mask : forall c, c ∈ field_hp s -> (c < length (mask m))%nat;
  fits_RA : length (fields_RA (fields s)) = length (field_hp s);
  fits_dec : length (fields_dec (fields s)) = length (field_hp s);
  fits_field_id : length (fields_field_id (fields s)) = length (field_hp s)
}.

Lemma reward_fields_ok s m :
  fits s m ->
  exists rf, reward_fields s = Ok rf /\ length rf = length (field_hp s).
Proof.
  intros F. unfold reward_fields. rewrite (fits_reward _ _ F).
  destruct (take_ok (data m) (field_hp s) (fits_data _ _ F)) as (d & Ed & Ld & _).
  destruct (take_ok (mask m) (field_hp s) (fits_mask _ _ F)) as (k & Ek & Lk & _).
  rewrite Ed, Ek. simpl. eexists. split; [reflexivity|].
  rewrite length_zip_with. lia.
Qed.

(** The reward of a field is the value of its cell, and negative infinity
    where the cell is masked. *)
Lemma reward_fields_lookup s m rf i c :
  reward s = Masked m -> reward_fields s = Ok rf ->
  field_hp s !! i = Some c ->
  exists v (b : bool), data m !! c = Some v /\ mask m !! c = Some b /\
    rf !! i = Some (if b then neg_infinity else v).
Proof.
  intros Hr H Hi. unfold reward_fields in H. rewrite Hr in H.
  bind_ok H as d Ed. bind_ok H as k Ek. injection H as <-.
  apply take_ok_inv in Ed as [Ld Pd]. apply take_ok_inv in Ek as [Lk Pk].
  destruct (Pd i c Hi) as [Hd Hlt]. destruct (Pk i c Hi) as [Hk Hlt'].
  destruct (lookup_lt_is_Some_2 (data m) c Hlt) as [v Hv].
  destruct (lookup_lt_is_Some_2 (mask m) c Hlt') as [b Hb].
  exists v, b. split; [exact Hv|]. split; [exact Hb|].
  rewrite lookup_zip_with, Hd, Hv, Hk, Hb. reflexivity.
Qed.

Lemma make_obs_ok s m field :
  fits s m -> (field < length (field_hp s))%nat ->
  exists o, make_obs s field = Ok o.
Proof.
  intros F H. unfold make_obs, getitem.
  destruct (lookup_lt_is_Some_2 (fields_RA (fields s)) field) as [x ->];
    [rewrite (fits_RA _ _ F); exact H|].
  destruct (lookup_lt_is_Some_2 (fields_dec (fields s)) field) as [y ->];
    [rewrite (fits_dec _ _ F); exact H|].
  destruct (lookup_lt_is_Some_2 (fields_field_id (fields s)) field) as [z ->];
    [rewrite (fits_field_id _ _ F); exact H|].
  simpl. eauto.
Qed.

(** An observation is at the coordinates of its field, in the survey's
    filter, two exposures in 30 seconds. *)
Lemma make_obs_inv s field o :
  make_obs s field = Ok o ->
  fields_RA (fields s) !! field = Some (RA o) /\
  fields_dec (fields s) !! field = Some (dec o) /\
  fields_field_id (fields s) !! field = Some (field_id o) /\
  filter o = filtername s /\ exptime o = 30 /\ nexp o = 2%Z.
Proof.
  unfold make_obs, getitem. intros H.
  destruct (fields_RA (fields s) !! field) as [x|]; [|discriminate].
  destruct (fields_dec (fields s) !! field) as [y|]; [|discriminate].
  destruct (fields_field_id (fields s) !! field) as [z|]; [|discriminate].
  simpl in H. injection H as <-. simpl. repeat split; reflexivity.
Qed.

Lemma traverse_ok {A B} (f : A -> py B) l :
  (forall a, a ∈ l -> exists b, f a = Ok b) ->
  exists bs, traverse f l = Ok bs.
Proof.
  induction l as [|a l IH]; intros H; simpl; [eauto|].
  destruct (H a) as [b ->]; [now left|]. simpl.
  destruct IH as [bs ->]; [intros; apply H; now right|]. simpl. eauto.
Qed.

(** Two catalog fields on two cells of equal reward. *)
Definition tie_example : t :=
  {| reward := Masked {| data := [1; 1]; mask := [false; false] |};
     reward_checked := true;
     field_hp := [0; 1]%nat;
     fields := {| fields_RA := [0.25; 0.5]; fields_dec := [-0.25; -0.5];
                  fields_field_id := [0; 1]%Z |};
     block_size := 25;
     filtername := "r" |}.

(** Three catalog fields, the one of largest value on a masked cell, and
    blocks of two. *)
Definition masked_example : t :=
  {| reward := Masked {| data := [3; 5; 2]; mask := [false; true; false] |};
     reward_checked := true;
     field_hp := [0; 1; 2]%nat;
     fields := {| fields_RA := [0.25; 0.5; 0.75];
                  fields_dec := [-0.25; -0.5; -0.75];
                  fields_field_id := [0; 1; 2]%Z |};
     block_size := 2;
     filtername := "r" |}.

(** Of two fields of equal reward the one with the higher index is emitted
    first: numpy sorts an array of two values by insertion, which leaves the
    positions in the order 0, 1, and the survey reads that order backwards.
    (The reward is in place, so the base class is not called.) *)
Lemma C7_tie_emits_higher_index_first :
  exists obs,
    reward_fields tie_example = Ok [1; 1] /\
    __call__ (fun _ => Raise TypeError) argsort tie_example
    = Ok (obs, tie_example) /\
    map field_id obs = [1; 0]%Z.
Proof. eexists. repeat split; vm_compute; reflexivity. Qed.

(** C7, as the code has it, for any sort [np.argsort] runs.  [s] is the
    survey once its reward is in place: the survey itself when the reward was
    checked, and else the survey with the reward the base class computes.
    The reward of a catalog field is the value of its cell, negative infinity
    where the cell is masked.  A tick emits one observation per selected
    field, at the field's coordinates and in the survey's filter:
    [min block_size n] of the [n] catalog fields, all different, in
    non-increasing order of reward, the first one a field of maximum reward,
    and no field left out has a larger reward than one that is emitted.  The
    order of fields of equal reward is the sort's: where the sort is stable
    the one with the higher field index comes first. *)
Theorem C7_best_fields_descending calc np_argsort s0 s m :
  sorts np_argsort ->
  settle calc s0 = Ok s -> fits s m ->
  exists rf best obs,
    (reward_checked s0 = true -> s = s0) /\
    (reward_checked s0 = false ->
     exists r s1, calc s0 = Ok (r, s1) /\ s = set_reward s1 r) /\
    length rf = length (field_hp s) /\
    (forall i c, field_hp s !! i = Some c ->
       exists v (b : bool), data m !! c = Some v /\ mask m !! c = Some b /\
         rf !! i = Some (if b then neg_infinity else v)) /\
    best = firstn (block_size s) (reverse (np_argsort rf)) /\
    __call__ calc np_argsort s0 = Ok (obs, s) /\
    length obs = Nat.min (block_size s) (length (field_hp s)) /\
    length best = length obs /\
    NoDup best /\
    (forall p i, best !! p = Some i ->
       exists o, obs !! p = Some o /\
         fields_RA (fields s) !! i = Some (RA o) /\
         fields_dec (fields s) !! i = Some (dec o) /\
         fields_field_id (fields s) !! i = Some (field_id o) /\
         filter o = filtername s /\ exptime o = 30 /\ nexp o = 2%Z) /\
    (forall p q i j, (p < q)%nat -> best !! p = Some i -> best !! q = Some j ->
       np_lt (key rf i) (key rf j) = false) /\
    (forall i f, best !! 0%nat = Some i -> (f < length (field_hp s))%nat ->
       np_lt (key rf i) (key rf f) = false) /\
    (forall i f, i ∈ best -> (f < length (field_hp s))%nat -> f ∉ best ->
       np_lt (key rf i) (key rf f) = false) /\
    (stable_on rf (np_argsort rf) ->
     forall p q i j, (p < q)%nat -> best !! p = Some i -> best !! q = Some j ->
       np_lt (key rf j) (key rf i) = false -> (j < i)%nat).
Proof.
  intros Hsort Hc F. destruct (reward_fields_ok s m F) as (rf & Erf & Lrf).
  pose proof (Hsort rf) as Hasc.
  set (best := firstn (block_size s) (reverse (np_argsort rf))).
  destruct (traverse_ok (make_obs s) best) as [obs Eobs].
  { intros i Hi. apply (make_obs_ok s m); [exact F|].
    rewrite <- Lrf. eapply elem_of_largest; eauto. }
  assert (Lb : length best = Nat.min (block_size s) (length (field_hp s))).
  { unfold best. rewrite (largest_length _ _ _ Hasc), Lrf. reflexivity. }
  pose proof (traverse_ok_length _ _ _ Eobs) as Lo.
  exists rf, best, obs.
  split.
  { intros Hck. unfold settle in Hc. rewrite Hck in Hc. congruence. }
  split.
  { intros Hck. unfold settle in Hc. rewrite Hck in Hc.
    bind_ok Hc as p Ep. destruct p as [r s1]. exists r, s1.
    split; [exact Ep | simpl in Hc; congruence]. }
  split; [exact Lrf|].
  split; [intros i c; apply reward_fields_lookup; [apply F | exact Erf]|].
  split; [reflexivity|].
  split; [unfold __call__; rewrite Hc; simpl; rewrite Erf; simpl;
          fold best; rewrite Eobs; reflexivity|].
  split; [lia|]. split; [lia|].
  split; [apply (largest_NoDup _ _ _ Hasc)|].
  split.
  { intros p i Hp. destruct (traverse_ok_lookup _ _ _ _ _ Eobs Hp) as (o & Ho & E).
    exists o. split; [exact Ho | apply make_obs_inv; exact E]. }
  split; [intros p q i j; apply (largest_descending _ _ _ Hasc)|].
  split; [intros i f Hi Hf; apply (largest_first_max _ _ _ Hasc i f Hi); lia|].
  split; [intros i f Hi Hf; apply (largest_best _ _ _ Hasc i f Hi); lia|].
  intros Hst p q i j. apply (largest_ties _ _ _ p q i j Hst).
Qed.

Lemma C7_best_fields_witness :
  exists obs,
    __call__ (fun s => Raise TypeError) argsort masked_example
    = Ok (obs, masked_example) /\
    map field_id obs = [0; 2]%Z /\ map RA obs = [0.25; 0.75].
Proof.
  destruct (C7_best_fields_descending (fun s => Raise TypeError) argsort
              masked_example masked_example
              {| data := [3; 5; 2]; mask := [false; true; false] |})
    as (rf & best & obs & _ & _ & _ & _ & _ & H & _).
  - exact argsort_sorts.
  - reflexivity.
  - constructor; try reflexivity;
      intros c Hc; simpl in *;
      repeat (apply elem_of_cons in Hc as [->|Hc]; [lia|]); inversion Hc.
  - exists obs. split; [exact H|].
    vm_compute in H. injection H as <-. split; reflexivity.
Defined.

End Simple_greedy_survey_fields.

(** ** What the block surveys share *)

(** The features a block survey reads ([self.extra_features[...].feature]). *)
Record features : Type := {
  mounted_filters : list string;
  next_twilight_start : float;   (* night_boundaries *)
  mjd : float;
  sunAlt : float;                (* sun_moon_alt *)
  lmst : float;
  current_filter : string;
  alt : list float;              (* altaz, one per cell *)
  az : list float
}.

(** What a basis function returns: a plain array or a masked array. *)
Inductive basis_value : Type :=
  | BPlain (d : list float)
  | BMasked (m : masked_array).

(** [set(name)]: the one-character strings of [name]. *)
Fixpoint set_of_string (name : string) : list string :=
  match name with
  | EmptyString => []
  | String c rest => String c EmptyString :: set_of_string rest
  end.

(** [a.issubset(set(b))]. *)
Definition issubset (a b : list string) : bool :=
  forallb (fun x => bool_decide (x ∈ b)) a.

(** An operation on two arrays of one shape. *)
Fixpoint zip_same {A B C} (f : A -> B -> C) (a : list A) (b : list B)
  : py (list C) :=
  match a, b with
  | [], [] => Ok []
  | x :: a', y :: b' => r <- zip_same f a' b' ;; Ok (f x y :: r)
  | _, _ => Raise ValueError
  end.

(** [basis_value * weight]; numpy.ma leaves the data under the mask alone. *)
Definition scale (bv : basis_value) (w : float) : basis_value :=
  match bv with
  | BPlain d => BPlain (map (fun v => v * w) d)
  | BMasked m =>
      BMasked {| data := zip_with (fun v (b : bool) => if b then v else v * w)
                                  (data m) (mask m);
                 mask := mask m |}
  end.

(** [self.reward += x].  The first time [self.reward] is the number 0 and the
    sum is a new array of the kind of [x]; later the sum is made in place, so a
    plain array stays plain, and a masked one takes the mask of [x] as well and
    keeps its data where the joint mask holds. *)
Definition iadd (r : reward_t) (x : basis_value) : py reward_t :=
  match r, x with
  | Scalar z, BPlain d => Ok (Plain (map (fun v => z + v) d))
  | Scalar z, BMasked m =>
      Ok (Masked {| data := zip_with (fun v (b : bool) => if b then z else z + v)
                                     (data m) (mask m);
                    mask := mask m |})
  | Plain a, BPlain d => s <- zip_same add a d ;; Ok (Plain s)
  | Plain a, BMasked m => s <- zip_same add a (data m) ;; Ok (Plain s)
  | Masked a, BPlain d =>
      s <- zip_same add (data a) d ;;
      Ok (Masked {| data := zip_with (fun (b : bool) p => if b then fst p else snd p)
                                     (mask a) (zip (data a) s);
                    mask := mask a |})
  | Masked a, BMasked m =>
      k <- zip_same orb (mask a) (mask m) ;;
      s <- zip_same add (data a) (data m) ;;
      Ok (Masked {| data := zip_with (fun (b : bool) p => if b then fst p else snd p)
                                     k (zip (data a) s);
                    mask := k |})
  end.

(** The data of [basis_value == hp.UNSEEN], as [np.where] reads it: false
    under the mask. *)
Definition eq_UNSEEN (bv : basis_value) : list bool :=
  match bv with
  | BPlain d => map (fun v => v =? UNSEEN) d
  | BMasked m =>
      zip_with (fun v (b : bool) => if b then false else v =? UNSEEN)
               (data m) (mask m)
  end.

(** [basis_value.mask == True], for a value that has a mask. *)
Definition bv_mask (bv : basis_value) : list bool :=
  match bv with
  | BPlain _ => []
  | BMasked m => mask m
  end.

(** The variables of the loop over the basis functions. *)
Record loop_state : Type := {
  ls_reward : reward_t;
  ls_indx : list nat;
  ls_mask : list bool
}.

(** A basis function, called as [bf(indx=indx)]. *)
Definition basis_function : Type := list nat -> basis_value.

(** One turn of [for bf, weight in zip(basis_functions, basis_weights)]. *)
Definition basis_step (st : loop_state) (bf : basis_function) (weight : float)
  : py loop_state :=
  let value := bf (ls_indx st) in
  msk <- put_scalar (ls_mask st) (where_ (eq_UNSEEN value)) true ;;
  msk <- put_scalar msk (where_ (bv_mask value)) true ;;
  reward <- iadd (ls_reward st) (scale value weight) ;;
  let indx := match reward with
              | Masked m => where_ (map negb (mask m))
              | _ => ls_indx st
              end in
  Ok {| ls_reward := reward; ls_indx := indx; ls_mask := msk |}.

Fixpoint basis_loop (todo : list (basis_function * float)) (st : loop_state)
  : py loop_state :=
  match todo with
  | [] => Ok st
  | (bf, weight) :: todo' =>
      st' <- basis_step st bf weight ;; basis_loop todo' st'
  end.

(** The loop and the three statements after it:
    [self.reward[mask] = hp.UNSEEN; self.reward.mask = mask;
     self.reward.fill_value = hp.UNSEEN].  Only a masked array can be given a
    mask. *)
Definition weighted_sum (npix : nat) (basis_functions : list basis_function)
    (basis_weights : list float) : py reward_t :=
  st <- basis_loop (zip basis_functions basis_weights)
          {| ls_reward := Scalar 0; ls_indx := seq 0 npix;
             ls_mask := replicate npix false |} ;;
  match ls_reward st with
  | Scalar _ => Raise TypeError
  | Plain d =>
      if (length d =? npix)%nat then Raise AttributeError else Raise IndexError
  | Masked m =>
      if (length (data m) =? npix)%nat then
        d <- put_scalar (data m) (where_ (ls_mask st)) UNSEEN ;;
        Ok (Masked {| data := d; mask := ls_mask st |})
      else Raise IndexError
  end.

(** [self.reward.filled()], the fill value being [hp.UNSEEN]. *)
Definition filled (m : masked_array) : list float :=
  zip_with (fun v (b : bool) => if b then UNSEEN else v) (data m) (mask m).

(** Modelled from the spec: [utils.max_reject], not part of the sources at
    hand.  The field-level reward is the best reward of the field's cells
    (section 4.2, "field-level rewards"); the call site says "Use the max
    reward" and then "toss any -inf": the maximum of the values other than the
    sentinel, negative infinity when there is none. *)
Definition max_reject (values : list float) : float :=
  match List.filter (fun v => negb (v =? UNSEEN)) values with
  | [] => neg_infinity
  | x :: l => fold_left maximum l x
  end.

(** Modelled from the spec: [utils.int_binned_stat], not part of the sources
    at hand.  "Bin up the reward for each field pointing": the distinct ids,
    ascending, and for each the statistic of the values that carry it. *)
Definition int_binned_stat (ids : list nat) (values : list float)
    (statistic : list float -> float) : list nat * list float :=
  let uids := unique_nat ids in
  (uids, map (fun u => statistic (compress (map (Nat.eqb u) ids) values)) uids).

(** [self.best_fields]: the number 0 for a block that could not be filled, or
    the fields of the block. *)
Inductive pointings : Type :=
  | NoBlock
  | Block (fields : list nat).

(** ** The mask of the weighted sum *)

(** A basis function's value marks cell [c]: it is masked there, or it holds
    the sentinel there. *)
Definition flagged (bv : basis_value) (c : nat) : Prop :=
  match bv with
  | BPlain d => exists v, d !! c = Some v /\ (v =? UNSEEN) = true
  | BMasked m =>
      mask m !! c = Some true \/
      exists v, data m !! c = Some v /\ (v =? UNSEEN) = true /\
                is_Some (mask m !! c)
  end.

Lemma flagged_where bv c :
  flagged bv c -> c ∈ where_ (eq_UNSEEN bv) \/ c ∈ where_ (bv_mask bv).
Proof.
  destruct bv as [d|m]; simpl.
  - intros (v & Hv & E). left. apply elem_of_where.
    rewrite lookup_map, Hv. simpl. rewrite E. reflexivity.
  - intros [H|(v & Hv & E & [b Hb])].
    + right. apply elem_of_where. exact H.
    + destruct b.
      * right. apply elem_of_where. exact Hb.
      * left. apply elem_of_where. rewrite lookup_zip_with, Hv, Hb. simpl.
        rewrite E. reflexivity.
Qed.

Lemma put_true_spec (msk : list bool) idx msk' :
  put_scalar msk idx true = Ok msk' ->
  length msk' = length msk /\
  (forall c, msk !! c = Some true -> msk' !! c = Some true) /\
  (forall c, c ∈ idx -> msk' !! c = Some true).
Proof.
  intros H. apply put_scalar_ok_inv in H as (L & Out & In_).
  repeat split; auto. intros c Hc.
  destruct (decide (c ∈ idx)) as [Hin|Hnin]; [auto | rewrite Out; auto].
Qed.

(** One turn of the loop keeps the marks there are and adds those of the
    value it reads. *)
Lemma basis_step_mask st bf w st' :
  basis_step st bf w = Ok st' ->
  length (ls_mask st') = length (ls_mask st) /\
  (forall c, ls_mask st !! c = Some true -> ls_mask st' !! c = Some true) /\
  (forall c, flagged (bf (ls_indx st)) c -> ls_mask st' !! c = Some true).
Proof.
  unfold basis_step. intros H.
  destruct (put_scalar (ls_mask st) _ true) as [m1|] eqn:E1; simpl in H; [|discriminate].
  destruct (put_scalar m1 _ true) as [m2|] eqn:E2; simpl in H; [|discriminate].
  destruct (iadd _ _) as [r|]; simpl in H; [|discriminate].
  injection H as <-. simpl.
  apply put_true_spec in E1 as (L1 & K1 & F1).
  apply put_true_spec in E2 as (L2 & K2 & F2).
  repeat split; [congruence | auto |].
  intros c [Hc|Hc]%flagged_where; auto.
Qed.

Lemma basis_loop_mask todo : forall st st',
  basis_loop todo st = Ok st' ->
  length (ls_mask st') = length (ls_mask st) /\
  (forall c, ls_mask st !! c = Some true -> ls_mask st' !! c = Some true) /\
  (forall pre bf w post stm c,
     todo = pre ++ (bf, w) :: post -> basis_loop pre st = Ok stm ->
     flagged (bf (ls_indx stm)) c -> ls_mask st' !! c = Some true).
Proof.
  induction todo as [|[bf0 w0] todo IH]; intros st st' H; simpl in H.
  - injection H as <-. repeat split; auto.
    intros pre bf w post stm c E. destruct pre; discriminate.
  - destruct (basis_step st bf0 w0) as [st1|] eqn:E1; simpl in H; [|discriminate].
    pose proof (basis_step_mask _ _ _ _ E1) as (L1 & K1 & F1).
    destruct (IH _ _ H) as (L & K & F).
    repeat split; [congruence | auto |].
    intros [|[bf1 w1] pre] bf w post stm c E Hpre Hf; simpl in *.
    + injection Hpre as <-. injection E as <- <- <-. auto.
    + injection E as -> -> ->. rewrite E1 in Hpre. simpl in Hpre.
      eapply F; eauto.
Qed.

(** The weighted sum, when there is one, is a masked array: masked exactly
    where the loop has marked, and holding the sentinel there. *)
Lemma weighted_sum_spec npix bfs ws r :
  weighted_sum npix bfs ws = Ok r ->
  exists m st,
    r = Masked m /\
    basis_loop (zip bfs ws)
      {| ls_reward := Scalar 0; ls_indx := seq 0 npix;
         ls_mask := replicate npix false |} = Ok st /\
    mask m = ls_mask st /\ length (mask m) = npix /\ length (data m) = npix /\
    forall c, mask m !! c = Some true -> data m !! c = Some UNSEEN.
Proof.
  unfold weighted_sum. intros H.
  destruct (basis_loop _ _) as [st|] eqn:E; simpl in H; [|discriminate].
  destruct (ls_reward st) as [x|d|m]; try discriminate.
  - destruct (length d =? npix)%nat; discriminate.
  - destruct (Nat.eqb_spec (length (data m)) npix) as [L|]; [|discriminate].
    destruct (put_scalar (data m) _ UNSEEN) as [d|] eqn:Ed; simpl in H; [|discriminate].
    injection H as <-. eexists. exists st. split; [reflexivity|]. simpl.
    apply put_scalar_ok_inv in Ed as (Ld & _ & In_).
    destruct (basis_loop_mask _ _ _ E) as (Lm & _ & _). simpl in Lm.
    rewrite length_replicate in Lm.
    repeat split; [exact Lm | lia |].
    intros c Hc. apply In_. apply elem_of_where. exact Hc.
Qed.

(** ** The reward of a field *)

Lemma max_reject_above values :
  (neg_infinity <? max_reject values) = true ->
  exists v, v ∈ values /\ (v =? UNSEEN) = false.
Proof.
  unfold max_reject.
  destruct (List.filter _ values) as [|x l] eqn:E; [discriminate|]. intros _.
  assert (Hx : In x (List.filter (fun v => negb (v =? UNSEEN)) values))
    by (rewrite E; now left).
  apply filter_In in Hx as [Hin Hx]. apply negb_true_iff in Hx.
  exists x. split; [apply list_elem_of_In; exact Hin | exact Hx].
Qed.

Lemma int_binned_stat_length ids values statistic :
  length (fst (int_binned_stat ids values statistic))
  = length (snd (int_binned_stat ids values statistic)).
Proof. unfold int_binned_stat. simpl. rewrite length_map. reflexivity. Qed.

Lemma int_binned_stat_lookup ids values statistic j u :
  fst (int_binned_stat ids values statistic) !! j = Some u ->
  snd (int_binned_stat ids values statistic) !! j
  = Some (statistic (compress (map (Nat.eqb u) ids) values)).
Proof.
  unfold int_binned_stat. simpl. intros H. rewrite lookup_map, H. reflexivity.
Qed.

Lemma filled_not_UNSEEN m c v :
  filled m !! c = Some v -> (v =? UNSEEN) = false ->
  data m !! c = Some v /\ mask m !! c = Some false.
Proof.
  unfold filled. intros H E.
  apply lookup_zip_with_Some in H as (x & b & -> & Hx & Hb).
  destruct b; [discriminate | auto].
Qed.

(** ** Twelve cells for the examples *)

(** The collaborators of the examples: an alt/az mask given at the
    resolution of the map, no smoothing, and a route that visits the
    pointings in the order of the catalog. *)
Definition same_resolution (alt_az_mask theta phi : list float) : list float :=
  alt_az_mask.
Definition no_smoothing (kernel : float) (r : reward_t) : py reward_t := Ok r.
Definition catalog_order (ra de : list float) (mjd lmst : float) : list nat :=
  seq 0 (length ra).

(** A dark hour with the filters u, g, r, i and z mounted, six hours before
    twilight. *)
Definition dark_hour : features :=
  {| mounted_filters := ["u"; "g"; "r"; "i"; "z"]%string;
     next_twilight_start := 59000.5; mjd := 59000.25; sunAlt := -0.5; lmst := 3;
     current_filter := "r"; alt := replicate 12 1; az := replicate 12 2 |}.

(** The same hour with no filter mounted. *)
Definition no_filter : features :=
  {| mounted_filters := [];
     next_twilight_start := 59000.5; mjd := 59000.25; sunAlt := -0.5; lmst := 3;
     current_filter := "r"; alt := replicate 12 1; az := replicate 12 2 |}.

(** A catalog of twelve fields. *)
Definition twelve_fields : field_table :=
  {| fields_RA := [0; 1; 2; 3; 4; 5; 6; 7; 8; 9; 10; 11];
     fields_dec := [0; -1; -2; -3; -4; -5; -6; -7; -8; -9; -10; -11];
     fields_field_id := [0; 1; 2; 3; 4; 5; 6; 7; 8; 9; 10; 11]%Z |}.

(** A basis function that returns the same masked array whatever the cells
    asked for. *)
Definition constant_map (d : list float) (k : list bool) : basis_function :=
  fun _ => BMasked {| data := d; mask := k |}.

(** ** Block_survey *)

Module Block_survey.

Record t : Type := {
  (* set by __init__ *)
  basis_functions : list basis_function;
  basis_weights : list float;
  extra_features : features;
  filtername : string;
  filter2 : option string;
  filter_set : list string;
  filter2_set : list string;
  nside : nat;
  smoothing_kernel : option float;
  nvisit_block : nat;
  nexp : Z;
  exptime : float;
  hpids : list nat;
  time_needed : float;
  sun_alt_limit : float;
  alt_az_masks : list (list float);
  fields : field_table;
  hp2fields : list nat;          (* the field of every cell *)
  tag_fields : bool;
  tag_map : list Z;
  survey_note : string;
  (* changed by the methods *)
  counter : Z;
  reward_checked : bool;
  reward : reward_t;
  best_fields : option pointings (* absent until a feasible evaluation *)
}.

(** The survey with what an evaluation of the reward assigns. *)
Definition evaluated (s : t) (r : reward_t) (best : option pointings) : t :=
  {| basis_functions := basis_functions s; basis_weights := basis_weights s;
     extra_features := extra_features s; filtername := filtername s;
     filter2 := filter2 s; filter_set := filter_set s;
     filter2_set := filter2_set s; nside := nside s;
     smoothing_kernel := smoothing_kernel s; nvisit_block := nvisit_block s;
     nexp := nexp s; exptime := exptime s; hpids := hpids s;
     time_needed := time_needed s; sun_alt_limit := sun_alt_limit s;
     alt_az_masks := alt_az_masks s; fields := fields s;
     hp2fields := hp2fields s; tag_fields := tag_fields s;
     tag_map := tag_map s; survey_note := survey_note s;
     counter := counter s;
     reward_checked := true; reward := r; best_fields := best |}.

(** The survey after [self.counter += 1]. *)
Definition counted (s : t) : t :=
  {| basis_functions := basis_functions s; basis_weights := basis_weights s;
     extra_features := extra_features s; filtername := filtername s;
     filter2 := filter2 s; filter_set := filter_set s;
     filter2_set := filter2_set s; nside := nside s;
     smoothing_kernel := smoothing_kernel s; nvisit_block := nvisit_block s;
     nexp := nexp s; exptime := exptime s; hpids := hpids s;
     time_needed := time_needed s; sun_alt_limit := sun_alt_limit s;
     alt_az_masks := alt_az_masks s; fields := fields s;
     hp2fields := hp2fields s; tag_fields := tag_fields s;
     tag_map := tag_map s; survey_note := survey_note s;
     counter := (counter s + 1)%Z;
     reward_checked := reward_checked s; reward := reward s;
     best_fields := best_fields s |}.

(** [_check_feasability()]. *)
Definition _check_feasability (s : t) : bool :=
  let f := extra_features s in
  let filters_mounted := issubset (filter_set s) (mounted_filters f) in
  let filters_mounted :=
    match filter2 s with
    | Some _ => filters_mounted && issubset (filter2_set s) (mounted_filters f)
    | None => filters_mounted
    end in
  let available_time := next_twilight_start f - mjd f in
  if negb filters_mounted then false
  else if sun_alt_limit s <? sunAlt f then false
  else if available_time <? time_needed s then false
  else true.

(** [if np.any(np.isinf(self.reward)): self.reward = np.inf]; the test sees
    the cells that are not masked. *)
Definition any_isinf (m : masked_array) : bool :=
  existsb (fun b : bool => b)
          (zip_with (fun v (b : bool) => negb b && isinf v) (data m) (mask m)).

Definition collapse (r : reward_t) : reward_t :=
  match r with
  | Masked m => if any_isinf m then Scalar infinity else r
  | _ => r
  end.

(** The composite reward: the statements of [calc_reward_function] from
    [self.reward = 0] to the collapse. *)
Definition composite_reward (s : t) : py reward_t :=
  r <- weighted_sum (nside2npix (nside s)) (basis_functions s) (basis_weights s) ;;
  Ok (collapse r).

Section Methods.

(** [BaseSurvey.smooth_reward], which the class inherits; the base class is
    not part of the sources at hand.  Modelled from the spec: "a
    local-neighborhood averaging pass over the composite surface" (section 4.2),
    a function of the kernel and the surface. *)
Variable smooth_reward : float -> reward_t -> py reward_t.

(** [hp.get_interp_val(alt_az_mask, theta, phi)]. *)
Variable get_interp_val : list float -> list float -> list float -> list float.

(** Lines 563 to 589 of [__call__]: the alt/az of the pointings, their
    projection on a plane and the route [tsp_convex] finds through them, as a
    function of the RA and dec of the pointings, the MJD and the LMST. *)
Variable better_order_of : list float -> list float -> float -> float -> list nat.

(** [np.pi]. *)
Definition pi : float := 0x1.921fb54442d18p+1.

(** The data of [self.reward != hp.UNSEEN], as [np.where] reads it (the
    shorthand of [np.asarray(condition).nonzero()]): true under the mask. *)
Definition ne_UNSEEN (m : masked_array) : list bool :=
  zip_with (fun v (b : bool) => if b then true else negb (v =? UNSEEN))
           (data m) (mask m).

(** [self.reward*0 + hp.UNSEEN]. *)
Definition blank (m : masked_array) : masked_array :=
  {| data := zip_with (fun v (b : bool) => if b then v else v * 0 + UNSEEN)
                      (data m) (mask m);
     mask := mask m |}.

(** What the loop over the masks appends for one mask. *)
Record candidate : Type := {
  potential_pointing : pointings;
  potential_reward : float;
  potential_reward_map : masked_array
}.

(** The fields a mask reaches with a reward above negative infinity, and
    their rewards: [ufields] and [reward_by_field] after "toss any -inf". *)
Definition reachable (s : t) (m : masked_array) (good : list nat)
  : py (list nat * list float) :=
  hp <- take (hpids s) good ;;
  fields_ <- take (hp2fields s) hp ;;
  let ufields := unique_nat fields_ in
  let observed_hp := isin (hp2fields s) ufields in
  let binned := int_binned_stat (compress observed_hp (hp2fields s))
                                (compress observed_hp (filled m)) max_reject in
  let good_fields := where_ (map (fun r => neg_infinity <? r) (snd binned)) in
  ufields <- take (fst binned) good_fields ;;
  reward_by_field <- take (snd binned) good_fields ;;
  Ok (ufields, reward_by_field).

(** [good]: the cells the alt/az mask leaves, "unmasked in alt,az and reward
    function". *)
Definition good_cells (s : t) (m : masked_array) (alt_az_mask : list float)
  : py (list nat) :=
  let f := extra_features s in
  let mask_to_radec :=
    get_interp_val alt_az_mask (map (fun a => pi / 2 - a) (alt f)) (az f) in
  in_mask <- zip_same andb (ne_UNSEEN m) (map (fun x => 0 <? x) mask_to_radec) ;;
  Ok (where_ in_mask).

(** The fields of a mask and their rewards. *)
Definition mask_fields (s : t) (m : masked_array) (alt_az_mask : list float)
  : py (list nat * list float) :=
  good <- good_cells s m alt_az_mask ;; reachable s m good.

(** The body of [for alt_az_mask in self.alt_az_masks]. *)
Definition evaluate_mask (s : t) (m : masked_array) (alt_az_mask : list float)
  : py candidate :=
  good <- good_cells s m alt_az_mask ;;
  d <- take (data m) good ;;
  k <- take (mask m) good ;;
  d' <- put (data (blank m)) good d ;;
  k' <- put (mask (blank m)) good k ;;
  let reward_map := {| data := d'; mask := k' |} in
  fr <- reachable s m good ;;
  let (ufields, reward_by_field) := fr in
  if (length reward_by_field <? nvisit_block s)%nat then
    Ok {| potential_pointing := NoBlock; potential_reward := neg_infinity;
          potential_reward_map := reward_map |}
  else
    let field_order := top (nvisit_block s) reward_by_field in
    p <- take ufields field_order ;;
    r <- take reward_by_field field_order ;;
    Ok {| potential_pointing := Block p; potential_reward := np_sum r;
          potential_reward_map := reward_map |}.

(** [np.min(np.where(potential_rewards == np.max(potential_rewards))[0])]. *)
Definition best_blob_of (potential_rewards : list float) : py nat :=
  mx <- np_max potential_rewards ;;
  match where_ (map (fun r => r =? mx) potential_rewards) with
  | [] => Raise ValueError
  | i :: _ => Ok i
  end.

(** The surface the masks are tried on: the composite reward, smoothed when a
    kernel is set. *)
Definition surface (s : t) : py reward_t :=
  r <- composite_reward s ;;
  match smoothing_kernel s with
  | Some kernel => smooth_reward kernel r
  | None => Ok r
  end.

(** [calc_reward_function()]: the reward it returns and the survey it leaves. *)
Definition calc_reward_function (s : t) : py (reward_t * t) :=
  if _check_feasability s then
    r <- surface s ;;
    candidates <-
      match r with
      | Masked m => traverse (evaluate_mask s m) (alt_az_masks s)
      | Scalar _ =>
          match alt_az_masks s with [] => Ok [] | _ => Raise TypeError end
      | Plain _ =>
          match alt_az_masks s with [] => Ok [] | _ => Raise AttributeError end
      end ;;
    best_blob <- best_blob_of (map potential_reward candidates) ;;
    c <- getitem candidates best_blob ;;
    Ok (Masked (potential_reward_map c),
        evaluated s (Masked (potential_reward_map c))
                  (Some (potential_pointing c)))
  else
    Ok (Scalar neg_infinity, evaluated s (Scalar neg_infinity) (best_fields s)).

(** [np.unique(self.tag_map[np.where(self.hp2fields == field)])[0]], or 1
    when the fields are not tagged. *)
Definition tag_of (s : t) (field : nat) : py Z :=
  if tag_fields s then
    tags <- take (tag_map s) (where_ (map (Nat.eqb field) (hp2fields s))) ;;
    getitem (unique tags) 0
  else Ok 1%Z.

(** One turn of [for indx in better_order], on the fields [best]. *)
Definition emit (s : t) (best : list nat) (observations : list observation)
    (indx : nat) : py (list observation) :=
  field <- getitem best indx ;;
  tag <- tag_of s field ;;
  if (tag =? 0)%Z then Ok observations
  else
    ra <- getitem (fields_RA (fields s)) field ;;
    de <- getitem (fields_dec (fields s)) field ;;
    Ok (observations ++
        [{| Observation.RA := ra; Observation.dec := de;
            Observation.exptime := exptime s;
            Observation.filter := filtername s;
            Observation.rotSkyPos := 0; Observation.nexp := nexp s;
            Observation.note := survey_note s;
            Observation.field_id := (-1)%Z; Observation.survey_id := tag;
            Observation.block_id := counter s |}]).

Fixpoint emit_all (s : t) (best : list nat) (better_order : list nat)
    (observations : list observation) : py (list observation) :=
  match better_order with
  | [] => Ok observations
  | indx :: rest =>
      observations' <- emit s best observations indx ;;
      emit_all s best rest observations'
  end.


(** [for i in range(first, first + n): result[i]['note'] = n]. *)
Fixpoint tag_notes (n : string) (first count : nat) (result : list observation)
  : py (list observation) :=
  match count with
  | O => Ok result
  | S count' =>
      o <- getitem result first ;;
      tag_notes n (S first) count' (<[first := with_note n o]> result)
  end.

(** The end of [__call__]: one block, or the block in both filters. *)
Definition pair_up (s : t) (observations : list observation)
  : py (list observation) :=
  match filter2 s with
  | None => Ok observations
  | Some f2 =>
      let observations_paired := map (with_filter f2) observations in
      let result :=
        if String.eqb (current_filter (extra_features s)) f2
        then observations_paired ++ observations
        else observations ++ observations_paired in
      result <- tag_notes (survey_note s ++ ", a") 0 (nvisit_block s) result ;;
      tag_notes (survey_note s ++ ", b") (nvisit_block s) (nvisit_block s) result
  end.

(** [if not self.reward_checked: self.reward = self.calc_reward_function()]. *)
Definition settle (s : t) : py t :=
  if reward_checked s then Ok s
  else p <- calc_reward_function s ;; Ok (snd p).

(** [__call__()]. *)
Definition __call__ (s : t) : py (list observation * t) :=
  s <- settle s ;;
  let f := extra_features s in
  best <- match best_fields s with
          | Some b => Ok b
          | None => Raise AttributeError
          end ;;
  observations <-
    match best with
    | Block l =>
        ra <- take (fields_RA (fields s)) l ;;
        de <- take (fields_dec (fields s)) l ;;
        emit_all s l (better_order_of ra de (mjd f) (lmst f)) []
    | NoBlock =>
        ra <- getitem (fields_RA (fields s)) 0 ;;
        de <- getitem (fields_dec (fields s)) 0 ;;
        match better_order_of [ra] [de] (mjd f) (lmst f) with
        | [] => Ok []
        | _ :: _ => Raise TypeError
        end
    end ;;
  result <- pair_up s observations ;;
  Ok (result, counted s).

End Methods.

(** ** The fields of a mask *)

(** A field that a mask reaches came out with a reward above negative
    infinity, and has a cell whose reward is not the sentinel. *)
Lemma reachable_spec s m good uf rb :
  reachable s m good = Ok (uf, rb) ->
  length uf = length rb /\
  forall k f, uf !! k = Some f ->
    (exists r, rb !! k = Some r /\ (neg_infinity <? r) = true) /\
    exists c v, hp2fields s !! c = Some f /\ data m !! c = Some v /\
                mask m !! c = Some false /\ (v =? UNSEEN) = false.
Proof.
  unfold reachable. intros H.
  bind_ok H as hp Ehp. bind_ok H as fs Efs.
  bind_ok H as uf' Eu. bind_ok H as rb' Er. injection H as -> ->.
  set (ob := isin (hp2fields s) (unique_nat fs)) in *.
  set (ids := compress ob (hp2fields s)) in *.
  set (vals := compress ob (filled m)) in *.
  set (gf := where_ _) in *.
  apply take_ok_inv in Eu as [Lu Pu]. apply take_ok_inv in Er as [Lr Pr].
  split; [congruence|]. intros k f Hk.
  destruct (lookup_lt_is_Some_2 gf k) as [j Hj];
    [rewrite <- Lu; eapply lookup_lt_Some; eauto|].
  destruct (Pu k j Hj) as [Hu _]. destruct (Pr k j Hj) as [Hr _].
  rewrite Hk in Hu. symmetry in Hu.
  rewrite (int_binned_stat_lookup _ _ _ _ _ Hu) in Hr.
  assert (Habove : (neg_infinity <? max_reject (compress (map (Nat.eqb f) ids) vals))
                   = true).
  { assert (Hin : j ∈ gf) by (apply list_elem_of_lookup; eauto).
    unfold gf in Hin. apply elem_of_where in Hin.
    rewrite lookup_map, (int_binned_stat_lookup _ _ _ _ _ Hu) in Hin.
    simpl in Hin. congruence. }
  split; [eauto|].
  destruct (max_reject_above _ Habove) as (v & Hv & Hne).
  apply elem_of_compress in Hv as (i & Hi & Hvi).
  rewrite lookup_map in Hi. destruct (ids !! i) as [f'|] eqn:Ef; [|discriminate].
  simpl in Hi. injection Hi as Hi. apply Nat.eqb_eq in Hi. subst f'.
  destruct (compress_lookup_pair ob (hp2fields s) (filled m) i f v Ef Hvi)
    as (c & _ & Hc & Hfc).
  destruct (filled_not_UNSEEN m c v Hfc Hne) as [Hd Hm]. eauto 10.
Qed.

(** What one mask contributes: nothing but negative infinity when it reaches
    fewer than [nvisit_block] fields, and else the [nvisit_block] fields of
    largest reward with the sum of their rewards. *)
Lemma evaluate_mask_spec get_interp_val s m am cand :
  evaluate_mask get_interp_val s m am = Ok cand ->
  exists uf rb,
    mask_fields get_interp_val s m am = Ok (uf, rb) /\
    (((length rb < nvisit_block s)%nat /\
      potential_pointing cand = NoBlock /\ potential_reward cand = neg_infinity)
     \/
     ((nvisit_block s <= length rb)%nat /\
      exists p r,
        take uf (top (nvisit_block s) rb) = Ok p /\
        take rb (top (nvisit_block s) rb) = Ok r /\
        potential_pointing cand = Block p /\ potential_reward cand = np_sum r)).
Proof.
  unfold evaluate_mask, mask_fields. intros H.
  bind_ok H as good Eg. rewrite Eg. cbn [py_bind].
  bind_ok H as d Ed. bind_ok H as k Ek. bind_ok H as d' Ed'. bind_ok H as k' Ek'.
  bind_ok H as fr Efr. destruct fr as [uf rb]. rewrite Efr.
  exists uf, rb. split; [reflexivity|].
  destruct (Nat.ltb_spec (length rb) (nvisit_block s)).
  - injection H as <-. left. auto.
  - right. split; [assumption|].
    bind_ok H as p Ep. bind_ok H as r Er. injection H as <-.
    exists p, r. repeat split; assumption.
Qed.


(** ** The pointings of a block *)



(** ** A feasible evaluation *)

(** A feasible evaluation that returns has tried every mask on a masked
    surface and kept the candidate of the mask it picked. *)
Lemma calc_feasible smooth_reward get_interp_val s r s' :
  _check_feasability s = true ->
  calc_reward_function smooth_reward get_interp_val s = Ok (r, s') ->
  exists m cands b cb,
    surface smooth_reward s = Ok (Masked m) /\
    traverse (evaluate_mask get_interp_val s m) (alt_az_masks s) = Ok cands /\
    best_blob_of (map potential_reward cands) = Ok b /\
    cands !! b = Some cb /\
    r = Masked (potential_reward_map cb) /\
    s' = evaluated s r (Some (potential_pointing cb)).
Proof.
  unfold calc_reward_function. intros -> H.
  bind_ok H as rs Ers. bind_ok H as cands Ec. bind_ok H as b Eb.
  bind_ok H as cb Ecb. injection H as <- <-.
  unfold getitem in Ecb. destruct (cands !! b) as [c|] eqn:Eb'; [|discriminate].
  injection Ecb as ->.
  destruct rs as [x|d|m].
  - destruct (alt_az_masks s); [|discriminate]. injection Ec as <-. discriminate.
  - destruct (alt_az_masks s); [|discriminate]. injection Ec as <-. discriminate.
  - exists m, cands, b, cb. repeat split; assumption.
Qed.

(** ** Emitting a stored block *)



(** ** A block survey of twelve cells *)

(** Blocks of [nvisit_block] fields in one filter, on a map of twelve cells
    with the field of every cell and, for a survey that tags, the tag of
    every cell. *)
Definition example (bfs : list basis_function) (ws : list float)
    (f : features) (masks : list (list float)) (n : nat)
    (cell_fields : list nat) (tags : option (list Z)) : t :=
  {| basis_functions := bfs; basis_weights := ws; extra_features := f;
     filtername := "r"; filter2 := None; filter_set := set_of_string "r";
     filter2_set := set_of_string "r"; nside := 1; smoothing_kernel := None;
     nvisit_block := n; nexp := 2; exptime := 30; hpids := seq 0 12;
     time_needed := 0.015625; sun_alt_limit := -0.25;
     alt_az_masks := masks;
     fields := twelve_fields; hp2fields := cell_fields;
     tag_fields := match tags with Some _ => true | None => false end;
     tag_map := match tags with Some l => l | None => [] end;
     survey_note := "block";
     counter := 1; reward_checked := false; reward := Scalar 0;
     best_fields := None |}.

Definition whole_sky : list float := replicate 12 1.

(** ** The override *)

Lemma any_isinf_spec m :
  any_isinf m = true <->
  exists c v, data m !! c = Some v /\ mask m !! c = Some false /\ isinf v = true.
Proof.
  unfold any_isinf. rewrite existsb_exists. split.
  - intros (b & Hb & ->). apply list_elem_of_In in Hb.
    apply elem_of_lookup_zip_with in Hb as (c & v & k & E & Hv & Hk).
    symmetry in E. apply andb_true_iff in E as [Ek Ev].
    apply negb_true_iff in Ek. subst k. eauto.
  - intros (c & v & Hv & Hk & Hi). exists true. split; [|reflexivity].
    apply list_elem_of_In. apply elem_of_lookup_zip_with.
    exists c, v, false. rewrite Hi. auto.
Qed.

(** The surface becomes the number [np.inf] exactly when a cell that is not
    masked holds an infinity, of either sign. *)
Lemma collapse_spec m :
  (collapse (Masked m) = Scalar infinity <->
   exists c v, data m !! c = Some v /\ mask m !! c = Some false /\ isinf v = true)
  /\ (collapse (Masked m) = Scalar infinity \/ collapse (Masked m) = Masked m).
Proof.
  unfold collapse. rewrite <- any_isinf_spec.
  destruct (any_isinf m); split; auto; split; auto; discriminate.
Qed.

(** A unit that gives cell 0 the worst possible value and the other cells 0. *)
Definition worst_at_0 : basis_function :=
  constant_map [neg_infinity; 0; 0; 0; 0; 0; 0; 0; 0; 0; 0; 0]
               (replicate 12 false).

Definition worst_example : t :=
  example [worst_at_0] [1] dark_hour [whole_sky] 1 (seq 0 12) None.

(** C4: the surface should collapse to positive infinity exactly when a cell
    is positively infinite.  With one cell at negative infinity and none at
    positive infinity the sum is a surface without positive infinity, and the
    composite reward is the number [np.inf] all the same; the rest of
    [calc_reward_function] then subscripts that number and raises. *)
Theorem C4_negative_infinity_collapses smooth_reward get_interp_val :
  _check_feasability worst_example = true /\
  weighted_sum 12 [worst_at_0] [1]
  = Ok (Masked {| data := [neg_infinity; 0; 0; 0; 0; 0; 0; 0; 0; 0; 0; 0];
                  mask := replicate 12 false |}) /\
  composite_reward worst_example = Ok (Scalar infinity) /\
  calc_reward_function smooth_reward get_interp_val worst_example
  = Raise TypeError.
Proof. repeat split; vm_compute; reflexivity. Qed.

(** ** The gate *)


(** An evaluation leaves the survey as it was, but for the three attributes
    it assigns. *)
Lemma calc_evaluated smooth_reward get_interp_val s r s' :
  calc_reward_function smooth_reward get_interp_val s = Ok (r, s') ->
  exists best, s' = evaluated s r best.
Proof.
  unfold calc_reward_function. intros H.
  destruct (_check_feasability s).
  - repeat match type of H with
    | py_bind ?c _ = Ok _ => destruct c; simpl in H; [|discriminate]
    end.
    injection H as <- <-. eauto.
  - injection H as <- <-. eauto.
Qed.

(** Evaluating again changes nothing: the evaluation reads none of the
    attributes it assigns. *)
Lemma calc_idempotent smooth_reward get_interp_val s r s' :
  calc_reward_function smooth_reward get_interp_val s = Ok (r, s') ->
  calc_reward_function smooth_reward get_interp_val s' = Ok (r, s').
Proof.
  intros H. destruct (calc_evaluated _ _ _ _ _ H) as [best ->].
  revert H. unfold calc_reward_function.
  change (_check_feasability (evaluated s r best)) with (_check_feasability s).
  destruct (_check_feasability s).
  - exact (fun H => H).
  - intros H. inversion H; subst. reflexivity.
Qed.

(** ** The claims on the masked block *)

(** The state of the loop over the basis functions before its first turn. *)
Definition loop_start (s : t) : loop_state :=
  {| ls_reward := Scalar 0; ls_indx := seq 0 (nside2npix (nside s));
     ls_mask := replicate (nside2npix (nside s)) false |}.

(** A unit that returns the sentinel at cell 0, on a map whose cells go two
    by two to six fields: the field of cell 0 is also the field of cell 1,
    the best cell of the map. *)
Definition sentinel_at_0 : basis_function :=
  constant_map [UNSEEN; 5; 1; 1; 1; 1; 1; 1; 1; 1; 1; 1] (replicate 12 false).

Definition sentinel_example : t :=
  example [sentinel_at_0] [1] dark_hour [whole_sky] 1
          [0; 0; 1; 1; 2; 2; 3; 3; 4; 4; 5; 5]%nat None.

(** The composite reward holds the sentinel at cell 0, and the block that is
    selected and emitted is the field of cell 0. *)
Lemma C2_field_of_sentinel_cell_selected :
  exists m s' obs s'',
    composite_reward sentinel_example = Ok (Masked m) /\
    data m !! 0%nat = Some UNSEEN /\
    hp2fields sentinel_example !! 0%nat = Some 0%nat /\
    calc_reward_function no_smoothing same_resolution sentinel_example
    = Ok (Masked m, s') /\
    best_fields s' = Some (Block [0%nat]) /\
    __call__ no_smoothing same_resolution catalog_order sentinel_example
    = Ok (obs, s'') /\
    map Observation.RA obs = [0] /\
    fields_RA (fields sentinel_example) !! 0%nat = Some 0.
Proof.
  do 4 eexists. repeat split; vm_compute; reflexivity.
Qed.

(** C2, as the code has it: on a feasible tick that returns, a cell that a
    scoring unit marks (sentinel value or mask) in the loop holds the sentinel
    and is masked in the weighted sum, whatever the other units and the weights
    are; and, without smoothing, every field of the selected block has a cell
    that is not masked and does not hold the sentinel.  (The field of a
    sentinel cell is selected when another of its cells carries it.) *)
Theorem C2_sentinel_cells_stay_sentinel smooth_reward get_interp_val s r s' :
  _check_feasability s = true ->
  calc_reward_function smooth_reward get_interp_val s = Ok (r, s') ->
  exists m,
    weighted_sum (nside2npix (nside s)) (basis_functions s) (basis_weights s)
    = Ok (Masked m) /\
    (forall pre bf w post stm c,
       zip (basis_functions s) (basis_weights s) = pre ++ (bf, w) :: post ->
       basis_loop pre (loop_start s) = Ok stm ->
       flagged (bf (ls_indx stm)) c ->
       data m !! c = Some UNSEEN /\ mask m !! c = Some true) /\
    (smoothing_kernel s = None ->
     composite_reward s = Ok (Masked m) /\
     forall l f, best_fields s' = Some (Block l) -> f ∈ l ->
       exists c v, hp2fields s !! c = Some f /\ data m !! c = Some v /\
                   mask m !! c = Some false /\ (v =? UNSEEN) = false).
Proof.
  intros Hgate Hcalc.
  destruct (calc_feasible _ _ _ _ _ Hgate Hcalc)
    as (m' & cands & b & cb & Hsurf & Hc & Hb & Hcb & -> & ->).
  unfold surface in Hsurf. bind_ok Hsurf as rc Erc.
  unfold composite_reward in Erc. bind_ok Erc as r0 Er0. injection Erc as <-.
  destruct (weighted_sum_spec _ _ _ _ Er0) as (m & st & -> & Hloop & Hm & _ & _ & Hu).
  exists m. split; [exact Er0|]. split.
  - intros pre bf w post stm c Hz Hpre Hf.
    destruct (basis_loop_mask _ _ _ Hloop) as (_ & _ & F).
    assert (Hc' : mask m !! c = Some true)
      by (rewrite Hm; exact (F pre bf w post stm c Hz Hpre Hf)).
    split; [apply Hu; exact Hc' | exact Hc'].
  - intros Hk. rewrite Hk in Hsurf.
    destruct (proj2 (collapse_spec m)) as [E|E]; rewrite E in Hsurf;
      [discriminate|]. injection Hsurf as <-.
    split; [unfold composite_reward; rewrite Er0; cbn [py_bind]; rewrite E;
            reflexivity|].
    intros l f Hbest Hf. simpl in Hbest. injection Hbest as Hbest.
    destruct (traverse_ok_lookup_inv _ _ _ _ _ Hc Hcb) as (am & _ & Ham).
    destruct (evaluate_mask_spec _ _ _ _ _ Ham)
      as (uf & rb & Hmf & [(_ & Hp & _)|(_ & p & rs & Hp & _ & Hbp & _)]);
      [congruence|].
    assert (p = l) by congruence. subst p.
    apply list_elem_of_lookup in Hf as [k Hk'].
    destruct (take_ok_inv _ _ _ Hp) as [Lp Pp].
    destruct (lookup_lt_is_Some_2 (top (nvisit_block s) rb) k) as [j Hj];
      [rewrite <- Lp; eapply lookup_lt_Some; eauto|].
    destruct (Pp k j Hj) as [Huf _]. rewrite Hk' in Huf. symmetry in Huf.
    unfold mask_fields in Hmf. bind_ok Hmf as good Eg.
    destruct (reachable_spec _ _ _ _ _ Hmf) as [_ R].
    destruct (R j f Huf) as [_ Hcell]. exact Hcell.
Qed.

Lemma C2_sentinel_cells_witness :
  exists m,
    weighted_sum 12 [sentinel_at_0] [1] = Ok (Masked m) /\
    data m !! 0%nat = Some UNSEEN /\ mask m !! 0%nat = Some true.
Proof.
  edestruct (C2_sentinel_cells_stay_sentinel no_smoothing same_resolution
               sentinel_example) as (m & Hw & Hflag & _).
  - vm_compute. reflexivity.
  - vm_compute. reflexivity.
  - exists m. split; [exact Hw|].
    apply (Hflag [] sentinel_at_0 1 [] (loop_start sentinel_example) 0%nat).
    + reflexivity.
    + reflexivity.
    + right. exists UNSEEN. split; [reflexivity|].
      split; [vm_compute; reflexivity|]. exists false. reflexivity.
Defined.

(** Two masks on twelve fields, one per cell: mask A leaves the ten fields 0
    to 9, whose five best rewards 8, 9, 10, 11 and 12 add up to 50; mask B
    leaves the three fields 9, 10 and 11; a block is five fields. *)
Definition mask_A : list float := [1; 1; 1; 1; 1; 1; 1; 1; 1; 1; 0; 0].
Definition mask_B : list float := [0; 0; 0; 0; 0; 0; 0; 0; 0; 1; 1; 1].

Definition rising : basis_function :=
  constant_map [1; 2; 3; 4; 5; 8; 9; 10; 11; 12; 3; 3] (replicate 12 false).

Definition two_masks (tags : option (list Z)) : t :=
  example [rising] [1] dark_hour [mask_A; mask_B] 5 (seq 0 12) tags.

(** ** A later tick *)

(** Modelled from the spec: the update of a survey with a new snapshot, which
    invalidates the reward cached for the tick so that the next request
    computes it again ([BaseSurvey.update_conditions], which the class
    inherits and which is not part of the sources at hand).  The features
    read the new conditions and the reward is no longer checked; the block of
    an earlier evaluation stays where it is. *)
Definition update_conditions (s : t) (f : features) : t :=
  {| basis_functions := basis_functions s; basis_weights := basis_weights s;
     extra_features := f; filtername := filtername s;
     filter2 := filter2 s; filter_set := filter_set s;
     filter2_set := filter2_set s; nside := nside s;
     smoothing_kernel := smoothing_kernel s; nvisit_block := nvisit_block s;
     nexp := nexp s; exptime := exptime s; hpids := hpids s;
     time_needed := time_needed s; sun_alt_limit := sun_alt_limit s;
     alt_az_masks := alt_az_masks s; fields := fields s;
     hp2fields := hp2fields s; tag_fields := tag_fields s;
     tag_map := tag_map s; survey_note := survey_note s;
     counter := counter s;
     reward_checked := false; reward := reward s;
     best_fields := best_fields s |}.

(** The survey [__call__] works on when the gate is closed: the survey itself
    when the reward was checked, the survey with the reward of a closed gate
    otherwise.  The stored block is the same in both. *)
Definition settled_infeasible (s : t) : t :=
  if reward_checked s then s
  else evaluated s (Scalar neg_infinity) (best_fields s).




(** The survey of the two masks one tick after a feasible evaluation, when no
    filter is mounted any more. *)
Definition stale_example : t :=
  match calc_reward_function no_smoothing same_resolution (two_masks None) with
  | Ok (_, s1) => update_conditions s1 no_filter
  | Raise _ => two_masks None
  end.

End Block_survey.

(** ** Vary_expt_survey *)

Module Vary_expt_survey.

(** [self.block_time]: the ideal pair time, or the array that
    [possible_times[np.where(diff == np.min(diff))]] is. *)
Inductive block_time_t : Type :=
  | OneTime (x : float)
  | Times (l : list float).

Record t : Type := {
  (* set by __init__ *)
  basis_functions : list basis_function;
  basis_weights : list float;
  extra_features : features;
  filter1_m5diff : list float;          (* extra_basis_functions['filter1_m5diff']() *)
  filter2_m5diff : option (list float); (* present when filter2 is not None *)
  filtername : string;
  filter2 : option string;
  filter_set : list string;
  filter2_set : list string;
  nside : nat;
  smoothing_kernel : option float;
  nexp : Z;
  min_exptime : float;
  max_exptime : float;
  slew_approx : float;
  read_approx : float;
  hpids : list nat;
  time_needed : float;
  sun_alt_limit : float;
  ra : list float;
  dec : list float;
  fields : field_table;
  hp2fields : list nat;
  tag_fields : bool;
  tag_map : list Z;
  survey_note : string;
  search_radius : float;
  az_range : float;
  alt_max : float;
  ideal_pair_time : float;
  (* changed by the methods *)
  counter : Z;
  reward_checked : bool;
  reward : reward_t;
  block_time : option block_time_t;
  best_fields : option (list nat);
  exptimes_f1 : option (list float);
  exptimes_f2 : option (list float)
}.

(** The survey with what an evaluation of the reward assigns. *)
Definition evaluated (s : t) (bt : block_time_t) (r : reward_t)
    (best : option (list nat)) (e1 e2 : option (list float)) : t :=
  {| basis_functions := basis_functions s; basis_weights := basis_weights s;
     extra_features := extra_features s;
     filter1_m5diff := filter1_m5diff s; filter2_m5diff := filter2_m5diff s;
     filtername := filtername s; filter2 := filter2 s;
     filter_set := filter_set s; filter2_set := filter2_set s;
     nside := nside s; smoothing_kernel := smoothing_kernel s;
     nexp := nexp s; min_exptime := min_exptime s; max_exptime := max_exptime s;
     slew_approx := slew_approx s; read_approx := read_approx s;
     hpids := hpids s; time_needed := time_needed s;
     sun_alt_limit := sun_alt_limit s; ra := ra s; dec := dec s;
     fields := fields s; hp2fields := hp2fields s;
     tag_fields := tag_fields s; tag_map := tag_map s;
     survey_note := survey_note s; search_radius := search_radius s;
     az_range := az_range s; alt_max := alt_max s;
     ideal_pair_time := ideal_pair_time s;
     counter := counter s;
     reward_checked := true; reward := r; block_time := Some bt;
     best_fields := best; exptimes_f1 := e1; exptimes_f2 := e2 |}.

(** The survey after [self.counter += 1]. *)
Definition counted (s : t) : t :=
  {| basis_functions := basis_functions s; basis_weights := basis_weights s;
     extra_features := extra_features s;
     filter1_m5diff := filter1_m5diff s; filter2_m5diff := filter2_m5diff s;
     filtername := filtername s; filter2 := filter2 s;
     filter_set := filter_set s; filter2_set := filter2_set s;
     nside := nside s; smoothing_kernel := smoothing_kernel s;
     nexp := nexp s; min_exptime := min_exptime s; max_exptime := max_exptime s;
     slew_approx := slew_approx s; read_approx := read_approx s;
     hpids := hpids s; time_needed := time_needed s;
     sun_alt_limit := sun_alt_limit s; ra := ra s; dec := dec s;
     fields := fields s; hp2fields := hp2fields s;
     tag_fields := tag_fields s; tag_map := tag_map s;
     survey_note := survey_note s; search_radius := search_radius s;
     az_range := az_range s; alt_max := alt_max s;
     ideal_pair_time := ideal_pair_time s;
     counter := (counter s + 1)%Z;
     reward_checked := reward_checked s; reward := reward s;
     block_time := block_time s; best_fields := best_fields s;
     exptimes_f1 := exptimes_f1 s; exptimes_f2 := exptimes_f2 s |}.

(** [np.min] of an array that is not empty. *)
Definition minimum (x y : float) : float :=
  if is_nan x then x else if is_nan y then y else if y <? x then y else x.

(** [_set_block_time()]: the value it gives [self.block_time]. *)
Definition _set_block_time (s : t) : block_time_t :=
  let f := extra_features s in
  let available_time := (next_twilight_start f - mjd f) * (24 * 60) in
  let n_ideal_blocks := available_time / ideal_pair_time s in
  if 3 <=? n_ideal_blocks then OneTime (ideal_pair_time s)
  else
    let possible_times := map (fun k => available_time / k) [1; 2; 3] in
    let diff := map (fun p => abs (ideal_pair_time s - p)) possible_times in
    let least := fold_left minimum (tl diff) (hd 0 diff) in
    Times (compress (map (fun d => d =? least) diff) possible_times).

(** [_check_feasability()]. *)
Definition _check_feasability (s : t) : bool :=
  let f := extra_features s in
  let filters_mounted := issubset (filter_set s) (mounted_filters f) in
  let filters_mounted :=
    match filter2 s with
    | Some _ => filters_mounted && issubset (filter2_set s) (mounted_filters f)
    | None => filters_mounted
    end in
  let available_time := next_twilight_start f - mjd f in
  if negb filters_mounted then false
  else if sun_alt_limit s <? sunAlt f then false
  else if available_time <? time_needed s then false
  else true.

(** [self.reward[idx] = hp.UNSEEN]: the value is written and the cell is no
    longer masked. *)
Definition set_unseen (m : masked_array) (idx : list nat) : py masked_array :=
  d <- put_scalar (data m) idx UNSEEN ;;
  k <- put_scalar (mask m) idx false ;;
  Ok {| data := d; mask := k |}.

(** [np.min(np.where(self.reward == np.max(self.reward))[0])]: the maximum is
    taken over the cells that are not masked. *)
Definition peak_of (m : masked_array) : py nat :=
  mx <- np_max (compress (map negb (mask m)) (data m)) ;;
  match where_ (zip_with (fun v (b : bool) => if b then false else v =? mx)
                         (data m) (mask m)) with
  | [] => Raise ValueError
  | i :: _ => Ok i
  end.

(** An integer in a float expression. *)
Definition float_of_Z (z : Z) : float :=
  if (z <? 0)%Z then - of_uint63 (Uint63.of_Z (- z))
  else of_uint63 (Uint63.of_Z z).

(** [np.mean]. *)
Definition np_mean (a : list float) : float :=
  np_sum a / float_of_Z (Z.of_nat (length a)).

(** [np.cumsum]. *)
Fixpoint cumsum_from (acc : float) (a : list float) : list float :=
  match a with
  | [] => []
  | x :: a' => (acc + x) :: cumsum_from (acc + x) a'
  end.
Definition cumsum (a : list float) : list float :=
  match a with
  | [] => []
  | x :: a' => x :: cumsum_from x a'
  end.

(** [elapsed_sec/60. <= self.block_time], with numpy's broadcasting. *)
Definition within_block (elapsed_sec : list float) (bt : block_time_t)
  : py (list bool) :=
  match bt with
  | OneTime b => Ok (map (fun e => e / 60 <=? b) elapsed_sec)
  | Times [b] => Ok (map (fun e => e / 60 <=? b) elapsed_sec)
  | Times l =>
      match elapsed_sec with
      | [e] => Ok (map (fun b => e / 60 <=? b) l)
      | _ => zip_same (fun e b => e / 60 <=? b) elapsed_sec l
      end
  end.

(** What a feasible evaluation works out. *)
Record selection : Type := {
  sel_reward : masked_array;
  sel_best_fields : list nat;
  sel_exptimes_f1 : list float;
  sel_exptimes_f2 : option (list float)
}.

Section Methods.

(** [BaseSurvey.smooth_reward]; see [Block_survey]. *)
Variable smooth_reward : float -> reward_t -> py reward_t.

(** [haversine(ra1, dec1, ra2, dec2)], the second point an array. *)
Variable haversine : float -> float -> list float -> list float -> list float.

(** [utils.scale_exptime(m5diff, min_exptime, max_exptime)]. *)
Variable scale_exptime : list float -> float -> float -> list float.

(** Lines 1096 to 1122 of [__call__]; see [Block_survey]. *)
Variable better_order_of : list float -> list float -> float -> float -> list nat.

Definition two_pi : float := 2 * Block_survey.pi.

(** The statements of the feasible branch from the altitude cut on.  With a
    second filter, [ufields] is bound once more to the fields in the order of
    their ids, and the statement [m5_filter2_by_field[order][::-1]] is
    evaluated for nothing. *)
Definition select (s : t) (bt : block_time_t) (m : masked_array)
  : py selection :=
  let f := extra_features s in
  let too_high := where_ (map (fun a => alt_max s <? a) (alt f)) in
  m <- set_unseen m too_high ;;
  peak_reward <- peak_of m ;;
  ra_peak <- getitem (ra s) peak_reward ;;
  dec_peak <- getitem (dec s) peak_reward ;;
  let dists := haversine ra_peak dec_peak (ra s) (dec s) in
  let out_hp := where_ (map (fun d => search_radius s <? d) dists) in
  m <- set_unseen m out_hp ;;
  az_peak <- getitem (az f) peak_reward ;;
  let az_centered :=
    map (fun a => let d := a - az_peak in if d <? 0 then d + two_pi else d)
        (az f) in
  let az_out :=
    where_ (map (fun a => (az_range s / 2 <? a) && (a <? two_pi - az_range s / 2))
                az_centered) in
  m <- set_unseen m az_out ;;
  let potential_hp := where_ (map (fun v => negb (v =? UNSEEN)) (filled m)) in
  ids <- take (hp2fields s) potential_hp ;;
  vals <- take (filled m) potential_hp ;;
  let binned := int_binned_stat ids vals max_reject in
  m5 <- take (filter1_m5diff s) potential_hp ;;
  let m5_filter1_by_field := snd (int_binned_stat ids m5 np_mean) in
  let order := argsort (snd binned) in
  ufields <- take (fst binned) order ;;
  let ufields := reverse ufields in
  m5_filter1_by_field <- take m5_filter1_by_field order ;;
  let m5_filter1_by_field := reverse m5_filter1_by_field in
  let exptime_f1 :=
    scale_exptime m5_filter1_by_field (min_exptime s) (max_exptime s) in
  let overhead :=
    map (fun _ => 0 + slew_approx s + read_approx s * float_of_Z (nexp s - 1))
        exptime_f1 in
  sums <- zip_same add exptime_f1 overhead ;;
  let elapsed_sec := cumsum sums in
  inside <- within_block elapsed_sec bt ;;
  max_indx <- match last (where_ inside) with
              | Some i => Ok i
              | None => Raise ValueError
              end ;;
  second <- match filter2 s with
            | None => Ok (ufields, None)
            | Some _ =>
                v <- match filter2_m5diff s with
                     | Some v => Ok v
                     | None => Raise KeyError
                     end ;;
                m5' <- take v potential_hp ;;
                let binned2 := int_binned_stat ids m5' np_mean in
                let m5_filter2_by_field := snd binned2 in
                _ <- take m5_filter2_by_field order ;;
                Ok (fst binned2,
                    Some (firstn (S max_indx)
                            (scale_exptime m5_filter2_by_field
                                           (min_exptime s) (max_exptime s))))
            end ;;
  Ok {| sel_reward := m;
        sel_best_fields := firstn (S max_indx) (fst second);
        sel_exptimes_f1 := firstn (S max_indx) exptime_f1;
        sel_exptimes_f2 := snd second |}.

(** [calc_reward_function()]: the reward it returns and the survey it leaves. *)
Definition calc_reward_function (s : t) : py (reward_t * t) :=
  let bt := _set_block_time s in
  if _check_feasability s then
    r <- weighted_sum (nside2npix (nside s)) (basis_functions s) (basis_weights s) ;;
    r <- match smoothing_kernel s with
         | Some kernel => smooth_reward kernel r
         | None => Ok r
         end ;;
    sel <- match r with
           | Masked m => select s bt m
           | Plain _ => Raise AttributeError
           | Scalar _ => Raise TypeError
           end ;;
    Ok (Masked (sel_reward sel),
        evaluated s bt (Masked (sel_reward sel)) (Some (sel_best_fields sel))
                  (Some (sel_exptimes_f1 sel))
                  (match sel_exptimes_f2 sel with
                   | Some e => Some e
                   | None => exptimes_f2 s
                   end))
  else
    Ok (Scalar neg_infinity,
        evaluated s bt (Scalar neg_infinity) (best_fields s)
                  (exptimes_f1 s) (exptimes_f2 s)).

(** The tag of a field; see [Block_survey]. *)
Definition tag_of (s : t) (field : nat) : py Z :=
  if tag_fields s then
    tags <- take (tag_map s) (where_ (map (Nat.eqb field) (hp2fields s))) ;;
    getitem (unique tags) 0
  else Ok 1%Z.

Definition attribute {A} (a : option A) : py A :=
  match a with
  | Some x => Ok x
  | None => Raise AttributeError
  end.

(** One turn of [for indx in better_order]. *)
Definition emit (s : t) (best : list nat) (observations : list observation)
    (indx : nat) : py (list observation) :=
  field <- getitem best indx ;;
  tag <- tag_of s field ;;
  if (tag =? 0)%Z then Ok observations
  else
    r <- getitem (fields_RA (fields s)) field ;;
    d <- getitem (fields_dec (fields s)) field ;;
    e1 <- attribute (exptimes_f1 s) ;;
    e <- getitem e1 indx ;;
    Ok (observations ++
        [{| Observation.RA := r; Observation.dec := d;
            Observation.exptime := e;
            Observation.filter := filtername s;
            Observation.rotSkyPos := 0; Observation.nexp := nexp s;
            Observation.note := survey_note s ++ ", a";
            Observation.field_id := (-1)%Z; Observation.survey_id := tag;
            Observation.block_id := counter s |}]).

Fixpoint emit_all (s : t) (best : list nat) (better_order : list nat)
    (observations : list observation) : py (list observation) :=
  match better_order with
  | [] => Ok observations
  | indx :: rest =>
      observations' <- emit s best observations indx ;;
      emit_all s best rest observations'
  end.

Definition with_exptime (e : float) (o : observation) : observation :=
  {| Observation.RA := Observation.RA o; Observation.dec := Observation.dec o;
     Observation.exptime := e; Observation.filter := Observation.filter o;
     Observation.rotSkyPos := Observation.rotSkyPos o;
     Observation.nexp := Observation.nexp o;
     Observation.note := Observation.note o;
     Observation.field_id := Observation.field_id o;
     Observation.survey_id := Observation.survey_id o;
     Observation.block_id := Observation.block_id o |}.

(** [for i, observation in enumerate(observations)], from position [i] on. *)
Fixpoint pair_from (s : t) (f2 : string) (better_order : list nat) (i : nat)
    (observations : list observation) : py (list observation) :=
  match observations with
  | [] => Ok []
  | o :: rest =>
      e2 <- attribute (exptimes_f2 s) ;;
      indx <- getitem better_order i ;;
      e <- getitem e2 indx ;;
      rest' <- pair_from s f2 better_order (S i) rest ;;
      Ok (with_note (survey_note s ++ ", b") (with_exptime e (with_filter f2 o))
          :: rest')
  end.

Definition pair_up (s : t) (better_order : list nat)
    (observations : list observation) : py (list observation) :=
  match filter2 s with
  | None => Ok observations
  | Some f2 =>
      observations_paired <- pair_from s f2 better_order 0 observations ;;
      if String.eqb (current_filter (extra_features s)) f2
      then Ok (observations_paired ++ observations)
      else Ok (observations ++ observations_paired)
  end.

(** [if not self.reward_checked: self.reward = self.calc_reward_function()]. *)
Definition settle (s : t) : py t :=
  if reward_checked s then Ok s
  else p <- calc_reward_function s ;; Ok (snd p).

(** [__call__()]. *)
Definition __call__ (s : t) : py (list observation * t) :=
  s <- settle s ;;
  let f := extra_features s in
  best <- attribute (best_fields s) ;;
  r <- take (fields_RA (fields s)) best ;;
  d <- take (fields_dec (fields s)) best ;;
  let better_order := better_order_of r d (mjd f) (lmst f) in
  observations <- emit_all s best better_order [] ;;
  result <- pair_up s better_order observations ;;
  Ok (result, counted s).

End Methods.

(** ** The gate, and evaluating twice *)


(** An evaluation reads none of the attributes an earlier one assigned, but
    for [exptimes_f2], which an evaluation in one filter leaves as it is. *)
Lemma calc_after_evaluated smooth_reward haversine scale_exptime s bt0 r0 b e1 e2 :
  calc_reward_function smooth_reward haversine scale_exptime
    (evaluated s bt0 r0 b e1 e2)
  = let bt := _set_block_time s in
    if _check_feasability s then
      r <- weighted_sum (nside2npix (nside s)) (basis_functions s)
             (basis_weights s) ;;
      r <- match smoothing_kernel s with
           | Some kernel => smooth_reward kernel r
           | None => Ok r
           end ;;
      sel <- match r with
             | Masked m => select haversine scale_exptime s bt m
             | Plain _ => Raise AttributeError
             | Scalar _ => Raise TypeError
             end ;;
      Ok (Masked (sel_reward sel),
          evaluated s bt (Masked (sel_reward sel)) (Some (sel_best_fields sel))
                    (Some (sel_exptimes_f1 sel))
                    (match sel_exptimes_f2 sel with
                     | Some e => Some e
                     | None => e2
                     end))
    else
      Ok (Scalar neg_infinity, evaluated s bt (Scalar neg_infinity) b e1 e2).
Proof. reflexivity. Qed.

(** Evaluating again changes nothing. *)
Lemma calc_idempotent_vary smooth_reward haversine scale_exptime s r s' :
  calc_reward_function smooth_reward haversine scale_exptime s = Ok (r, s') ->
  calc_reward_function smooth_reward haversine scale_exptime s' = Ok (r, s').
Proof.
  intros H. pose proof H as H0. unfold calc_reward_function in H.
  destruct (_check_feasability s) eqn:G.
  - bind_ok H as r0 E0. bind_ok H as r1 E1. bind_ok H as sel Es.
    injection H as <- <-. rewrite calc_after_evaluated. cbv zeta.
    rewrite G, E0. cbn [py_bind]. rewrite E1. cbn [py_bind].
    rewrite Es. cbn [py_bind].
    destruct (sel_exptimes_f2 sel); reflexivity.
  - injection H as <- <-. rewrite calc_after_evaluated. cbv zeta.
    rewrite G. reflexivity.
Qed.

(** ** Emitting a stored block *)




(** The survey [__call__] works on when the gate is closed. *)
Definition settled_infeasible (s : t) : t :=
  if reward_checked s then s
  else evaluated s (_set_block_time s) (Scalar neg_infinity) (best_fields s)
                 (exptimes_f1 s) (exptimes_f2 s).




(** ** A survey of twelve cells *)

(** Every cell at the peak, and the shortest exposure everywhere. *)
Definition flat_sky (ra1 dec1 : float) (ra2 dec2 : list float) : list float :=
  map (fun _ => 0) ra2.
Definition shortest (m5diff : list float) (lo hi : float) : list float :=
  map (fun _ => lo) m5diff.

(** One filter, no tags, a field for every cell and the rewards of
    [Block_survey.rising]. *)
Definition example (f : features) : t :=
  {| basis_functions := [Block_survey.rising]; basis_weights := [1];
     extra_features := f;
     filter1_m5diff := replicate 12 0; filter2_m5diff := None;
     filtername := "r"; filter2 := None; filter_set := set_of_string "r";
     filter2_set := set_of_string "r"; nside := 1; smoothing_kernel := None;
     nexp := 2; min_exptime := 15; max_exptime := 60;
     slew_approx := 5; read_approx := 2; hpids := seq 0 12;
     time_needed := 0.015625; sun_alt_limit := -0.25;
     ra := replicate 12 0; dec := replicate 12 0;
     fields := twelve_fields; hp2fields := seq 0 12;
     tag_fields := false; tag_map := [];
     survey_note := "vary";
     search_radius := 1; az_range := 1; alt_max := 1.5; ideal_pair_time := 22;
     counter := 1; reward_checked := false; reward := Scalar 0;
     block_time := None; best_fields := None;
     exptimes_f1 := None; exptimes_f2 := None |}.

(** Modelled from the spec: the update of a survey with a new snapshot; see
    [Block_survey.update_conditions]. *)
Definition update_conditions (s : t) (f : features) : t :=
  {| basis_functions := basis_functions s; basis_weights := basis_weights s;
     extra_features := f;
     filter1_m5diff := filter1_m5diff s; filter2_m5diff := filter2_m5diff s;
     filtername := filtername s; filter2 := filter2 s;
     filter_set := filter_set s; filter2_set := filter2_set s;
     nside := nside s; smoothing_kernel := smoothing_kernel s;
     nexp := nexp s; min_exptime := min_exptime s; max_exptime := max_exptime s;
     slew_approx := slew_approx s; read_approx := read_approx s;
     hpids := hpids s; time_needed := time_needed s;
     sun_alt_limit := sun_alt_limit s; ra := ra s; dec := dec s;
     fields := fields s; hp2fields := hp2fields s;
     tag_fields := tag_fields s; tag_map := tag_map s;
     survey_note := survey_note s; search_radius := search_radius s;
     az_range := az_range s; alt_max := alt_max s;
     ideal_pair_time := ideal_pair_time s;
     counter := counter s;
     reward_checked := false; reward := reward s;
     block_time := block_time s; best_fields := best_fields s;
     exptimes_f1 := exptimes_f1 s; exptimes_f2 := exptimes_f2 s |}.

(** The survey one tick after a feasible evaluation, when no filter is
    mounted any more. *)
Definition stale_example : t :=
  match calc_reward_function no_smoothing flat_sky shortest (example dark_hour) with
  | Ok (_, s1) => update_conditions s1 no_filter
  | Raise _ => example dark_hour
  end.

End Vary_expt_survey.

(** ** The claims on both surveys *)




(** C9.  For [Block_survey] and [Vary_expt_survey]: when
    [calc_reward_function] returns a reward, calling it again on the survey
    it leaves, with no update of the conditions and no observation added in
    between, returns the same reward and leaves the same survey.  The basis
    functions and the features are what the survey holds; the evaluation
    assigns the reward, the flag and the block and reads none of them. *)
Theorem C9_calc_reward_function_idempotent :
  (forall smooth_reward get_interp_val (s : Block_survey.t) r s',
     Block_survey.calc_reward_function smooth_reward get_interp_val s
     = Ok (r, s') ->
     Block_survey.calc_reward_function smooth_reward get_interp_val s'
     = Ok (r, s')) /\
  (forall smooth_reward haversine scale_exptime (s : Vary_expt_survey.t) r s',
     Vary_expt_survey.calc_reward_function smooth_reward haversine scale_exptime s
     = Ok (r, s') ->
     Vary_expt_survey.calc_reward_function smooth_reward haversine scale_exptime s'
     = Ok (r, s')).
Proof.
  split.
  - intros smooth_reward get_interp_val s r s'.
    apply Block_survey.calc_idempotent.
  - intros smooth_reward haversine scale_exptime s r s'.
    apply Vary_expt_survey.calc_idempotent_vary.
Qed.

Lemma C9_idempotent_witness :
  (exists r s',
     Block_survey.calc_reward_function no_smoothing same_resolution
       (Block_survey.two_masks None) = Ok (r, s') /\
     Block_survey.calc_reward_function no_smoothing same_resolution s'
     = Ok (r, s')) /\
  (exists r s',
     Vary_expt_survey.calc_reward_function no_smoothing Vary_expt_survey.flat_sky
       Vary_expt_survey.shortest (Vary_expt_survey.example dark_hour)
     = Ok (r, s') /\
     Vary_expt_survey.calc_reward_function no_smoothing Vary_expt_survey.flat_sky
       Vary_expt_survey.shortest s'
     = Ok (r, s')).
Proof.
  destruct C9_calc_reward_function_idempotent as [HB HV]. split.
  - destruct (Block_survey.calc_reward_function no_smoothing same_resolution
                (Block_survey.two_masks None))
      as [[r s']|e] eqn:E; [|vm_compute in E; discriminate].
    exists r, s'. split; [reflexivity|]. exact (HB _ _ _ _ _ E).
  - destruct (Vary_expt_survey.calc_reward_function no_smoothing
                Vary_expt_survey.flat_sky Vary_expt_survey.shortest
                (Vary_expt_survey.example dark_hour))
      as [[r s']|e] eqn:E; [|vm_compute in E; discriminate].
    exists r, s'. split; [reflexivity|]. exact (HV _ _ _ _ _ _ E).
Defined.

End ToPort.

(* ================================================================== *)
(** * More on the arrays *)

Module NPFacts.

Import NP.

(** [np.unique] returns its values in ascending order. *)
Lemma insert_unique_nat_sorted x l :
  StronglySorted lt l -> StronglySorted lt (insert_unique_nat x l).
Proof.
  induction 1 as [|y l Hl IH Hy]; simpl.
  - repeat constructor.
  - destruct (Nat.ltb_spec x y) as [Hlt|Hge].
    + constructor; [constructor; assumption|].
      constructor; [exact Hlt|].
      eapply Forall_impl; [exact Hy|]. intros z Hz. simpl in Hz. lia.
    + destruct (Nat.eqb_spec x y) as [->|Hne]; [constructor; assumption|].
      constructor; [exact IH|].
      apply Forall_forall. intros z Hz.
      apply elem_of_insert_unique_nat in Hz as [->|Hz]; [lia|].
      rewrite Forall_forall in Hy. apply Hy. exact Hz.
Qed.

Lemma unique_nat_sorted l : StronglySorted lt (unique_nat l).
Proof.
  induction l as [|x l IH]; simpl; [constructor|].
  apply insert_unique_nat_sorted. exact IH.
Qed.

Lemma StronglySorted_lt_NoDup l : StronglySorted lt l -> NoDup l.
Proof.
  induction 1 as [|x l Hl IH Hx]; constructor; [|exact IH].
  intros Hin. rewrite Forall_forall in Hx. specialize (Hx x Hin). lia.
Qed.

Lemma unique_nat_NoDup l : NoDup (unique_nat l).
Proof. apply StronglySorted_lt_NoDup, unique_nat_sorted. Qed.

(** Distinct positions of an array without repeats give distinct values. *)
Lemma take_NoDup {A} (a : list A) idx vals :
  take a idx = Ok vals -> NoDup a -> NoDup idx -> NoDup vals.
Proof.
  intros H Ha Hidx. apply take_ok_inv in H as [L P].
  apply NoDup_alt. intros i j x Hi Hj.
  destruct (lookup_lt_is_Some_2 idx i) as [ii Hii];
    [rewrite <- L; eapply lookup_lt_Some; eauto|].
  destruct (lookup_lt_is_Some_2 idx j) as [jj Hjj];
    [rewrite <- L; eapply lookup_lt_Some; eauto|].
  destruct (P i ii Hii) as [Ei _]. destruct (P j jj Hjj) as [Ej _].
  rewrite Hi in Ei. rewrite Hj in Ej.
  assert (ii = jj).
  { apply (NoDup_lookup a ii jj x Ha); congruence. }
  subst jj. exact (NoDup_lookup idx i j ii Hidx Hii Hjj).
Qed.

Lemma take_firstn_length {A} (a : list A) idx vals :
  take a idx = Ok vals -> length vals = length idx.
Proof. intros H. apply take_ok_inv in H as [L _]. exact L. Qed.

End NPFacts.

(* ================================================================== *)
(** * More of rolling_funcs.py *)

Module RollingFuncsFacts.

Import FloatOrder NP RollingFuncs.
Local Open Scope float_scope.

(** ** The features [__init__] registers *)

Lemma lookup_foldr_insert_Some {V} (v : V) (l : list nat) (i : nat) :
  i ∈ l ->
  foldr (fun i m => <[Z.of_nat i := v]> m) (∅ : gmap Z V) l !! Z.of_nat i = Some v.
Proof.
  induction l as [|j l IH]; simpl; intros Hi; [inversion Hi|].
  destruct (decide (i = j)) as [->|Hne]; [apply lookup_insert_eq|].
  rewrite lookup_insert_ne by lia. apply IH.
  apply elem_of_cons in Hi as [?|?]; [congruence | assumption].
Qed.

Lemma lookup_foldr_insert_None {V} (v : V) (l : list nat) (k : Z) :
  (forall i, i ∈ l -> k <> Z.of_nat i) ->
  foldr (fun i m => <[Z.of_nat i := v]> m) (∅ : gmap Z V) l !! k = None.
Proof.
  induction l as [|j l IH]; simpl; intros H; [apply lookup_empty|].
  rewrite lookup_insert_ne.
  - apply IH. intros i Hi. apply H. now right.
  - intros E. apply (H j); [now left | congruence].
Qed.

(** A season has its features when it is -1 or the position of a target map
    other than the last. *)
Definition registered (n_maps : nat) (k : Z) : Prop :=
  k = (-1)%Z \/ (0 <= k < Z.of_nat n_maps - 1)%Z.

Lemma lookup_init_features_Some {V} (v : V) (n_maps : nat) (k : Z) :
  registered n_maps k -> init_features v n_maps !! k = Some v.
Proof.
  unfold init_features. intros [->|Hr]; [apply lookup_insert_eq|].
  rewrite lookup_insert_ne by lia.
  replace k with (Z.of_nat (Z.to_nat k)) by lia.
  apply lookup_foldr_insert_Some. apply elem_of_seq. lia.
Qed.

Lemma lookup_init_features_None {V} (v : V) (n_maps : nat) (k : Z) :
  ~ registered n_maps k -> init_features v n_maps !! k = None.
Proof.
  unfold init_features, registered. intros Hn.
  rewrite lookup_insert_ne by (intros E; apply Hn; left; congruence).
  apply lookup_foldr_insert_None. intros i Hi E. apply elem_of_seq in Hi.
  apply Hn. right. lia.
Qed.

(** ** A working set shorter than the map *)

Lemma season_step_bounds bf seasons s c c' :
  season_step bf seasons s c = Ok c' ->
  length (composite_target c') = length (composite_target c) /\
  forall i, seasons !! i = Some s -> (i < length (composite_target c))%nat.
Proof.
  unfold season_step. intros H.
  bind_ok H as tm Etm. bind_ok H as v Ev. bind_ok H as ct Ect.
  bind_ok H as f Ef. bind_ok H as v2 Ev2. bind_ok H as cn Ecn.
  bind_ok H as t Et. bind_ok H as cnt Ecnt. bind_ok H as cg Ecg.
  injection H as <-. simpl.
  apply put_ok_inv in Ect as (L & _ & B & _). split; [exact L|].
  intros i Hi. apply B. apply elem_of_where. apply season_positions. exact Hi.
Qed.

Lemma season_loop_bounds bf seasons : forall todo c c',
  season_loop bf seasons todo c = Ok c' ->
  forall s i, s ∈ todo -> seasons !! i = Some s ->
    (i < length (composite_target c))%nat.
Proof.
  induction todo as [|s0 todo IH]; simpl; intros c c' H s i Hs Hi.
  - inversion Hs.
  - bind_ok H as c1 E1.
    destruct (season_step_bounds _ _ _ _ _ E1) as [L B].
    apply elem_of_cons in Hs as [->|Hs].
    + apply B. exact Hi.
    + rewrite <- L. eapply IH; eauto.
Qed.

(** X2.  [_calc_value] never returns a value for a working set [indx] that has
    fewer entries than the map has cells: the composite arrays get the size
    of [indx], and the loop over the seasons subscripts them with the
    positions of the whole map. *)
Theorem calc_value_short_indx_never_returns season_calc bf conditions indx :
  (length indx <
   length (season_calc (night conditions) (day_offset bf)
                       (season_modulo bf) (max_season bf)))%nat ->
  is_ok (_calc_value season_calc bf conditions (Some indx)) = false.
Proof.
  intros Hlt.
  destruct (_calc_value season_calc bf conditions (Some indx)) as [r|e] eqn:H;
    [|reflexivity].
  exfalso. unfold _calc_value in H.
  bind_ok H as ct Ect. bind_ok H as cn Ecn. bind_ok H as c0 Ec0.
  bind_ok H as cg Ecg. bind_ok H as c Ec.
  set (seasons := season_calc _ _ _ _) in *.
  destruct (lookup_lt_is_Some_2 seasons (length indx) Hlt) as [s Hs].
  assert (Hin : s ∈ unique seasons).
  { apply elem_of_unique. apply list_elem_of_lookup. eauto. }
  pose proof (season_loop_bounds _ _ _ _ _ Ec s (length indx) Hin Hs) as B.
  simpl in B. apply take_ok_inv in Ect as [L _]. lia.
Qed.

Lemma calc_value_short_indx_witness :
  is_ok (calc_example (Some [0%nat; 1%nat])) = false.
Proof.
  unfold calc_example.
  destruct bf_example as [b|e] eqn:E; [|reflexivity]. cbn [py_bind].
  apply calc_value_short_indx_never_returns.
  vm_compute in E. injection E as <-. vm_compute. lia.
Defined.

(** ** A season without features *)

Lemma season_step_missing bf seasons s c n tm :
  length seasons = n -> sized n c ->
  list_getitem (target_maps bf) s = Ok tm -> length tm = n ->
  N_obs bf !! s = None ->
  season_step bf seasons s c = Raise KeyError.
Proof.
  intros Ls (Lt & Ln & Lg) Htm Ltm Hmiss.
  set (b := map (Z.eqb s) seasons).
  assert (Lb : length b = n) by (unfold b; rewrite length_map; exact Ls).
  unfold season_step. fold b. rewrite Htm. cbn [py_bind].
  destruct (take_where tm b) as (v1 & E1 & L1 & P1); [lia|]. rewrite E1.
  cbn [py_bind].
  destruct (put_where (composite_target c) b v1 (fun i => tm !! i))
    as (ct & E2 & _); [lia | exact L1 | exact P1 |].
  rewrite E2. cbn [py_bind]. unfold dict_getitem. rewrite Hmiss. reflexivity.
Qed.

Lemma season_loop_missing bf seasons n miss tm :
  length seasons = n ->
  list_getitem (target_maps bf) miss = Ok tm -> length tm = n ->
  N_obs bf !! miss = None ->
  forall todo c,
  sized n c ->
  (forall s, s ∈ todo -> s <> miss -> seasons_known bf n [s]) ->
  miss ∈ todo ->
  season_loop bf seasons todo c = Raise KeyError.
Proof.
  intros Ls Htm Ltm Hmiss.
  induction todo as [|s todo IH]; intros c Hc Hk Hin; [inversion Hin|].
  simpl. destruct (decide (s = miss)) as [->|Hne].
  - rewrite (season_step_missing bf seasons miss c n tm); auto.
  - destruct (season_step_ok bf seasons s c n) as (c1 & E1 & Hc1 & _); auto.
    { apply Hk; [now left | exact Hne]. }
    rewrite E1. cbn [py_bind]. apply IH; auto.
    + intros s' Hs'. apply Hk. now right.
    + apply elem_of_cons in Hin as [?|?]; [congruence | assumption].
Qed.

(** X3.  The features are registered for every target map but the last, and
    once more for season -1: on a basis function as [__init__] leaves it,
    with maps of the size of the sky, [_calc_value] raises [KeyError] as soon
    as a cell is in the season that is the position of the last target map. *)
Theorem calc_value_season_of_last_map_raises
    season_calc day_offset nside target_maps norm_factor out_of_bounds_val
    season_modulo max_season bf conditions :
  init day_offset nside target_maps norm_factor out_of_bounds_val
       season_modulo max_season = Ok bf ->
  (forall tm, tm ∈ target_maps -> length tm = nside2npix nside) ->
  let seasons := season_calc (night conditions) (RollingFuncs.day_offset bf)
                             (RollingFuncs.season_modulo bf)
                             (RollingFuncs.max_season bf) in
  length seasons = nside2npix nside ->
  (forall s, s ∈ seasons -> (-1 <= s < Z.of_nat (length target_maps))%Z) ->
  (Z.of_nat (length target_maps) - 1)%Z ∈ seasons ->
  _calc_value season_calc bf conditions None = Raise KeyError.
Proof.
  intros Hinit Hsize seasons Ls Hrange Hlast.
  unfold init in Hinit. bind_ok Hinit as first Efirst. injection Hinit as <-.
  assert (Hn : (1 <= length target_maps)%nat).
  { unfold getitem in Efirst.
    destruct (target_maps !! 0%nat) eqn:E; [|discriminate].
    apply lookup_lt_Some in E. lia. }
  set (n := length target_maps) in *.
  set (npix := nside2npix nside) in *.
  unfold _calc_value; cbn [result all_indx]. fold seasons.
  assert (Lz : length (zeros npix) = npix) by apply length_replicate.
  assert (T : take (zeros npix) (seq 0 npix) = Ok (zeros npix)).
  { rewrite <- Lz at 2. apply take_seq_all. }
  rewrite T. cbn [py_bind].
  assert (Hget : forall k, (k < n)%nat ->
            exists tm, target_maps !! k = Some tm /\ length tm = npix).
  { intros k Hk. destruct (lookup_lt_is_Some_2 target_maps k Hk) as [tm Htm].
    exists tm. split; [exact Htm|]. apply Hsize.
    apply list_elem_of_lookup. eauto. }
  match goal with
  | |- py_bind (season_loop ?b _ _ ?c0) _ = _ =>
      set (bf := b); set (c := c0)
  end.
  destruct (Hget (n - 1)%nat) as (tml & Html & Ltml); [lia|].
  rewrite (season_loop_missing bf seasons npix (Z.of_nat n - 1) tml); auto.
  - unfold list_getitem. cbn [RollingFuncs.target_maps bf].
    destruct (0 <=? Z.of_nat n - 1)%Z eqn:E; [|lia].
    unfold getitem. replace (Z.to_nat (Z.of_nat n - 1)) with (n - 1)%nat by lia.
    rewrite Html. reflexivity.
  - cbn [N_obs bf]. apply lookup_init_features_None.
    unfold registered. fold n. lia.
  - repeat split; exact Lz.
  - intros s Hs Hne s' Hs'. apply list_elem_of_singleton in Hs' as ->.
    apply (proj1 (elem_of_unique _ _)) in Hs. apply Hrange in Hs. fold n in Hs.
    assert (Hreg : registered n s) by (unfold registered; lia).
    assert (exists tm, list_getitem target_maps s = Ok tm /\ length tm = npix)
      as (tm & Htm & Ltm).
    { unfold list_getitem, getitem. destruct (0 <=? s)%Z eqn:E.
      - destruct (Hget (Z.to_nat s)) as (tm & -> & L); [lia|]. eauto.
      - fold n. destruct (- Z.of_nat n <=? s)%Z eqn:E'; [|lia].
        destruct (Hget (Z.to_nat (Z.of_nat n + s))) as (tm & -> & L); [lia|].
        eauto. }
    exists tm, (zeros npix), 0.
    cbn [RollingFuncs.target_maps N_obs N_obs_count_all bf].
    rewrite !lookup_init_features_Some by exact Hreg.
    repeat split; auto.
  - apply elem_of_unique. exact Hlast.
Qed.

(** A [season_calc] that finds every cell in season 1. *)
Definition season_calc_second (night : Z) (offset : list float)
    (modulo : Z) (max_season : option Z) : list Z :=
  map (fun _ => 1%Z) offset.

Lemma calc_value_season_of_last_map_witness :
  exists bf,
    init None 1 [target_example; target_example] (Some 1) None None None = Ok bf /\
    _calc_value season_calc_second bf {| night := 3 |} None = Raise KeyError.
Proof.
  eexists. split; [reflexivity|].
  eapply (calc_value_season_of_last_map_raises season_calc_second
            None 1 [target_example; target_example] (Some 1) None None None).
  - reflexivity.
  - intros tm Htm.
    repeat (apply elem_of_cons in Htm as [->|Htm]; [reflexivity|]).
    inversion Htm.
  - reflexivity.
  - intros s Hs. vm_compute in Hs.
    repeat (apply elem_of_cons in Hs as [->|Hs]; [simpl; lia|]).
    inversion Hs.
  - vm_compute. now left.
Defined.

(** ** The full map *)

(** X1.  On the full map, for a basis function whose arrays have the size of
    the map and that has a target map and both features for every season that
    occurs, [_calc_value] returns a map of that size: the out-of-bounds value
    at the cells of [out_of_bounds_area], and at every other cell the target
    fraction of the cell's season times the count over the whole sky in that
    season times [norm_factor], minus the count at the cell in that season. *)
Theorem calc_value_deficit_on_full_map season_calc bf conditions :
  let seasons := season_calc (night conditions) (day_offset bf)
                             (season_modulo bf) (max_season bf) in
  well_formed bf seasons ->
  exists r, _calc_value season_calc bf conditions None = Ok r /\
    length r = length (result bf) /\
    forall i, (i < length (result bf))%nat ->
      r !! i = if decide (i ∈ out_of_bounds_area bf)
               then Some (out_of_bounds_val bf)
               else deficit bf seasons i.
Proof. exact (calc_value_full_map season_calc bf conditions). Qed.

Lemma calc_value_deficit_witness :
  exists bf r,
    bf_example = Ok bf /\
    _calc_value season_calc_capped bf {| night := 3 |} None = Ok r /\
    r !! 1%nat = Some 2.5.
Proof.
  destruct bf_example as [bf|e] eqn:E; [|vm_compute in E; discriminate].
  exists bf.
  destruct (calc_value_deficit_on_full_map season_calc_capped bf {| night := 3 |})
    as (r & Hr & _ & Hv).
  - vm_compute in E. injection E as <-. constructor.
    + reflexivity.
    + reflexivity.
    + intros s Hs. vm_compute in Hs.
      repeat (apply elem_of_cons in Hs as [->|Hs];
              [do 3 eexists; repeat split; reflexivity|]).
      inversion Hs.
    + intros i Hi. vm_compute in Hi.
      repeat (apply elem_of_cons in Hi as [->|Hi]; [simpl; lia|]).
      inversion Hi.
  - exists r. split; [reflexivity|]. split; [exact Hr|].
    rewrite (Hv 1%nat).
    + vm_compute in E. injection E as <-. vm_compute. reflexivity.
    + vm_compute in E. injection E as <-. vm_compute. lia.
Defined.

End RollingFuncsFacts.

(* ================================================================== *)
(** * More of surveys/to_port.py: Block_survey *)

Module BlockSurveyFacts.

Import FloatOrder NP NPSort NPFacts ToPort ToPort.Block_survey.
Local Open Scope float_scope.

(** ** The block in both filters *)

(** The notes of a range that the list covers. *)
Lemma tag_notes_ok n : forall count first result,
  (first + count <= length result)%nat ->
  exists r, tag_notes n first count result = Ok r /\
    length r = length result /\
    forall i o, result !! i = Some o ->
      r !! i = Some (if decide (first <= i < first + count)%nat
                     then with_note n o else o).
Proof.
  induction count as [|count IH]; intros first result Hlen; simpl.
  - exists result. repeat split. intros i o Hi.
    destruct (decide _); [lia | exact Hi].
  - destruct (lookup_lt_is_Some_2 result first) as [o0 H0]; [lia|].
    unfold getitem. rewrite H0. cbn [py_bind].
    destruct (IH (S first) (<[first := with_note n o0]> result))
      as (r & E & L & P); [rewrite length_insert; lia|].
    exists r. split; [exact E|]. split; [rewrite L; apply length_insert|].
    intros i o Hi. destruct (decide (i = first)) as [->|Hne].
    + rewrite (P first (with_note n o0)).
      * assert (o = o0) by congruence. subst o0.
        repeat case_decide; try lia; reflexivity.
      * apply list_lookup_insert_eq. eapply lookup_lt_Some; eauto.
    + rewrite (P i o) by (rewrite list_lookup_insert_ne by congruence; exact Hi).
      repeat case_decide; try lia; reflexivity.
Qed.

(** A range that runs past the end of the list. *)
Lemma tag_notes_short n : forall count first result,
  (0 < count)%nat -> (length result < first + count)%nat ->
  tag_notes n first count result = Raise IndexError.
Proof.
  induction count as [|count IH]; intros first result Hpos Hlen; simpl; [lia|].
  unfold getitem. destruct (result !! first) as [o|] eqn:E; [|reflexivity].
  cbn [py_bind]. apply lookup_lt_Some in E.
  apply IH; rewrite ?length_insert; lia.
Qed.

(** X4.  With a second filter and as many observations as the block has
    visits, [__call__] ends with the block twice: the first copy noted
    ", a", the second ", b", and the copy in the second filter first when
    that filter is the one in place, last otherwise. *)
Theorem pair_up_full_block s f2 observations :
  filter2 s = Some f2 ->
  length observations = nvisit_block s ->
  exists result,
    pair_up s observations = Ok result /\
    length result = (2 * nvisit_block s)%nat /\
    forall i o, observations !! i = Some o ->
      let swap := String.eqb (current_filter (extra_features s)) f2 in
      result !! i
      = Some (with_note (survey_note s ++ ", a")
                        (if swap then with_filter f2 o else o)) /\
      result !! (nvisit_block s + i)%nat
      = Some (with_note (survey_note s ++ ", b")
                        (if swap then o else with_filter f2 o)).
Proof.
  intros Hf2 Hlen. unfold pair_up. rewrite Hf2.
  set (n := nvisit_block s) in *.
  set (paired := map (with_filter f2) observations).
  set (swap := String.eqb _ f2).
  set (res := if swap then paired ++ observations else observations ++ paired).
  assert (Lp : length paired = n) by (unfold paired; rewrite length_map; exact Hlen).
  assert (Lres : length res = (2 * n)%nat).
  { unfold res. destruct swap; rewrite length_app; lia. }
  destruct (tag_notes_ok (survey_note s ++ ", a") n 0 res) as (r1 & E1 & L1 & P1);
    [lia|].
  rewrite E1. cbn [py_bind].
  destruct (tag_notes_ok (survey_note s ++ ", b") n n r1) as (r2 & E2 & L2 & P2);
    [lia|].
  exists r2. split; [exact E2|]. split; [lia|].
  intros i o Hi. cbv zeta.
  assert (Hlt : (i < n)%nat) by (rewrite <- Hlen; eapply lookup_lt_Some; eauto).
  assert (Hpi : paired !! i = Some (with_filter f2 o)).
  { unfold paired. rewrite list_lookup_fmap, Hi. reflexivity. }
  assert (H1 : res !! i = Some (if swap then with_filter f2 o else o)).
  { unfold res. destruct swap; rewrite lookup_app_l by lia; assumption. }
  assert (H2 : res !! (n + i)%nat = Some (if swap then o else with_filter f2 o)).
  { unfold res. destruct swap.
    - rewrite lookup_app_r by lia. replace (n + i - length paired)%nat with i by lia.
      exact Hi.
    - rewrite lookup_app_r by lia.
      replace (n + i - length observations)%nat with i by lia. exact Hpi. }
  split.
  - rewrite (P2 i _ (P1 i _ H1)).
    repeat case_decide; try lia; reflexivity.
  - rewrite (P2 (n + i)%nat _ (P1 (n + i)%nat _ H2)).
    repeat case_decide; try lia; reflexivity.
Qed.

(** A block of two visits in the filters r and g, the filter g in place. *)
Definition paired_example : t :=
  {| basis_functions := [rising]; basis_weights := [1];
     extra_features :=
       {| mounted_filters := ["g"; "r"]%string;
          next_twilight_start := 59000.5; mjd := 59000.25; sunAlt := -0.5;
          lmst := 3; current_filter := "g";
          alt := replicate 12 1; az := replicate 12 2 |};
     filtername := "r"; filter2 := Some "g"%string;
     filter_set := set_of_string "r"; filter2_set := set_of_string "g";
     nside := 1; smoothing_kernel := None;
     nvisit_block := 2; nexp := 2; exptime := 30; hpids := seq 0 12;
     time_needed := 0.03125; sun_alt_limit := -0.25;
     alt_az_masks := [whole_sky];
     fields := twelve_fields; hp2fields := seq 0 12;
     tag_fields := false; tag_map := [];
     survey_note := "block";
     counter := 1; reward_checked := false; reward := Scalar 0;
     best_fields := None |}.

Definition visit (ra : float) : observation :=
  {| Observation.RA := ra; Observation.dec := 0; Observation.exptime := 30;
     Observation.filter := "r"; Observation.rotSkyPos := 0;
     Observation.nexp := 2; Observation.note := "block";
     Observation.field_id := (-1)%Z; Observation.survey_id := 1%Z;
     Observation.block_id := 1%Z |}.

Lemma pair_up_full_block_witness :
  exists result,
    pair_up paired_example [visit 1; visit 2] = Ok result /\
    map Observation.filter result = ["g"; "g"; "r"; "r"]%string /\
    map Observation.note result
    = ["block, a"; "block, a"; "block, b"; "block, b"]%string.
Proof.
  destruct (pair_up_full_block paired_example "g" [visit 1; visit 2]
              eq_refl eq_refl) as (result & E & L & P).
  exists result. split; [exact E|].
  destruct (P 0%nat (visit 1) eq_refl) as [A0 B0].
  destruct (P 1%nat (visit 2) eq_refl) as [A1 B1].
  destruct result as [|o0 [|o1 [|o2 [|o3 [|o4 rest]]]]]; try discriminate L.
  simpl in A0, A1, B0, B1.
  injection A0 as ->. injection A1 as ->. injection B0 as ->. injection B1 as ->.
  split; reflexivity.
Defined.

(** X5.  With a second filter and fewer observations than the block has
    visits (a field of the block was dropped for its tag), the notes are
    written past the end of the list and [__call__] raises [IndexError]. *)
Theorem pair_up_short_block_raises s f2 observations :
  filter2 s = Some f2 ->
  (length observations < nvisit_block s)%nat ->
  pair_up s observations = Raise IndexError.
Proof.
  intros Hf2 Hlen. unfold pair_up. rewrite Hf2.
  set (n := nvisit_block s) in *.
  set (res := if String.eqb _ f2 then _ else _).
  assert (Lres : length res = (2 * length observations)%nat).
  { unfold res. destruct (String.eqb _ _);
      rewrite length_app, length_map; lia. }
  destruct (Nat.le_gt_cases n (length res)) as [Hle|Hgt].
  - destruct (tag_notes_ok (survey_note s ++ ", a") n 0 res) as (r1 & E1 & L1 & _);
      [lia|].
    rewrite E1. cbn [py_bind]. apply tag_notes_short; lia.
  - rewrite tag_notes_short by lia. reflexivity.
Qed.

Lemma pair_up_short_block_witness :
  pair_up paired_example [visit 1] = Raise IndexError.
Proof.
  apply (pair_up_short_block_raises paired_example "g" [visit 1] eq_refl).
  simpl. lia.
Defined.

(** ** What every observation of a block carries *)

(** The columns [__call__] gives the observations of the survey [s]. *)
Definition stamped (s : t) (o : observation) : Prop :=
  Observation.block_id o = counter s /\
  Observation.survey_id o <> 0%Z /\
  Observation.field_id o = (-1)%Z /\
  Observation.rotSkyPos o = 0 /\
  Observation.nexp o = nexp s /\
  Observation.exptime o = exptime s /\
  (Observation.filter o = filtername s \/ Some (Observation.filter o) = filter2 s).

Lemma emit_stamped s best acc indx acc' :
  emit s best acc indx = Ok acc' ->
  Forall (stamped s) acc -> Forall (stamped s) acc'.
Proof.
  unfold emit. intros H Hacc.
  bind_ok H as field Ef. bind_ok H as tag Et.
  destruct (tag =? 0)%Z eqn:E0.
  - injection H as <-. exact Hacc.
  - bind_ok H as ra Era. bind_ok H as de Ede. injection H as <-.
    apply Forall_app. split; [exact Hacc|]. constructor; [|constructor].
    apply Z.eqb_neq in E0. unfold stamped. simpl. auto 10.
Qed.

Lemma emit_all_stamped s best : forall order acc acc',
  emit_all s best order acc = Ok acc' ->
  Forall (stamped s) acc -> Forall (stamped s) acc'.
Proof.
  induction order as [|indx order IH]; simpl; intros acc acc' H Hacc.
  - injection H as <-. exact Hacc.
  - bind_ok H as acc1 E1. eapply IH; [exact H|].
    eapply emit_stamped; eauto.
Qed.

Lemma tag_notes_stamped s n : forall count first result r,
  tag_notes n first count result = Ok r ->
  Forall (stamped s) result -> Forall (stamped s) r.
Proof.
  induction count as [|count IH]; simpl; intros first result r H Hres.
  - injection H as <-. exact Hres.
  - bind_ok H as o Eo. unfold getitem in Eo.
    destruct (result !! first) as [o'|] eqn:E; [|discriminate].
    injection Eo as ->. eapply IH; [exact H|].
    apply Forall_insert; [exact Hres|].
    rewrite Forall_lookup in Hres. exact (Hres first o E).
Qed.

Lemma pair_up_stamped s observations result :
  pair_up s observations = Ok result ->
  Forall (stamped s) observations -> Forall (stamped s) result.
Proof.
  unfold pair_up. intros H Hobs. destruct (filter2 s) as [f2|] eqn:Ef2.
  - bind_ok H as r1 E1.
    eapply tag_notes_stamped; [exact H|].
    eapply tag_notes_stamped; [exact E1|].
    assert (Hp : Forall (stamped s) (map (with_filter f2) observations)).
    { apply Forall_fmap. eapply Forall_impl; [exact Hobs|].
      intros o (B & S & F & R & N & X & _). unfold stamped. simpl.
      rewrite Ef2. auto 10. }
    destruct (String.eqb _ _); apply Forall_app; auto.
  - injection H as <-. exact Hobs.
Qed.

Lemma settle_keeps smooth_reward get_interp_val s s0 :
  settle smooth_reward get_interp_val s = Ok s0 ->
  counter s0 = counter s /\ nexp s0 = nexp s /\ exptime s0 = exptime s /\
  filtername s0 = filtername s /\ filter2 s0 = filter2 s.
Proof.
  unfold settle. intros H. destruct (reward_checked s).
  - injection H as <-. auto.
  - bind_ok H as p Ep. injection H as <-. destruct p as [r s1].
    destruct (calc_evaluated _ _ _ _ _ Ep) as [best ->]. simpl. auto.
Qed.

(** X6.  Every observation a call of [__call__] returns carries the block
    counter the survey had at the call, the field id -1, no rotation, the
    exposure time and number of exposures of the survey, one of its two
    filters and a survey id other than 0 (a field tagged 0 is never
    emitted); the call leaves the counter one higher. *)
Theorem call_stamps_the_block smooth_reward get_interp_val better_order_of
    s observations s' :
  __call__ smooth_reward get_interp_val better_order_of s = Ok (observations, s') ->
  counter s' = (counter s + 1)%Z /\ Forall (stamped s) observations.
Proof.
  unfold __call__. intros H. bind_ok H as s0 Es.
  destruct (settle_keeps _ _ _ _ Es) as (Kc & Kn & Ke & Kf & Kf2).
  bind_ok H as best Eb. bind_ok H as obs Eobs. bind_ok H as result Er.
  injection H as <- <-. split; [simpl; rewrite Kc; reflexivity|].
  assert (Hobs : Forall (stamped s0) obs).
  { destruct best as [|l].
    - bind_ok Eobs as ra Era. bind_ok Eobs as de Ede.
      destruct (better_order_of _ _ _ _); [|discriminate].
      injection Eobs as <-. constructor.
    - bind_ok Eobs as ra Era. bind_ok Eobs as de Ede.
      eapply emit_all_stamped; [exact Eobs | constructor]. }
  apply (pair_up_stamped _ _ _ Er) in Hobs.
  eapply Forall_impl; [exact Hobs|].
  unfold stamped. rewrite Kc, Kn, Ke, Kf, Kf2. auto.
Qed.

Lemma call_stamps_the_block_witness :
  exists observations s',
    __call__ no_smoothing same_resolution catalog_order (two_masks None)
    = Ok (observations, s') /\
    counter s' = 2%Z /\ length observations = 5%nat /\
    Forall (stamped (two_masks None)) observations.
Proof.
  destruct (__call__ no_smoothing same_resolution catalog_order (two_masks None))
    as [[observations s']|e] eqn:E; [|vm_compute in E; discriminate].
  exists observations, s'. split; [reflexivity|].
  destruct (call_stamps_the_block _ _ _ _ _ _ E) as [Hc Hs].
  split; [exact Hc|]. split; [|exact Hs].
  vm_compute in E. injection E as <- _. reflexivity.
Defined.

(** ** The fields of a stored block *)

Lemma reachable_NoDup s m good uf rb :
  reachable s m good = Ok (uf, rb) -> NoDup uf.
Proof.
  unfold reachable. intros H.
  bind_ok H as hp Ehp. bind_ok H as fs Efs.
  bind_ok H as uf' Eu. bind_ok H as rb' Er. injection H as -> ->.
  eapply take_NoDup; [exact Eu | apply unique_nat_NoDup | apply where_NoDup].
Qed.

(** X7.  The block a feasible evaluation stores names [nvisit_block] fields,
    and no field twice. *)
Theorem stored_block_has_distinct_fields smooth_reward get_interp_val s r s' l :
  _check_feasability s = true ->
  calc_reward_function smooth_reward get_interp_val s = Ok (r, s') ->
  best_fields s' = Some (Block l) ->
  NoDup l /\ length l = nvisit_block s.
Proof.
  intros Hgate Hcalc Hbest.
  destruct (calc_feasible _ _ _ _ _ Hgate Hcalc)
    as (m & cands & b & cb & _ & Hc & _ & Hcb & -> & ->).
  simpl in Hbest. injection Hbest as Hbest.
  destruct (traverse_ok_lookup_inv _ _ _ _ _ Hc Hcb) as (am & _ & Hev).
  destruct (evaluate_mask_spec _ _ _ _ _ Hev)
    as (uf & rb & Hmf & [(_ & Hp & _)|(Hge & p & rs & Hp & _ & Hbp & _)]);
    [congruence|].
  assert (p = l) by congruence. subst p.
  unfold mask_fields in Hmf. bind_ok Hmf as good Eg.
  split.
  - eapply take_NoDup; [exact Hp | eapply reachable_NoDup; eauto | apply top_NoDup].
  - apply take_ok_inv in Hp as [-> _]. rewrite top_length. lia.
Qed.

Lemma stored_block_witness :
  exists r s' l,
    calc_reward_function no_smoothing same_resolution (two_masks None) = Ok (r, s') /\
    best_fields s' = Some (Block l) /\ NoDup l /\ length l = 5%nat.
Proof.
  destruct (calc_reward_function no_smoothing same_resolution (two_masks None))
    as [[r s']|e] eqn:E; [|vm_compute in E; discriminate].
  exists r, s', [9; 8; 7; 6; 5]%nat. split; [reflexivity|].
  assert (Hb : best_fields s' = Some (Block [9; 8; 7; 6; 5]%nat)).
  { vm_compute in E. injection E as _ <-. reflexivity. }
  split; [exact Hb|].
  exact (stored_block_has_distinct_fields no_smoothing same_resolution
           (two_masks None) r s' _ eq_refl E Hb).
Defined.

End BlockSurveyFacts.

(* ================================================================== *)
(** * More of surveys/to_port.py: the weighted sum *)

Module WeightedSumFacts.

Import FloatOrder NP NPSort ToPort.
Local Open Scope float_scope.

Lemma zip_firstn {A B} (a : list A) : forall (b : list B),
  zip a b = zip (firstn (length b) a) (firstn (length a) b).
Proof.
  induction a as [|x a IH]; intros [|y b]; simpl; try reflexivity.
  f_equal. apply IH.
Qed.

(** X8.  The loop of [calc_reward_function] pairs the basis functions with
    the weights as far as the shorter list goes: what the longer list has
    beyond that is not looked at, and no error tells of it. *)
Theorem weighted_sum_ignores_surplus npix basis_functions basis_weights :
  weighted_sum npix basis_functions basis_weights
  = weighted_sum npix (firstn (length basis_weights) basis_functions)
                      (firstn (length basis_functions) basis_weights).
Proof. unfold weighted_sum. rewrite <- zip_firstn. reflexivity. Qed.

Lemma weighted_sum_nothing npix basis_functions basis_weights :
  basis_functions = [] \/ basis_weights = [] ->
  weighted_sum npix basis_functions basis_weights = Raise TypeError.
Proof.
  intros [->| ->]; [reflexivity|]. unfold weighted_sum.
  destruct basis_functions; reflexivity.
Qed.

(** X9.  On a feasible tick a survey without basis functions, or without
    weights, raises [TypeError]: the reward is still the number 0 when the
    mask is written into it.  This holds for [Block_survey] and for
    [Vary_expt_survey]. *)
Theorem no_basis_function_raises :
  (forall smooth_reward get_interp_val (s : Block_survey.t),
     Block_survey._check_feasability s = true ->
     Block_survey.basis_functions s = [] \/ Block_survey.basis_weights s = [] ->
     Block_survey.calc_reward_function smooth_reward get_interp_val s
     = Raise TypeError) /\
  (forall smooth_reward haversine scale_exptime (s : Vary_expt_survey.t),
     Vary_expt_survey._check_feasability s = true ->
     Vary_expt_survey.basis_functions s = [] \/
     Vary_expt_survey.basis_weights s = [] ->
     Vary_expt_survey.calc_reward_function smooth_reward haversine scale_exptime s
     = Raise TypeError).
Proof.
  split.
  - intros smooth_reward get_interp_val s G H.
    unfold Block_survey.calc_reward_function, Block_survey.surface,
      Block_survey.composite_reward.
    rewrite G, (weighted_sum_nothing _ _ _ H). reflexivity.
  - intros smooth_reward haversine scale_exptime s G H.
    unfold Vary_expt_survey.calc_reward_function.
    rewrite G, (weighted_sum_nothing _ _ _ H). reflexivity.
Qed.

Lemma no_basis_function_witness :
  Block_survey.calc_reward_function no_smoothing same_resolution
    (Block_survey.example [] [] dark_hour [Block_survey.whole_sky] 1 (seq 0 12) None)
  = Raise TypeError.
Proof.
  apply (proj1 no_basis_function_raises); [reflexivity | left; reflexivity].
Defined.

(** ** Basis functions without a mask *)

Lemma zip_same_length {A B C} (f : A -> B -> C) : forall a b,
  length a = length b ->
  exists r, zip_same f a b = Ok r /\ length r = length a.
Proof.
  induction a as [|x a IH]; intros [|y b] L; simpl in *; try discriminate.
  - exists []. split; reflexivity.
  - destruct (IH b) as (r & -> & Lr); [lia|]. simpl. eexists. split; [reflexivity|].
    simpl. lia.
Qed.

(** The state of the loop while no value had a mask: the sum is the number 0
    or a plain array of the size of the map. *)
Definition unmasked (npix : nat) (st : loop_state) : Prop :=
  ls_indx st = seq 0 npix /\ length (ls_mask st) = npix /\
  (ls_reward st = Scalar 0 \/
   exists d, ls_reward st = Plain d /\ length d = npix).

Definition plain_sized (npix : nat) (bf : basis_function) : Prop :=
  exists d, bf (seq 0 npix) = BPlain d /\ length d = npix.

Lemma basis_step_plain npix st bf w :
  unmasked npix st -> plain_sized npix bf ->
  exists st', basis_step st bf w = Ok st' /\ unmasked npix st' /\
    exists d, ls_reward st' = Plain d /\ length d = npix.
Proof.
  intros (Hi & Lm & Hr) (d & Hd & Ld). unfold basis_step. rewrite Hi, Hd.
  destruct (put_scalar_ok (ls_mask st) (where_ (eq_UNSEEN (BPlain d))) true)
    as [m1 E1].
  { intros i Hin. apply where_lt in Hin. simpl in Hin.
    rewrite length_map in Hin. lia. }
  rewrite E1. cbn [py_bind bv_mask where_ where_from].
  assert (L1 : length m1 = npix).
  { apply put_scalar_ok_inv in E1 as [L _]. lia. }
  change (put_scalar m1 [] true) with (Ok m1). cbn [py_bind scale].
  destruct Hr as [->|(a & -> & La)].
  - cbn [iadd py_bind ls_reward]. eexists. split; [reflexivity|].
    assert (L : length (map (fun v => 0 + v) (map (fun v => v * w) d)) = npix)
      by (rewrite !length_map; exact Ld).
    split; [|eauto]. repeat split; simpl; eauto.
  - cbn [iadd ls_reward].
    destruct (zip_same_length add a (map (fun v => v * w) d)) as (r & -> & Lr);
      [rewrite length_map; lia|].
    cbn [py_bind]. eexists. split; [reflexivity|].
    assert (L : length r = npix) by lia.
    split; [|eauto]. repeat split; simpl; eauto.
Qed.

Lemma basis_loop_plain npix : forall todo st,
  unmasked npix st -> Forall (fun p => plain_sized npix (fst p)) todo ->
  exists st', basis_loop todo st = Ok st' /\ unmasked npix st' /\
    (todo <> [] -> exists d, ls_reward st' = Plain d /\ length d = npix).
Proof.
  induction todo as [|[bf w] todo IH]; intros st Hst Hall; simpl.
  - exists st. split; [reflexivity|]. split; [exact Hst | congruence].
  - inversion Hall as [|? ? Hbf Hrest]; subst. simpl in Hbf.
    destruct (basis_step_plain npix st bf w Hst Hbf) as (st1 & -> & H1 & Hp).
    cbn [py_bind]. destruct (IH st1 H1 Hrest) as (st' & E & H' & Hp').
    exists st'. split; [exact E|]. split; [exact H'|]. intros _.
    destruct todo as [|p todo]; [|apply Hp'; discriminate].
    simpl in E. injection E as <-. exact Hp.
Qed.

(** X10.  When every basis function returns a plain array (of the size of
    the map) the weighted sum is a plain array too, which has no mask to
    assign: the evaluation raises [AttributeError].  A survey needs a basis
    function that returns a masked array. *)
Theorem plain_basis_functions_raise npix basis_functions basis_weights :
  basis_functions <> [] -> basis_weights <> [] ->
  Forall (plain_sized npix) basis_functions ->
  weighted_sum npix basis_functions basis_weights = Raise AttributeError.
Proof.
  intros Hb Hw Hall. unfold weighted_sum.
  destruct (basis_loop_plain npix (zip basis_functions basis_weights)
              {| ls_reward := Scalar 0; ls_indx := seq 0 npix;
                 ls_mask := replicate npix false |})
    as (st & -> & _ & Hp).
  - repeat split; simpl; [apply length_replicate | auto].
  - apply Forall_forall. intros [bf w] Hin. simpl.
    rewrite Forall_forall in Hall. apply Hall.
    apply elem_of_zip_l in Hin. exact Hin.
  - cbn [py_bind]. destruct Hp as (d & -> & Ld).
    + destruct basis_functions, basis_weights; simpl; congruence.
    + rewrite Ld, Nat.eqb_refl. reflexivity.
Qed.

Lemma plain_basis_functions_witness :
  weighted_sum 12 [fun _ => BPlain (replicate 12 1)] [1] = Raise AttributeError.
Proof.
  apply plain_basis_functions_raise; [discriminate | discriminate |].
  constructor; [|constructor]. exists (replicate 12 1). split; reflexivity.
Defined.

End WeightedSumFacts.

(* ================================================================== *)
(** * More of surveys/to_port.py: Vary_expt_survey *)

Module VarySurveyFacts.

Import FloatOrder NP NPSort NPFacts ToPort ToPort.Vary_expt_survey.
Local Open Scope float_scope.

(** ** The fields and the exposure times of a block *)

Lemma cumsum_from_length acc a : length (cumsum_from acc a) = length a.
Proof.
  revert acc. induction a as [|x a IH]; intros acc; simpl; [reflexivity|].
  rewrite IH. reflexivity.
Qed.

Lemma cumsum_length a : length (cumsum a) = length a.
Proof. destruct a; simpl; [reflexivity|]. rewrite cumsum_from_length. reflexivity. Qed.

Lemma zip_same_ok_length {A B C} (f : A -> B -> C) : forall a b r,
  zip_same f a b = Ok r -> length r = length a /\ length r = length b.
Proof.
  induction a as [|x a IH]; intros [|y b] r H; simpl in H; try discriminate.
  - injection H as <-. split; reflexivity.
  - bind_ok H as r' E. injection H as <-. destruct (IH b r' E). simpl. lia.
Qed.

(** The comparison with the block time has an entry only if there is an
    elapsed time. *)
Lemma within_block_nonempty elapsed bt inside :
  within_block elapsed bt = Ok inside -> inside <> [] -> elapsed <> [].
Proof.
  intros H Hne ->. apply Hne. destruct bt as [b|l]; simpl in H.
  - injection H as <-. reflexivity.
  - destruct l as [|b [|b' l]]; simpl in H.
    + injection H as <-. reflexivity.
    + injection H as <-. reflexivity.
    + discriminate.
Qed.

Section Select.

Variable haversine : float -> float -> list float -> list float -> list float.
Variable scale_exptime : list float -> float -> float -> list float.

(** [utils.scale_exptime] returns one exposure time per field. *)
Hypothesis scale_exptime_length : forall m5diff lo hi,
  length (scale_exptime m5diff lo hi) = length m5diff.

Lemma select_lengths s bt m sel :
  select haversine scale_exptime s bt m = Ok sel ->
  sel_best_fields sel <> [] /\
  length (sel_exptimes_f1 sel) = length (sel_best_fields sel) /\
  (filter2 s <> None ->
   exists e2, sel_exptimes_f2 sel = Some e2 /\
     length e2 = length (sel_best_fields sel)).
Proof.
  unfold select. intros H.
  bind_ok H as m1 E1. bind_ok H as peak Epeak. bind_ok H as ra_peak Era.
  bind_ok H as dec_peak Edec. bind_ok H as m2 E2. bind_ok H as az_peak Eaz.
  bind_ok H as m3 E3.
  set (potential_hp := where_ _) in *.
  bind_ok H as ids Eids. bind_ok H as vals Evals. bind_ok H as m5 Em5.
  set (binned := int_binned_stat ids vals max_reject) in *.
  set (order := argsort (snd binned)) in *.
  bind_ok H as uf Euf. bind_ok H as m5b Em5b.
  set (exptime_f1 := scale_exptime (reverse m5b) _ _) in *.
  bind_ok H as sums Esums. bind_ok H as inside Einside.
  bind_ok H as max_indx Emax. bind_ok H as second Esecond.
  injection H as <-. cbn [sel_best_fields sel_exptimes_f1 sel_exptimes_f2].
  assert (Lorder : length order = length (fst binned)).
  { unfold order. rewrite (Permutation_length (argsort_perm _)), length_seq.
    symmetry. apply int_binned_stat_length. }
  assert (Luf : length uf = length order) by (eapply take_firstn_length; eauto).
  assert (Lm5b : length m5b = length order) by (eapply take_firstn_length; eauto).
  assert (Le1 : length exptime_f1 = length order).
  { unfold exptime_f1. rewrite scale_exptime_length, length_reverse. exact Lm5b. }
  assert (Hpos : (0 < length order)%nat).
  { destruct (zip_same_ok_length _ _ _ _ Esums) as [Ls _].
    assert (Hin : inside <> []).
    { intros ->. simpl in Emax. discriminate. }
    pose proof (within_block_nonempty _ _ _ Einside Hin) as Hel.
    assert (length (cumsum sums) <> 0%nat)
      by (destruct (cumsum sums); [congruence | simpl; lia]).
    rewrite cumsum_length in *. lia. }
  assert (Lu : length (unique_nat ids) = length order).
  { rewrite Lorder. reflexivity. }
  destruct (filter2 s) as [f2|] eqn:Ef2.
  - bind_ok Esecond as v Ev. bind_ok Esecond as m5' Em5'.
    bind_ok Esecond as tk Etk. injection Esecond as <-.
    unfold int_binned_stat. cbn [fst snd].
    split; [|split].
    + intros E. apply (f_equal length) in E. rewrite length_take, Lu in E.
      change (length (@nil nat)) with 0%nat in E. lia.
    + rewrite !length_take. lia.
    + intros _. eexists. split; [reflexivity|].
      rewrite !length_take, scale_exptime_length, length_map. lia.
  - injection Esecond as <-. cbn [fst snd]. split; [|split].
    + intros E. apply (f_equal length) in E.
      rewrite length_take, length_reverse, Luf in E.
      change (length (@nil nat)) with 0%nat in E. lia.
    + rewrite !length_take, length_reverse. lia.
    + intros Hn. congruence.
Qed.

(** X11.  A feasible evaluation that returns stores at least one field, and
    as many exposure times as fields, in the first filter and, when there is
    one, in the second: [__call__] finds an exposure time for every field of
    the block. *)
Theorem block_has_an_exposure_time_per_field smooth_reward s r s' :
  _check_feasability s = true ->
  calc_reward_function smooth_reward haversine scale_exptime s = Ok (r, s') ->
  exists l e1,
    best_fields s' = Some l /\ exptimes_f1 s' = Some e1 /\
    l <> [] /\ length e1 = length l /\
    (filter2 s <> None ->
     exists e2, exptimes_f2 s' = Some e2 /\ length e2 = length l).
Proof.
  intros G H. unfold calc_reward_function in H. rewrite G in H.
  bind_ok H as r0 E0. bind_ok H as r1 E1. bind_ok H as sel Es.
  injection H as <- <-.
  destruct r1 as [x|d|m]; try discriminate.
  destruct (select_lengths _ _ _ _ Es) as (Hne & L1 & L2).
  exists (sel_best_fields sel), (sel_exptimes_f1 sel).
  cbn [best_fields exptimes_f1 exptimes_f2 evaluated].
  repeat split; auto.
  intros Hf2. destruct (L2 Hf2) as (e2 & -> & Le2). eauto.
Qed.

End Select.

Lemma block_has_an_exposure_time_witness :
  exists r s' l e1,
    calc_reward_function no_smoothing flat_sky shortest (example dark_hour)
    = Ok (r, s') /\
    best_fields s' = Some l /\ exptimes_f1 s' = Some e1 /\
    l <> [] /\ length e1 = length l.
Proof.
  destruct (calc_reward_function no_smoothing flat_sky shortest (example dark_hour))
    as [[r s']|e] eqn:E; [|vm_compute in E; discriminate].
  destruct (block_has_an_exposure_time_per_field flat_sky shortest
              (fun m5diff lo hi => length_map _ m5diff)
              no_smoothing (example dark_hour) r s' eq_refl E)
    as (l & e1 & Hl & He & Hne & Hlen & _).
  exists r, s', l, e1. auto.
Defined.

(** ** The block time *)

Lemma minimum_spec x y :
  is_nan x = false -> is_nan y = false ->
  (minimum x y = x \/ minimum x y = y) /\
  fle (minimum x y) x /\ fle (minimum x y) y.
Proof.
  intros Hx Hy. unfold minimum. rewrite Hx, Hy.
  destruct (y <? x) eqn:E.
  - split; [right; reflexivity|]. split; [apply ltb_fle; exact E|].
    apply fle_refl; exact Hy.
  - split; [left; reflexivity|]. split; [apply fle_refl; exact Hx|].
    apply ltb_false_fle; assumption.
Qed.

Lemma eqb_refl_number x : is_nan x = false -> (x =? x) = true.
Proof. intros H. apply eqb_fle. split; apply fle_refl; exact H. Qed.

(** X16.  With room for three blocks of the ideal length before twilight the
    block time is the ideal pair time.  With less, it is picked among the
    time left divided by 1, by 2 and by 3: when the three distances to the
    ideal pair time are numbers, the pick is not empty and holds exactly the
    candidates of least distance. *)
Theorem set_block_time_closest s :
  let f := extra_features s in
  let available_time := (next_twilight_start f - mjd f) * (24 * 60) in
  let ideal := ideal_pair_time s in
  let possible := [available_time / 1; available_time / 2; available_time / 3] in
  ((3 <=? available_time / ideal) = true -> _set_block_time s = OneTime ideal) /\
  ((3 <=? available_time / ideal) = false ->
   exists l, _set_block_time s = Times l /\
     (forall b, b ∈ l -> b ∈ possible) /\
     ((forall p, p ∈ possible -> is_nan (abs (ideal - p)) = false) ->
      l <> [] /\
      forall b p, b ∈ l -> p ∈ possible ->
        fle (abs (ideal - b)) (abs (ideal - p)))).
Proof.
  cbv zeta. unfold _set_block_time.
  set (available_time := (next_twilight_start _ - mjd _) * (24 * 60)).
  set (ideal := ideal_pair_time s).
  split; intros H3; rewrite H3; [reflexivity|].
  cbn [map hd tl fold_left].
  set (p1 := available_time / 1). set (p2 := available_time / 2).
  set (p3 := available_time / 3).
  set (d1 := abs (ideal - p1)). set (d2 := abs (ideal - p2)).
  set (d3 := abs (ideal - p3)).
  set (least := minimum (minimum d1 d2) d3).
  eexists. split; [reflexivity|]. split.
  - intros b Hb. apply elem_of_compress in Hb as (i & _ & Hi).
    apply list_elem_of_lookup. eauto.
  - intros Hnum.
    assert (N1 : is_nan d1 = false) by (apply Hnum; set_solver).
    assert (N2 : is_nan d2 = false) by (apply Hnum; set_solver).
    assert (N3 : is_nan d3 = false) by (apply Hnum; set_solver).
    destruct (minimum_spec d1 d2 N1 N2) as (C12 & L1 & L2).
    assert (N12 : is_nan (minimum d1 d2) = false)
      by (destruct C12 as [-> | ->]; assumption).
    destruct (minimum_spec (minimum d1 d2) d3 N12 N3) as (C & L12 & L3).
    fold least in C, L12, L3.
    assert (Hlow : forall p, p ∈ [p1; p2; p3] -> fle least (abs (ideal - p))).
    { intros p Hp.
      apply elem_of_cons in Hp as [->|Hp];
        [exact (fle_trans _ _ _ L12 L1)|].
      apply elem_of_cons in Hp as [->|Hp];
        [exact (fle_trans _ _ _ L12 L2)|].
      apply elem_of_cons in Hp as [->|Hp]; [exact L3 | inversion Hp]. }
    assert (Nl : is_nan least = false) by (apply (fle_not_nan _ _ L3)).
    split.
    + assert (Hsome : (d1 =? least) = true \/ (d2 =? least) = true \/
                      (d3 =? least) = true).
      { destruct C as [C | C]; [destruct C12 as [C12 | C12]|].
        - left. rewrite C, C12. apply eqb_refl_number; exact N1.
        - right; left. rewrite C, C12. apply eqb_refl_number; exact N2.
        - right; right. rewrite C. apply eqb_refl_number; exact N3. }
      simpl. destruct (d1 =? least); [discriminate|].
      destruct (d2 =? least); [discriminate|].
      destruct (d3 =? least); [discriminate|].
      destruct Hsome as [?|[?|?]]; discriminate.
    + intros b p Hb Hp. apply elem_of_compress in Hb as (i & Hi & Hbi).
      assert (Hd : (abs (ideal - b) =? least) = true).
      { destruct i as [|[|[|i]]]; simpl in Hi, Hbi; try discriminate;
          injection Hbi as <-; injection Hi as Hi; exact Hi. }
      apply eqb_fle in Hd as [Hd _].
      eapply fle_trans; [exact Hd | apply Hlow; exact Hp].
Qed.

(** Three quarters of an hour before twilight. *)
Definition late_hour : features :=
  {| mounted_filters := ["u"; "g"; "r"; "i"; "z"]%string;
     next_twilight_start := 59000.5; mjd := 59000.46875; sunAlt := -0.5;
     lmst := 3; current_filter := "r";
     alt := replicate 12 1; az := replicate 12 2 |}.

Lemma set_block_time_witness :
  _set_block_time (example dark_hour) = OneTime 22 /\
  _set_block_time (example late_hour) = Times [22.5].
Proof.
  destruct (set_block_time_closest (example dark_hour)) as [H1 _].
  destruct (set_block_time_closest (example late_hour)) as [_ H2].
  split; [apply H1; vm_compute; reflexivity|].
  destruct H2 as (l & E & _); [vm_compute; reflexivity|].
  rewrite E. vm_compute in E. injection E as <-. reflexivity.
Defined.

End VarySurveyFacts.

(* ================================================================== *)
(** * More of surveys/to_port.py: Scripted_single_block_survey *)

Module ScriptedSurveyFacts.

Import FloatOrder NP ToPort ToPort.Scripted_single_block_survey.
Local Open Scope float_scope.

(** X17.  Before [set_script] has given the survey a script,
    [calc_reward_function] and [__call__] raise [AttributeError].  Once
    there is a script, both return at any time: the reward is negative
    infinity or the configured reward, and [__call__] returns the script as
    it was registered, whatever the reward is, unless the reward is a NaN,
    in which case it returns [[None]]. *)
Theorem script_is_returned_at_any_time s :
  (obs_wanted s = None ->
   calc_reward_function s = Raise AttributeError /\
   __call__ s = Raise AttributeError) /\
  (forall script, obs_wanted s = Some script ->
   exists r,
     calc_reward_function s = Ok (r, set_reward s r) /\
     (r = neg_infinity \/ r = reward_val s) /\
     (script = [] -> r = neg_infinity) /\
     __call__ s
     = Ok (if is_nan r then [None] else map Some script, set_reward s r)).
Proof.
  split.
  - intros H. unfold __call__, calc_reward_function. rewrite H. split; reflexivity.
  - intros script H. unfold __call__, calc_reward_function. rewrite H.
    cbn [py_bind]. cbv zeta.
    destruct ((mjd_tol s <? abs (mjd_target s - mjd s)) ||
              (length script =? 0)%nat) eqn:E.
    + exists neg_infinity. split; [reflexivity|]. split; [auto|].
      split; [reflexivity|].
      cbn [reward set_reward obs_wanted]. rewrite H. reflexivity.
    + exists (reward_val s). split; [reflexivity|]. split; [auto|].
      split.
      { intros ->. rewrite orb_true_r in E. discriminate. }
      cbn [reward set_reward obs_wanted]. rewrite H. unfold is_nan.
      destruct (reward_val s =? reward_val s); reflexivity.
Qed.

Lemma script_is_returned_witness :
  __call__ late_example
  = Ok ([Some obs_example], set_reward late_example neg_infinity).
Proof.
  destruct (proj2 (script_is_returned_at_any_time late_example)
              [obs_example] eq_refl) as (r & Hc & _ & _ & Hcall).
  rewrite Hcall. vm_compute in Hc. injection Hc as <-. reflexivity.
Defined.

End ScriptedSurveyFacts.

(* ================================================================== *)
(** * More of surveys/to_port.py: Greedy_survey_comcam *)

Module Greedy_survey_comcam.

Import FloatOrder NP NPSort NPFacts ToPort.
Local Open Scope float_scope.

(** [self.fields]: one row per pointing of the tessellation. *)
Record pointing_table : Type := {
  fields_RA : list float;
  fields_dec : list float;
  fields_rotSkyPos : list float
}.

Record t : Type := {
  reward : reward_t;
  reward_checked : bool;
  hp2fields : list nat;        (* the pointing of every cell *)
  fields : pointing_table;
  block_size : nat;
  filtername : string
}.

Definition set_reward (s : t) (r : reward_t) : t :=
  {| reward := r; reward_checked := reward_checked s; hp2fields := hp2fields s;
     fields := fields s; block_size := block_size s; filtername := filtername s |}.

(** [np.argsort(self.reward)].  On a masked array numpy sorts the array
    filled with NaN, so that the masked cells come last; a number is sorted
    as an array of one cell. *)
Definition argsort_reward (r : reward_t) : list nat :=
  match r with
  | Scalar _ => [0%nat]
  | Plain d => argsort d
  | Masked m =>
      argsort (zip_with (fun v (b : bool) => if b then nan else v)
                        (data m) (mask m))
  end.

(** The body of [for field in best_fields]. *)
Definition make_obs (s : t) (field : nat) : py observation :=
  ra <- getitem (fields_RA (fields s)) field ;;
  de <- getitem (fields_dec (fields s)) field ;;
  rot <- getitem (fields_rotSkyPos (fields s)) field ;;
  Ok {| Observation.RA := ra; Observation.dec := de;
        Observation.exptime := 30; Observation.filter := filtername s;
        Observation.rotSkyPos := rot; Observation.nexp := 2;
        Observation.note := ""; Observation.field_id := 0;
        Observation.survey_id := 0; Observation.block_id := 0 |}.

Section Call.

(** [calc_reward_function] of the base class, which is not part of the
    sources at hand. *)
Variable calc_reward_function : t -> py (reward_t * t).

(** [if not self.reward_checked: self.reward = self.calc_reward_function()]. *)
Definition settle (s : t) : py t :=
  if reward_checked s then Ok s
  else p <- calc_reward_function s ;; Ok (set_reward (snd p) (fst p)).

(** [__call__()]. *)
Definition __call__ (s : t) : py (list observation * t) :=
  s <- settle s ;;
  let order := reverse (argsort_reward (reward s)) in
  let best_hp := firstn (block_size s) order in
  best <- take (hp2fields s) best_hp ;;
  let best_fields := unique_nat best in
  observations <- traverse (make_obs s) best_fields ;;
  Ok (observations, s).

End Call.

Lemma insert_unique_nat_length x l :
  (length (insert_unique_nat x l) <= S (length l))%nat.
Proof.
  induction l as [|y l IH]; simpl; [lia|].
  destruct (x <? y)%nat; simpl; [lia|].
  destruct (x =? y)%nat; simpl; lia.
Qed.

Lemma unique_nat_length l : (length (unique_nat l) <= length l)%nat.
Proof.
  induction l as [|x l IH]; simpl; [lia|].
  pose proof (insert_unique_nat_length x (unique_nat l)). lia.
Qed.

(** X18.  The pointings [__call__] returns are those of the [block_size]
    cells it picked, each pointing once and in ascending order of the
    pointing number, whatever the rewards of the cells are; there are at most
    [block_size] of them, one observation for each. *)
Theorem comcam_pointings_ascending calc s s0 observations :
  __call__ calc s = Ok (observations, s0) ->
  exists best_fields,
    StronglySorted lt best_fields /\
    (length best_fields <= block_size s0)%nat /\
    length observations = length best_fields /\
    forall k field, best_fields !! k = Some field ->
      (exists c, hp2fields s0 !! c = Some field) /\
      exists o, observations !! k = Some o /\
        fields_RA (fields s0) !! field = Some (Observation.RA o) /\
        fields_dec (fields s0) !! field = Some (Observation.dec o) /\
        fields_rotSkyPos (fields s0) !! field = Some (Observation.rotSkyPos o) /\
        Observation.filter o = filtername s0.
Proof.
  unfold __call__. intros H. bind_ok H as s1 Es. bind_ok H as best Eb.
  bind_ok H as obs Eo. injection H as <- <-.
  exists (unique_nat best). split; [apply unique_nat_sorted|].
  apply take_ok_inv in Eb as [Lb Pb]. split.
  { pose proof (unique_nat_length best). rewrite length_take in Lb. lia. }
  split; [eapply traverse_ok_length; eauto|].
  intros k field Hk. split.
  - assert (Hin : field ∈ best).
    { apply elem_of_unique_nat. apply list_elem_of_lookup. eauto. }
    apply list_elem_of_lookup in Hin as [j Hj].
    destruct (lookup_lt_is_Some_2 (firstn (block_size s1)
                (reverse (argsort_reward (reward s1)))) j) as [c Hc].
    { rewrite <- Lb. eapply lookup_lt_Some; eauto. }
    destruct (Pb j c Hc) as [E _]. exists c. congruence.
  - destruct (traverse_ok_lookup _ _ _ _ _ Eo Hk) as (o & Ho & Hmk).
    exists o. split; [exact Ho|]. unfold make_obs in Hmk.
    bind_ok Hmk as ra Era. bind_ok Hmk as de Ede. bind_ok Hmk as rot Erot.
    injection Hmk as <-. unfold getitem in Era, Ede, Erot. simpl.
    destruct (fields_RA (fields s1) !! field); [|discriminate].
    destruct (fields_dec (fields s1) !! field); [|discriminate].
    destruct (fields_rotSkyPos (fields s1) !! field); [|discriminate].
    repeat split; congruence.
Qed.

(** Six cells on three pointings, two cells to be picked; the last cell is
    masked. *)
Definition comcam_example : t :=
  {| reward := Masked {| data := [1; 5; 2; 3; 9; 4];
                         mask := [false; false; false; false; false; true] |};
     reward_checked := true;
     hp2fields := [0; 2; 1; 1; 0; 2]%nat;
     fields := {| fields_RA := [0.25; 0.5; 0.75];
                  fields_dec := [-0.25; -0.5; -0.75];
                  fields_rotSkyPos := [0; 0; 0] |};
     block_size := 2;
     filtername := "r" |}.

Lemma comcam_pointings_witness :
  exists observations best_fields,
    __call__ (fun _ => Raise TypeError) comcam_example
    = Ok (observations, comcam_example) /\
    map Observation.RA observations = [0.25; 0.75] /\
    StronglySorted lt best_fields /\
    length observations = length best_fields.
Proof.
  destruct (__call__ (fun _ => Raise TypeError) comcam_example)
    as [[observations s0]|e] eqn:E; [|vm_compute in E; discriminate].
  destruct (comcam_pointings_ascending _ _ _ _ E) as (best & Hs & _ & Hl & _).
  vm_compute in E. injection E as <- <-. eexists. exists best.
  split; [reflexivity|]. split; [reflexivity|]. split; [exact Hs | exact Hl].
Defined.

(** ** Masked cells *)

(** X19.  [np.argsort] puts the masked cells of a masked array last, and
    [__call__] reads the order from its end: when the reward map has a masked
    cell and [block_size] is not 0, the cell picked first is a masked cell (or
    one whose reward is a NaN), and the pointing of that cell is among the
    observations returned. *)
Theorem comcam_picks_a_masked_cell calc s s0 observations m f :
  __call__ calc s = Ok (observations, s0) ->
  reward s0 = Masked m ->
  (0 < block_size s0)%nat ->
  mask m !! f = Some true -> (f < length (data m))%nat ->
  exists c field o,
    (mask m !! c = Some true \/
     exists v, data m !! c = Some v /\ is_nan v = true) /\
    hp2fields s0 !! c = Some field /\
    o ∈ observations /\
    fields_RA (fields s0) !! field = Some (Observation.RA o) /\
    fields_dec (fields s0) !! field = Some (Observation.dec o).
Proof.
  unfold __call__. intros H Hr Hpos Hf Hfd. bind_ok H as s1 Es.
  bind_ok H as best Eb. bind_ok H as obs Eo. injection H as <- <-.
  rewrite Hr in Eb. cbn [argsort_reward] in Eb.
  set (a := zip_with (fun v (b : bool) => if b then nan else v)
                     (data m) (mask m)) in *.
  assert (Hfa : a !! f = Some nan).
  { destruct (lookup_lt_is_Some_2 (data m) f Hfd) as [v Hv].
    unfold a. apply lookup_zip_with_Some. exists v, true. auto. }
  assert (Htop : firstn (block_size s1) (reverse (argsort a)) = top (block_size s1) a)
    by reflexivity.
  rewrite Htop in Eb.
  assert (Hla : (f < length a)%nat) by (eapply lookup_lt_Some; eauto).
  destruct (lookup_lt_is_Some_2 (top (block_size s1) a) 0) as [c Hc].
  { rewrite top_length. lia. }
  pose proof (top_first_max _ _ _ f Hc Hla) as Hmax.
  assert (Hkf : key a f = nan) by (unfold key; rewrite Hfa; reflexivity).
  rewrite Hkf in Hmax. apply np_lt_false in Hmax as [Hn|(_ & Hn & _)];
    [|vm_compute in Hn; discriminate].
  assert (Hca : (c < length a)%nat).
  { eapply elem_of_top. apply list_elem_of_lookup. eauto. }
  destruct (lookup_lt_is_Some_2 a c Hca) as [x Hx].
  unfold key in Hn. rewrite Hx in Hn.
  apply lookup_zip_with_Some in Hx as (v & b & -> & Hv & Hb).
  apply take_ok_inv in Eb as [Lb Pb].
  destruct (lookup_lt_is_Some_2 best 0) as [field Hfield].
  { rewrite Lb. eapply lookup_lt_Some; eauto. }
  destruct (Pb 0%nat c Hc) as [Ec _]. rewrite Hfield in Ec. symmetry in Ec.
  assert (Hin : field ∈ unique_nat best).
  { apply elem_of_unique_nat. apply list_elem_of_lookup. eauto. }
  apply list_elem_of_lookup in Hin as [k Hk].
  destruct (traverse_ok_lookup _ _ _ _ _ Eo Hk) as (o & Ho & Hmk).
  exists c, field, o. split.
  { destruct b; [left; exact Hb | right; eauto]. }
  split; [exact Ec|]. split; [apply list_elem_of_lookup; eauto|].
  unfold make_obs in Hmk.
  bind_ok Hmk as ra Era. bind_ok Hmk as de Ede. bind_ok Hmk as rot Erot.
  injection Hmk as <-. unfold getitem in Era, Ede. simpl.
  destruct (fields_RA (fields s1) !! field); [|discriminate].
  destruct (fields_dec (fields s1) !! field); [|discriminate].
  split; congruence.
Qed.

Lemma comcam_picks_a_masked_cell_witness :
  exists observations c,
    __call__ (fun _ => Raise TypeError) comcam_example
    = Ok (observations, comcam_example) /\
    mask {| data := [1; 5; 2; 3; 9; 4];
            mask := [false; false; false; false; false; true] |} !! c
    = Some true /\
    hp2fields comcam_example !! c = Some 2%nat /\
    map Observation.RA observations = [0.25; 0.75].
Proof.
  destruct (__call__ (fun _ => Raise TypeError) comcam_example)
    as [[observations s0]|e] eqn:E; [|vm_compute in E; discriminate].
  assert (Hs : s0 = comcam_example).
  { vm_compute in E. injection E as _ <-. reflexivity. }
  subst s0.
  destruct (comcam_picks_a_masked_cell _ _ _ _ _ 5%nat E eq_refl)
    as (c & field & o & _ & _ & _ & _ & _); [simpl; lia | reflexivity | simpl; lia|].
  exists observations, 5%nat. split; [reflexivity|].
  split; [reflexivity|]. split; [reflexivity|].
  vm_compute in E. injection E as <-. reflexivity.
Defined.

End Greedy_survey_comcam.

(* ================================================================== *)
(** * More of utils.py: clamping and the goal maps *)

Module UtilsMaps.

Import FloatOrder NP NPSort NPFacts ToPort.
Local Open Scope float_scope.

(** A keyword argument and its default. *)
Definition keyword (default : float) (given : option float) : float :=
  match given with Some x => x | None => default end.

(** [inrange(inval, minimum=-1., maximum=1.)], on an array: the copy
    [np.array(inval)] with the values below [minimum] set to it, and then the
    values above [maximum] set to that. *)
Definition inrange (inval : list float) (minimum maximum : option float)
  : py (list float) :=
  let minimum := keyword (-1) minimum in
  let maximum := keyword 1 maximum in
  let below := where_ (map (fun v => v <? minimum) inval) in
  inval <- put_scalar inval below minimum ;;
  let above := where_ (map (fun v => maximum <? v) inval) in
  put_scalar inval above maximum.

(** [a[idx] += x] for an index array without repeats. *)
Definition iadd_at (a : list float) (idx : list nat) (x : float)
  : py (list float) :=
  vals <- take a idx ;; put a idx (map (fun v => v + x) vals).

(** The keyword arguments of [generate_goal_map]. *)
Record goal_arguments : Type := {
  NES_fraction : float; WFD_fraction : float;
  SCP_fraction : float; GP_fraction : float;
  NES_width : float; NES_dec_min : float; NES_fill : bool;
  SCP_dec_max : float;
  gp_center_width : float; gp_end_width : float;
  gp_long1 : float; gp_long2 : float;
  wfd_dec_min : float; wfd_dec_max : float
}.

(** Their defaults: .3, 1., 0.4, 0.2, 15., 0., True, -60., 10., 4., 70., 290.,
    -60., 0. *)
Definition goal_defaults : goal_arguments :=
  {| NES_fraction := 0x1.3333333333333p-2; WFD_fraction := 1;
     SCP_fraction := 0x1.999999999999ap-2; GP_fraction := 0x1.999999999999ap-3;
     NES_width := 15; NES_dec_min := 0; NES_fill := true;
     SCP_dec_max := -60;
     gp_center_width := 10; gp_end_width := 4;
     gp_long1 := 70; gp_long2 := 290;
     wfd_dec_min := -60; wfd_dec_max := 0 |}.

Section Regions.

(** [np.radians]. *)
Variable radians : float -> float.

(** [lsst.sims.utils._hpid2RaDec(nside, np.arange(hp.nside2npix(nside)))],
    which is all of [ra_dec_hp_map(nside)]. *)
Variable ra_dec_hp_map : nat -> list float * list float.

(** [NES_healpixels(nside, width, dec_min, fill_gap)] and
    [galactic_plane_healpixels(nside, center_width, end_width, gal_long1,
    gal_long2)] turn the coordinates with astropy: they are taken as they
    are. *)
Variable NES_healpixels : nat -> float -> float -> bool -> list float.
Variable galactic_plane_healpixels :
  nat -> float -> float -> float -> float -> list float.

(** [WFD_healpixels(nside, dec_min=-60., dec_max=0.)]. *)
Definition WFD_healpixels (nside : nat) (dec_min dec_max : option float)
  : py (list float) :=
  let dec_min := keyword (-60) dec_min in
  let dec_max := keyword 0 dec_max in
  let (ra, dec) := ra_dec_hp_map nside in
  let result := zeros (length ra) in
  let good := where_ (zip_with andb
                        (map (fun d => radians dec_min <=? d) dec)
                        (map (fun d => d <=? radians dec_max) dec)) in
  iadd_at result good 1.

(** [SCP_healpixels(nside, dec_max=-60.)]. *)
Definition SCP_healpixels (nside : nat) (dec_max : option float)
  : py (list float) :=
  let dec_max := keyword (-60) dec_max in
  let (ra, dec) := ra_dec_hp_map nside in
  let result := zeros (length ra) in
  let good := where_ (map (fun d => d <? radians dec_max) dec) in
  iadd_at result good 1.

(** [result[np.where(region != 0)] = 0; result += fraction*region]. *)
Definition lay (result : list float) (fraction : float) (region : list float)
  : py (list float) :=
  result <- put_scalar result (where_ (map (fun v => negb (v =? 0)) region)) 0 ;;
  zip_same add result (map (fun v => fraction * v) region).

(** [generate_goal_map(nside, ...)]. *)
Definition generate_goal_map (nside : nat) (a : goal_arguments)
  : py (list float) :=
  let result := zeros (nside2npix nside) in
  result <- zip_same add result
              (map (fun v => NES_fraction a * v)
                   (NES_healpixels nside (NES_width a) (NES_dec_min a)
                                   (NES_fill a))) ;;
  wfd <- WFD_healpixels nside (Some (wfd_dec_min a)) (Some (wfd_dec_max a)) ;;
  result <- lay result (WFD_fraction a) wfd ;;
  scp <- SCP_healpixels nside (Some (SCP_dec_max a)) ;;
  result <- lay result (SCP_fraction a) scp ;;
  let gp := galactic_plane_healpixels nside (gp_center_width a) (gp_end_width a)
                                      (gp_long1 a) (gp_long2 a) in
  lay result (GP_fraction a) gp.

End Regions.

(** ** Clamping *)

Lemma put_scalar_where {A} (a : list A) b x :
  (length b <= length a)%nat ->
  exists a', put_scalar a (where_ b) x = Ok a' /\ length a' = length a /\
    (forall i, b !! i = Some true -> a' !! i = Some x) /\
    (forall i, b !! i <> Some true -> a' !! i = a !! i).
Proof.
  intros L. unfold put_scalar.
  destruct (put_where a b (replicate (length (where_ b)) x) (fun _ => Some x))
    as (a' & E & La & In_ & Out); auto.
  - apply length_replicate.
  - intros k i Hk. apply lookup_replicate_2. eapply lookup_lt_Some; eauto.
  - exists a'. auto.
Qed.

(** The value [inrange] leaves for [x]. *)
Definition clamp (lo hi x : float) : float :=
  let y := if x <? lo then lo else x in
  if hi <? y then hi else y.

Lemma inrange_elementwise inval minimum maximum :
  exists r, inrange inval minimum maximum = Ok r /\
    length r = length inval /\
    forall i x, inval !! i = Some x ->
      r !! i = Some (clamp (keyword (-1) minimum) (keyword 1 maximum) x).
Proof.
  unfold inrange.
  set (lo := keyword (-1) minimum). set (hi := keyword 1 maximum).
  destruct (put_scalar_where inval (map (fun v => v <? lo) inval) lo)
    as (r1 & E1 & L1 & In1 & Out1); [rewrite length_map; lia|].
  rewrite E1. cbn [py_bind].
  destruct (put_scalar_where r1 (map (fun v => hi <? v) r1) hi)
    as (r & E & L & In_ & Out); [rewrite length_map; lia|].
  exists r. split; [exact E|]. split; [lia|].
  intros i x Hx.
  assert (H1 : r1 !! i = Some (if x <? lo then lo else x)).
  { destruct (x <? lo) eqn:Elo.
    - apply In1. rewrite lookup_map, Hx. simpl. rewrite Elo. reflexivity.
    - rewrite Out1; [exact Hx|]. rewrite lookup_map, Hx. simpl. rewrite Elo.
      discriminate. }
  unfold clamp. set (y := if x <? lo then lo else x) in *.
  destruct (hi <? y) eqn:Ehi.
  - apply In_. rewrite lookup_map, H1. simpl. rewrite Ehi. reflexivity.
  - rewrite Out; [exact H1|]. rewrite lookup_map, H1. simpl. rewrite Ehi.
    discriminate.
Qed.

Lemma clamp_nan lo hi x : is_nan x = true -> clamp lo hi x = x.
Proof.
  intros Hn. unfold clamp. rewrite (ltb_nan_l x lo Hn).
  rewrite (ltb_nan_r hi x Hn). reflexivity.
Qed.

Lemma clamp_in_range lo hi x :
  fle lo hi -> is_nan x = false ->
  fle lo (clamp lo hi x) /\ fle (clamp lo hi x) hi /\
  (fle lo x -> fle x hi -> clamp lo hi x = x).
Proof.
  intros Hlh Hx. destruct (fle_not_nan _ _ Hlh) as [Hlo Hhi]. unfold clamp.
  destruct (x <? lo) eqn:E1.
  - destruct (hi <? lo) eqn:E2.
    + exfalso. eapply ltb_irrefl_fle; eauto.
    + split; [apply fle_refl; exact Hlo|]. split; [exact Hlh|].
      intros Hlx _. exfalso. eapply ltb_irrefl_fle; eauto.
  - assert (Hlx : fle lo x) by (apply ltb_false_fle; auto).
    destruct (hi <? x) eqn:E2.
    + split; [exact Hlh|]. split; [apply fle_refl; exact Hhi|].
      intros _ Hxh. exfalso. eapply ltb_irrefl_fle; eauto.
    + split; [exact Hlx|]. split; [apply ltb_false_fle; auto | reflexivity].
Qed.

(** X12.  [inrange] returns an array of the size of its argument; with
    [minimum] not above [maximum], every value that is a number comes out
    between the two, unchanged when it was there already, and a NaN stays a
    NaN. *)
Theorem inrange_clamps inval minimum maximum :
  fle (keyword (-1) minimum) (keyword 1 maximum) ->
  exists r, inrange inval minimum maximum = Ok r /\
    length r = length inval /\
    forall i x, inval !! i = Some x ->
      exists y, r !! i = Some y /\
        (is_nan x = true -> y = x) /\
        (is_nan x = false ->
         fle (keyword (-1) minimum) y /\ fle y (keyword 1 maximum) /\
         (fle (keyword (-1) minimum) x -> fle x (keyword 1 maximum) -> y = x)).
Proof.
  intros Hlh.
  destruct (inrange_elementwise inval minimum maximum) as (r & E & L & P).
  exists r. split; [exact E|]. split; [exact L|].
  intros i x Hx. eexists. split; [apply P; exact Hx|].
  split; [apply clamp_nan | apply clamp_in_range; exact Hlh].
Qed.

Lemma inrange_clamps_witness :
  inrange [-2; 0.5; 3; nan] None None = Ok [-1; 0.5; 1; nan].
Proof.
  destruct (inrange_clamps [-2; 0.5; 3; nan] None None) as (r & E & _ & _).
  - reflexivity.
  - rewrite E. vm_compute in E. injection E as <-. reflexivity.
Defined.

(** X13.  With [minimum] above [maximum], [inrange] returns [maximum] for
    every value that is a number. *)
Theorem inrange_swapped_bounds inval minimum maximum :
  (keyword 1 maximum <? keyword (-1) minimum) = true ->
  exists r, inrange inval minimum maximum = Ok r /\
    forall i x, inval !! i = Some x -> is_nan x = false ->
      r !! i = Some (keyword 1 maximum).
Proof.
  intros Hsw.
  destruct (inrange_elementwise inval minimum maximum) as (r & E & L & P).
  exists r. split; [exact E|]. intros i x Hx Hn. rewrite (P i x Hx). f_equal.
  set (lo := keyword (-1) minimum) in *. set (hi := keyword 1 maximum) in *.
  destruct (fle_not_nan _ _ (ltb_fle _ _ Hsw)) as [Hhi Hlo].
  unfold clamp. destruct (x <? lo) eqn:E1.
  - rewrite Hsw. reflexivity.
  - destruct (hi <? x) eqn:E2; [reflexivity|]. exfalso.
    assert (fle lo x) by (apply ltb_false_fle; auto).
    assert (fle x hi) by (apply ltb_false_fle; auto).
    eapply ltb_irrefl_fle; [exact Hsw|]. eapply fle_trans; eauto.
Qed.

Lemma inrange_swapped_bounds_witness :
  inrange [-2; 0.5; 3] (Some 1) (Some (-1)) = Ok [-1; -1; -1].
Proof.
  destruct (inrange_swapped_bounds [-2; 0.5; 3] (Some 1) (Some (-1)))
    as (r & E & _).
  - reflexivity.
  - rewrite E. vm_compute in E. injection E as <-. reflexivity.
Defined.

(** ** The regions of the sky *)

Lemma iadd_at_where a b x a' :
  iadd_at a (where_ b) x = Ok a' ->
  length a' = length a /\
  forall i v, a !! i = Some v ->
    a' !! i = Some (if decide (b !! i = Some true) then v + x else v).
Proof.
  unfold iadd_at. intros H. bind_ok H as vals Ev.
  apply take_ok_inv in Ev as [Lv Pv].
  apply put_ok_inv in H as (L & _ & _ & Out & In_).
  split; [exact L|]. intros i v Hi.
  destruct (decide (b !! i = Some true)) as [Hb|Hb].
  - apply elem_of_where in Hb. apply list_elem_of_lookup in Hb as [k Hk].
    rewrite (In_ (where_NoDup b) k i Hk), lookup_map.
    destruct (Pv k i Hk) as [-> _]. rewrite Hi. reflexivity.
  - rewrite Out; [exact Hi|]. rewrite elem_of_where. exact Hb.
Qed.

Lemma lookup_zeros n i v : zeros n !! i = Some v -> v = 0.
Proof. unfold zeros. intros H. apply lookup_replicate in H as [-> _]. reflexivity. Qed.

Section RegionFacts.

Variable radians : float -> float.
Variable ra_dec_hp_map : nat -> list float * list float.

(** A cell of the wide-fast-deep map holds 1 when its declination is in the
    band, and 0 otherwise. *)
Lemma WFD_healpixels_cell nside dec_min dec_max w i x :
  WFD_healpixels radians ra_dec_hp_map nside dec_min dec_max = Ok w ->
  w !! i = Some x ->
  (x = 1 /\ exists d, snd (ra_dec_hp_map nside) !! i = Some d /\
     fle (radians (keyword (-60) dec_min)) d /\
     fle d (radians (keyword 0 dec_max)))
  \/ x = 0.
Proof.
  unfold WFD_healpixels. destruct (ra_dec_hp_map nside) as [ra dec]. cbn [snd].
  intros H Hx. apply iadd_at_where in H as [L P].
  destruct (lookup_lt_is_Some_2 (zeros (length ra)) i) as [z Hz].
  { rewrite <- L. eapply lookup_lt_Some; eauto. }
  rewrite (P i z Hz) in Hx. apply lookup_zeros in Hz. subst z.
  destruct (decide _) as [Hb|Hb]; injection Hx as <-; [left | right; reflexivity].
  split; [reflexivity|].
  apply lookup_zip_with_Some in Hb as (b1 & b2 & Hand & H1 & H2).
  rewrite lookup_map in H1, H2.
  destruct (dec !! i) as [d|]; [|discriminate]. simpl in H1, H2.
  injection H1 as <-. injection H2 as <-.
  symmetry in Hand. apply andb_true_iff in Hand as [A B]. eauto.
Qed.

(** A cell of the south-celestial-pole map holds 1 when its declination is
    below the limit, and 0 otherwise. *)
Lemma SCP_healpixels_cell nside dec_max p i y :
  SCP_healpixels radians ra_dec_hp_map nside dec_max = Ok p ->
  p !! i = Some y ->
  (y = 1 /\ exists d, snd (ra_dec_hp_map nside) !! i = Some d /\
     (d <? radians (keyword (-60) dec_max)) = true)
  \/ y = 0.
Proof.
  unfold SCP_healpixels. destruct (ra_dec_hp_map nside) as [ra dec]. cbn [snd].
  intros H Hy. apply iadd_at_where in H as [L P].
  destruct (lookup_lt_is_Some_2 (zeros (length ra)) i) as [z Hz].
  { rewrite <- L. eapply lookup_lt_Some; eauto. }
  rewrite (P i z Hz) in Hy. apply lookup_zeros in Hz. subst z.
  destruct (decide _) as [Hb|Hb]; injection Hy as <-; [left | right; reflexivity].
  split; [reflexivity|].
  rewrite lookup_map in Hb.
  destruct (dec !! i) as [d|]; [|discriminate]. simpl in Hb.
  injection Hb as Hb. eauto.
Qed.

(** X14.  The wide-fast-deep map and the south-celestial-pole map hold only
    the values 0 and 1, and when the lower edge of the first is the upper
    limit of the second (-60 degrees for both by default) no cell holds 1 in
    both. *)
Theorem WFD_and_SCP_do_not_overlap nside dec_min dec_max scp_dec_max w p :
  WFD_healpixels radians ra_dec_hp_map nside dec_min dec_max = Ok w ->
  SCP_healpixels radians ra_dec_hp_map nside scp_dec_max = Ok p ->
  keyword (-60) dec_min = keyword (-60) scp_dec_max ->
  forall i x y, w !! i = Some x -> p !! i = Some y ->
    (x = 0 \/ x = 1) /\ (y = 0 \/ y = 1) /\ (x = 0 \/ y = 0).
Proof.
  intros Hw Hp Hedge i x y Hx Hy.
  destruct (WFD_healpixels_cell _ _ _ _ _ _ Hw Hx) as [(-> & d & Hd & Hlo & _)| ->];
    destruct (SCP_healpixels_cell _ _ _ _ _ Hp Hy) as [(-> & d' & Hd' & Hlt)| ->];
    auto.
  exfalso. assert (d' = d) by congruence. subst d'. rewrite <- Hedge in Hlt.
  eapply ltb_irrefl_fle; eauto.
Qed.

End RegionFacts.

(** Declinations in degrees, for the examples. *)
Definition four_cells (nside : nat) : list float * list float :=
  ([0; 90; 180; 270], [-75; -60; -30; 15]).

Lemma WFD_and_SCP_witness :
  exists w p,
    WFD_healpixels (fun x => x) four_cells 1 None None = Ok w /\
    SCP_healpixels (fun x => x) four_cells 1 None = Ok p /\
    w = [0; 1; 1; 0] /\ p = [1; 0; 0; 0] /\
    forall i x y, w !! i = Some x -> p !! i = Some y -> x = 0 \/ y = 0.
Proof.
  exists [0; 1; 1; 0], [1; 0; 0; 0].
  split; [reflexivity|]. split; [reflexivity|].
  split; [reflexivity|]. split; [reflexivity|].
  intros i x y Hx Hy.
  apply (WFD_and_SCP_do_not_overlap (fun x => x) four_cells 1 None None None
           [0; 1; 1; 0] [1; 0; 0; 0] eq_refl eq_refl eq_refl i x y Hx Hy).
Defined.

(** ** The goal map *)

Lemma zip_same_lookup {A B C} (f : A -> B -> C) : forall a b r,
  zip_same f a b = Ok r ->
  length r = length a /\ length a = length b /\
  forall i x y, a !! i = Some x -> b !! i = Some y -> r !! i = Some (f x y).
Proof.
  induction a as [|x a IH]; intros [|y b] r H; simpl in H; try discriminate.
  - injection H as <-. repeat split. intros i x y Hx. discriminate.
  - bind_ok H as r' E. injection H as <-.
    destruct (IH b r' E) as (L1 & L2 & P). simpl.
    split; [lia|]. split; [lia|].
    intros [|i] x' y' Hx Hy; simpl in *; [congruence | eauto].
Qed.

(** The value at a cell once a region has been laid over what was there:
    what was there is kept only where the region holds 0. *)
Definition over (fraction x below : float) : float :=
  (if x =? 0 then below else 0) + fraction * x.

Lemma lay_cell result fraction region r :
  lay result fraction region = Ok r ->
  length r = length result /\ length region = length result /\
  forall i below x, result !! i = Some below -> region !! i = Some x ->
    r !! i = Some (over fraction x below).
Proof.
  unfold lay. intros H. bind_ok H as r1 E1.
  apply put_scalar_ok_inv in E1 as (L1 & Out & In_).
  apply zip_same_lookup in H as (L & L' & P). rewrite length_map in L'.
  split; [lia|]. split; [lia|]. intros i below x Hb Hx.
  unfold over. destruct (x =? 0) eqn:E0.
  - apply P.
    + rewrite Out; [exact Hb|]. rewrite elem_of_where, lookup_map, Hx. simpl.
      rewrite E0. discriminate.
    + rewrite lookup_map, Hx. reflexivity.
  - apply P.
    + apply In_. rewrite elem_of_where, lookup_map, Hx. simpl. rewrite E0.
      reflexivity.
    + rewrite lookup_map, Hx. reflexivity.
Qed.

Section GoalMap.

Variable radians : float -> float.
Variable ra_dec_hp_map : nat -> list float * list float.
Variable NES_healpixels : nat -> float -> float -> bool -> list float.
Variable galactic_plane_healpixels :
  nat -> float -> float -> float -> float -> list float.

(** X15.  In the goal map the regions lie over one another in the order in
    which they are added, the north ecliptic spur lowest, then wide-fast-deep,
    the south celestial pole and the galactic plane: at a cell where a region
    holds a value other than 0, nothing is left of the regions below it, so a
    cell of the galactic plane holds [0 + GP_fraction * gp] whatever the other
    regions are. *)
Theorem generate_goal_map_layers nside a result :
  generate_goal_map radians ra_dec_hp_map NES_healpixels
    galactic_plane_healpixels nside a = Ok result ->
  exists wfd scp,
    WFD_healpixels radians ra_dec_hp_map nside
      (Some (wfd_dec_min a)) (Some (wfd_dec_max a)) = Ok wfd /\
    SCP_healpixels radians ra_dec_hp_map nside (Some (SCP_dec_max a)) = Ok scp /\
    length result = nside2npix nside /\
    forall i n w s g,
      NES_healpixels nside (NES_width a) (NES_dec_min a) (NES_fill a) !! i = Some n ->
      wfd !! i = Some w -> scp !! i = Some s ->
      galactic_plane_healpixels nside (gp_center_width a) (gp_end_width a)
        (gp_long1 a) (gp_long2 a) !! i = Some g ->
      result !! i
      = Some (over (GP_fraction a) g
                (over (SCP_fraction a) s
                   (over (WFD_fraction a) w (0 + NES_fraction a * n)))) /\
      ((g =? 0) = false -> result !! i = Some (0 + GP_fraction a * g)).
Proof.
  unfold generate_goal_map. intros H.
  bind_ok H as r0 E0. bind_ok H as wfd Ewfd. bind_ok H as r1 E1.
  bind_ok H as scp Escp. bind_ok H as r2 E2.
  exists wfd, scp. split; [exact Ewfd|]. split; [exact Escp|].
  apply zip_same_lookup in E0 as (L0 & L0' & P0).
  apply lay_cell in E1 as (L1 & _ & P1).
  apply lay_cell in E2 as (L2 & _ & P2).
  apply lay_cell in H as (L3 & _ & P3).
  assert (Lz : length (zeros (nside2npix nside)) = nside2npix nside)
    by apply length_replicate.
  split; [lia|]. intros i n w s g Hn Hw Hs Hg.
  assert (Hi : (i < nside2npix nside)%nat).
  { pose proof (lookup_lt_Some _ _ _ Hn) as Hlt. rewrite length_map in L0'. lia. }
  assert (H0 : r0 !! i = Some (0 + NES_fraction a * n)).
  { apply P0.
    - unfold zeros. apply lookup_replicate_2. exact Hi.
    - rewrite lookup_map, Hn. reflexivity. }
  pose proof (P3 i _ g (P2 i _ s (P1 i _ w H0 Hw) Hs) Hg) as Hr.
  split; [exact Hr|]. intros Hg0. rewrite Hr. unfold over at 1.
  rewrite Hg0. reflexivity.
Qed.

End GoalMap.

(** Four cells: the first in the spur only, the second wide-fast-deep, the
    third at the pole and in the plane, the last in no region. *)
Definition poles (nside : nat) : list float * list float :=
  (replicate 12 0, [15; -30; -75; 15; 15; 15; 15; 15; 15; 15; 15; 15]).
Definition spur (nside : nat) (width dec_min : float) (fill : bool) : list float :=
  [1; 0; 0; 0; 0; 0; 0; 0; 0; 0; 0; 0].
Definition plane (nside : nat) (cw ew l1 l2 : float) : list float :=
  [0; 0; 1; 0; 0; 0; 0; 0; 0; 0; 0; 0].

Lemma generate_goal_map_witness :
  exists result,
    generate_goal_map (fun x => x) poles spur plane 1 goal_defaults = Ok result /\
    result !! 2%nat = Some (0 + GP_fraction goal_defaults * 1) /\
    firstn 4 result
    = [NES_fraction goal_defaults; 1; GP_fraction goal_defaults; 0].
Proof.
  destruct (generate_goal_map (fun x => x) poles spur plane 1 goal_defaults)
    as [result|e] eqn:E; [|vm_compute in E; discriminate].
  exists result. split; [reflexivity|].
  destruct (generate_goal_map_layers _ _ _ _ _ _ _ E)
    as (wfd & scp & Hw & Hs & _ & P).
  vm_compute in Hw. injection Hw as <-. vm_compute in Hs. injection Hs as <-.
  split.
  - apply (P 2%nat 0 0 1 1); reflexivity.
  - vm_compute in E. injection E as <-. reflexivity.
Defined.

End UtilsMaps.

(* ================================================================== *)
(** * More of surveys/to_port.py: the observations of Vary_expt_survey *)

Module VaryCallFacts.

Import FloatOrder NP NPSort NPFacts ToPort ToPort.Vary_expt_survey.
Local Open Scope float_scope.

(** The columns [__call__] gives the observations of the survey [s]: those
    in the first filter are noted ", a", those in the second ", b". *)
Definition stamped (s : t) (o : observation) : Prop :=
  Observation.block_id o = counter s /\
  Observation.survey_id o <> 0%Z /\
  Observation.field_id o = (-1)%Z /\
  Observation.rotSkyPos o = 0 /\
  Observation.nexp o = nexp s /\
  ((Observation.filter o = filtername s /\
    Observation.note o = (survey_note s ++ ", a")%string) \/
   (Some (Observation.filter o) = filter2 s /\
    Observation.note o = (survey_note s ++ ", b")%string)).

Lemma emit_stamped_vary s best acc indx acc' :
  emit s best acc indx = Ok acc' ->
  Forall (stamped s) acc -> Forall (stamped s) acc'.
Proof.
  unfold emit. intros H Hacc.
  bind_ok H as field Ef. bind_ok H as tag Et.
  destruct (tag =? 0)%Z eqn:E0.
  - injection H as <-. exact Hacc.
  - bind_ok H as ra Era. bind_ok H as de Ede. bind_ok H as e1 Ee1.
    bind_ok H as e Ee. injection H as <-.
    apply Forall_app. split; [exact Hacc|]. constructor; [|constructor].
    apply Z.eqb_neq in E0. unfold stamped. simpl. auto 10.
Qed.

Lemma emit_all_stamped_vary s best : forall order acc acc',
  emit_all s best order acc = Ok acc' ->
  Forall (stamped s) acc -> Forall (stamped s) acc'.
Proof.
  induction order as [|indx order IH]; simpl; intros acc acc' H Hacc.
  - injection H as <-. exact Hacc.
  - bind_ok H as acc1 E1. eapply IH; [exact H|].
    eapply emit_stamped_vary; eauto.
Qed.

Lemma pair_from_stamped s f2 order : forall observations i paired,
  filter2 s = Some f2 ->
  pair_from s f2 order i observations = Ok paired ->
  Forall (stamped s) observations ->
  Forall (stamped s) paired /\ length paired = length observations.
Proof.
  induction observations as [|o rest IH]; simpl; intros i paired Hf2 H Hobs.
  - injection H as <-. split; [constructor | reflexivity].
  - bind_ok H as e2 Ee2. bind_ok H as indx Ei. bind_ok H as e Ee.
    bind_ok H as rest' Er. injection H as <-.
    inversion Hobs as [|? ? Ho Hrest]; subst.
    destruct (IH _ _ Hf2 Er Hrest) as [Hp Lp]. split; [|simpl; lia].
    constructor; [|exact Hp].
    destruct Ho as (B & S & F & R & N & _). unfold stamped. simpl.
    rewrite Hf2. auto 10.
Qed.

Lemma pair_up_stamped_vary s order observations result :
  pair_up s order observations = Ok result ->
  Forall (stamped s) observations -> Forall (stamped s) result.
Proof.
  unfold pair_up. intros H Hobs. destruct (filter2 s) as [f2|] eqn:Ef2.
  - bind_ok H as paired Ep.
    destruct (pair_from_stamped s f2 order _ _ _ Ef2 Ep Hobs) as [Hp _].
    destruct (String.eqb _ _); injection H as <-; apply Forall_app; auto.
  - injection H as <-. exact Hobs.
Qed.

Lemma settle_keeps_vary smooth_reward haversine scale_exptime s s0 :
  settle smooth_reward haversine scale_exptime s = Ok s0 ->
  counter s0 = counter s /\ nexp s0 = nexp s /\
  filtername s0 = filtername s /\ filter2 s0 = filter2 s /\
  survey_note s0 = survey_note s.
Proof.
  unfold settle. intros H. destruct (reward_checked s).
  - injection H as <-. auto.
  - bind_ok H as p Ep. injection H as <-.
    unfold calc_reward_function in Ep. destruct (_check_feasability s).
    + bind_ok Ep as r0 E0. bind_ok Ep as r1 E1. bind_ok Ep as sel Es.
      injection Ep as <-. simpl. auto.
    + injection Ep as <-. simpl. auto.
Qed.

(** X20.  Every observation a call of [__call__] returns carries the block
    counter the survey had at the call, the field id -1, no rotation, the
    number of exposures of the survey and a survey id other than 0; it is in
    the first filter and noted ", a", or in the second filter and noted
    ", b".  The call leaves the counter one higher. *)
Theorem vary_call_stamps_the_block smooth_reward haversine scale_exptime
    better_order_of s observations s' :
  __call__ smooth_reward haversine scale_exptime better_order_of s
  = Ok (observations, s') ->
  counter s' = (counter s + 1)%Z /\ Forall (stamped s) observations.
Proof.
  unfold __call__. intros H. bind_ok H as s0 Es.
  destruct (settle_keeps_vary _ _ _ _ _ Es) as (Kc & Kn & Kf & Kf2 & Ks).
  bind_ok H as best Eb. bind_ok H as r Er. bind_ok H as d Ed.
  bind_ok H as obs Eobs. bind_ok H as result Eres.
  injection H as <- <-. split; [simpl; rewrite Kc; reflexivity|].
  assert (Hobs : Forall (stamped s0) obs)
    by (eapply emit_all_stamped_vary; [exact Eobs | constructor]).
  apply (pair_up_stamped_vary _ _ _ _ Eres) in Hobs.
  eapply Forall_impl; [exact Hobs|].
  unfold stamped. rewrite Kc, Kn, Kf, Kf2, Ks. auto.
Qed.

Lemma vary_call_stamps_witness :
  exists observations s',
    __call__ no_smoothing flat_sky shortest catalog_order (example dark_hour)
    = Ok (observations, s') /\
    counter s' = 2%Z /\ length observations = 12%nat /\
    Forall (stamped (example dark_hour)) observations.
Proof.
  destruct (__call__ no_smoothing flat_sky shortest catalog_order
              (example dark_hour))
    as [[observations s']|e] eqn:E; [|vm_compute in E; discriminate].
  exists observations, s'. split; [reflexivity|].
  destruct (vary_call_stamps_the_block _ _ _ _ _ _ _ E) as [Hc Hs].
  split; [exact Hc|]. split; [|exact Hs].
  vm_compute in E. injection E as <- _. reflexivity.
Defined.

End VaryCallFacts.

(* ================================================================== *)
(** * The masks of Block_survey, for any sort and sum of numpy *)

Module BlockSurveyMasks.

Import FloatOrder NP NPSort NPFacts ToPort ToPort.Block_survey.
Local Open Scope float_scope.

(** ** The loop over the masks *)

(** [Block_survey] again, with [np.argsort] and [np.sum] left to numpy: the
    sort decides the order of fields of equal reward, and the sum the
    rounding of the aggregate.  All else is the survey of [Block_survey]. *)
Section Methods.

(** [np.argsort] and [np.sum]. *)
Variable np_argsort : list float -> list nat.
Variable np_sum : list float -> float.

(** The collaborators of the survey, as in [Block_survey]. *)
Variable smooth_reward : float -> reward_t -> py reward_t.
Variable get_interp_val : list float -> list float -> list float -> list float.
Variable better_order_of : list float -> list float -> float -> float -> list nat.

(** The body of [for alt_az_mask in self.alt_az_masks]. *)
Definition evaluate_mask (s : t) (m : masked_array) (alt_az_mask : list float)
  : py candidate :=
  good <- good_cells get_interp_val s m alt_az_mask ;;
  d <- take (data m) good ;;
  k <- take (mask m) good ;;
  d' <- put (data (blank m)) good d ;;
  k' <- put (mask (blank m)) good k ;;
  let reward_map := {| data := d'; mask := k' |} in
  fr <- reachable s m good ;;
  let (ufields, reward_by_field) := fr in
  if (length reward_by_field <? nvisit_block s)%nat then
    Ok {| potential_pointing := NoBlock; potential_reward := neg_infinity;
          potential_reward_map := reward_map |}
  else
    let field_order :=
      firstn (nvisit_block s) (reverse (np_argsort reward_by_field)) in
    p <- take ufields field_order ;;
    r <- take reward_by_field field_order ;;
    Ok {| potential_pointing := Block p; potential_reward := np_sum r;
          potential_reward_map := reward_map |}.

(** [calc_reward_function()]: the reward it returns and the survey it leaves. *)
Definition calc_reward_function (s : t) : py (reward_t * t) :=
  if _check_feasability s then
    r <- surface smooth_reward s ;;
    candidates <-
      match r with
      | Masked m => traverse (evaluate_mask s m) (alt_az_masks s)
      | Scalar _ =>
          match alt_az_masks s with [] => Ok [] | _ => Raise TypeError end
      | Plain _ =>
          match alt_az_masks s with [] => Ok [] | _ => Raise AttributeError end
      end ;;
    best_blob <- best_blob_of (map potential_reward candidates) ;;
    c <- getitem candidates best_blob ;;
    Ok (Masked (potential_reward_map c),
        evaluated s (Masked (potential_reward_map c))
                  (Some (potential_pointing c)))
  else
    Ok (Scalar neg_infinity, evaluated s (Scalar neg_infinity) (best_fields s)).

(** [if not self.reward_checked: self.reward = self.calc_reward_function()]. *)
Definition settle (s : t) : py t :=
  if reward_checked s then Ok s
  else p <- calc_reward_function s ;; Ok (snd p).

(** [__call__()]. *)
Definition __call__ (s : t) : py (list observation * t) :=
  s <- settle s ;;
  let f := extra_features s in
  best <- match best_fields s with
          | Some b => Ok b
          | None => Raise AttributeError
          end ;;
  observations <-
    match best with
    | Block l =>
        ra <- take (fields_RA (fields s)) l ;;
        de <- take (fields_dec (fields s)) l ;;
        emit_all s l (better_order_of ra de (mjd f) (lmst f)) []
    | NoBlock =>
        ra <- getitem (fields_RA (fields s)) 0 ;;
        de <- getitem (fields_dec (fields s)) 0 ;;
        match better_order_of [ra] [de] (mjd f) (lmst f) with
        | [] => Ok []
        | _ :: _ => Raise TypeError
        end
    end ;;
  result <- pair_up s observations ;;
  Ok (result, counted s).

End Methods.

(** With the insertion sort and the sum from the left these are the methods
    of [Block_survey]. *)
Lemma calc_reward_function_short smooth_reward get_interp_val s :
  calc_reward_function argsort NPSort.np_sum smooth_reward get_interp_val s
  = Block_survey.calc_reward_function smooth_reward get_interp_val s.
Proof. reflexivity. Qed.

Lemma call_short smooth_reward get_interp_val better_order_of s :
  __call__ argsort NPSort.np_sum smooth_reward get_interp_val better_order_of s
  = Block_survey.__call__ smooth_reward get_interp_val better_order_of s.
Proof. reflexivity. Qed.


(** ** What a mask reaches *)
















(** ** The scenario *)




End BlockSurveyMasks.
